(** * Reading Logs Parser: the checkpoint/resume loop and the CSV export

    A shallow embedding of [main.go].  Pure helpers ([formatMinutes],
    [isHEIC], the row built by [writeCSV]) are Rocq functions; Go maps
    are [option (gmap string _)], where [None] is the nil map; the
    batch loop of [main] threads an explicit run state and appends
    every observable action to a trace; collaborators outside the
    program (directory listing, [sips], the file system, the vision
    API) are fields of an environment record.

    Left out: the colours, the progress bar and the layout of what is
    printed (a printed line is one event), the byte syntax of JSON (a
    file or an API answer is classified as not-JSON or as the JSON value
    it holds) and the bytes written by [json.MarshalIndent]. *)

From Stdlib Require Import ZArith Ascii String List Lia.
From stdpp Require Import gmap strings list fin_maps pretty.

Open Scope string_scope.
Open Scope Z_scope.

(** ** Go values *)

(** Go's [int] on the 64-bit targets the tool is built for: a
    two's-complement 64-bit integer whose arithmetic wraps around. *)
Definition int_min : Z := - 2 ^ 63.
Definition int_max : Z := 2 ^ 63 - 1.

Definition fits_int (z : Z) : Prop := int_min <= z <= int_max.

Definition fits_intb (z : Z) : bool := (int_min <=? z) && (z <=? int_max).

Definition wrap_int (z : Z) : Z := (z + 2 ^ 63) mod 2 ^ 64 - 2 ^ 63.

(** [a + b] on Go ints. *)
Definition int_add (a b : Z) : Z := wrap_int (a + b).

(** [fmt.Sprintf("%d", n)]. *)
Definition Sprintf_d (n : Z) : string := pretty n.

(** A Go [error] is kept as the text of [err.Error()]. *)
Inductive result (A : Type) : Type :=
  | Ok (a : A)
  | Err (msg : string).
Arguments Ok {A} a.
Arguments Err {A} msg.

(** ** Data model *)

Record ReadingEntry := mkReadingEntry {
  Day : string;
  Date : string;
  Minutes : Z
}.

Record ReadingLog := mkReadingLog {
  FullName : string;
  Grade : string;
  HomeroomTeacher : string;
  ReadingEntries : list ReadingEntry
}.

(** [Progress]: both fields are Go maps, [None] being the nil map. *)
Record Progress := mkProgress {
  Completed : option (gmap string ReadingLog);
  Errors : option (gmap string string)
}.

(** ** CSV output *)

(** [formatMinutes]: the first entry whose date matches decides the cell. *)
Fixpoint formatMinutes (entries : list ReadingEntry) (date : string) : string :=
  match entries with
  | [] => ""
  | e :: rest =>
      if String.eqb (Date e) date then
        if 0 <? Minutes e then Sprintf_d (Minutes e) else ""
      else formatMinutes rest date
  end.

(** The [total] accumulated by the inner loop of [writeCSV]. *)
Definition totalMinutes (entries : list ReadingEntry) : Z :=
  fold_left (fun total e => int_add total (Minutes e)) entries 0.

Definition csvHeader : list string :=
  [ "Full Name"; "Grade"; "Homeroom Teacher";
    "Friday 1/30"; "Saturday 1/31"; "Sunday 2/1";
    "Monday 2/2"; "Tuesday 2/3"; "Wednesday 2/4"; "Thursday 2/5";
    "Total Minutes" ].

(** The [row] built for one log in [writeCSV]. *)
Definition csvRow (log : ReadingLog) : list string :=
  [ FullName log;
    Grade log;
    HomeroomTeacher log;
    formatMinutes (ReadingEntries log) "1/30";
    formatMinutes (ReadingEntries log) "1/31";
    formatMinutes (ReadingEntries log) "2/1";
    formatMinutes (ReadingEntries log) "2/2";
    formatMinutes (ReadingEntries log) "2/3";
    formatMinutes (ReadingEntries log) "2/4";
    formatMinutes (ReadingEntries log) "2/5";
    Sprintf_d (totalMinutes (ReadingEntries log)) ].

(** The seven fixed date columns, in row order (cells 3 to 9). *)
Definition dateColumns : list string :=
  [ "1/30"; "1/31"; "2/1"; "2/2"; "2/3"; "2/4"; "2/5" ].

(** Cell of the [i]-th date column of a row. *)
Definition dateCell (log : ReadingLog) (i : nat) : option string :=
  csvRow log !! (3 + i)%nat.

(** Cell of the Total Minutes column. *)
Definition totalCell (log : ReadingLog) : option string :=
  csvRow log !! 10%nat.

(** Specification side of the export claims: the mathematical sum of
    all minutes of a record, and the first entry carrying a date. *)
Definition sumMinutes (entries : list ReadingEntry) : Z :=
  foldr (fun e acc => Minutes e + acc) 0 entries.

Definition firstWithDate (entries : list ReadingEntry) (date : string)
  : option ReadingEntry :=
  find (fun e => bool_decide (Date e = date)) entries.

(** ** Paths and extensions *)

Definition isPathSeparator (c : ascii) : bool := Ascii.eqb c "/"%char.

(** [strings.ToLower], on the ASCII letters (the extensions and JSON keys
    compared against are ASCII). *)
Definition toLowerAscii (c : ascii) : ascii :=
  let n := nat_of_ascii c in
  if ((65 <=? n) && (n <=? 90))%nat then ascii_of_nat (n + 32) else c.

Fixpoint strings_ToLower (s : string) : string :=
  match s with
  | EmptyString => EmptyString
  | String c rest => String (toLowerAscii c) (strings_ToLower rest)
  end.

(** The backwards scan of [filepath.Ext]: [r] is the part of the path not
    yet visited, reversed; [suffix] the part already visited. *)
Fixpoint extScan (r : list ascii) (suffix : string) : string :=
  match r with
  | [] => ""
  | c :: r' =>
      if isPathSeparator c then ""
      else if Ascii.eqb c "."%char then String c suffix
      else extScan r' (String c suffix)
  end.

Definition filepath_Ext (path : string) : string :=
  extScan (rev (list_ascii_of_string path)) "".

Fixpoint dropSeparators (r : list ascii) : list ascii :=
  match r with
  | c :: r' => if isPathSeparator c then dropSeparators r' else r
  | [] => []
  end.

Fixpoint lastElement (r : list ascii) (acc : string) : string :=
  match r with
  | c :: r' => if isPathSeparator c then acc else lastElement r' (String c acc)
  | [] => acc
  end.

(** [filepath.Base] (Unix): strip trailing separators, keep what follows
    the last remaining separator. *)
Definition filepath_Base (path : string) : string :=
  if String.eqb path "" then "."
  else
    match dropSeparators (rev (list_ascii_of_string path)) with
    | [] => "/"
    | r => lastElement r ""
    end.

(** [filepath.Join(dir, name)] for a directory-entry name (which holds no
    separator): joining onto ["."] cleans to the name itself. *)
Definition filepath_Join (dir name : string) : string :=
  if String.eqb dir "." then name else dir +:+ "/" +:+ name.

(** [isHEIC] *)
Definition isHEIC (path : string) : bool :=
  String.eqb (strings_ToLower (filepath_Ext path)) ".heic".

(** The [imageExts] table of [findImages]. *)
Definition imageExts (ext : string) : bool :=
  existsb (String.eqb ext) [".jpg"; ".jpeg"; ".png"; ".gif"; ".webp"; ".heic"].

(** The [mediaTypes] table of [encodeImage]. *)
Definition mediaTypes (ext : string) : option string :=
  if String.eqb ext ".jpg" then Some "image/jpeg"
  else if String.eqb ext ".jpeg" then Some "image/jpeg"
  else if String.eqb ext ".png" then Some "image/png"
  else if String.eqb ext ".gif" then Some "image/gif"
  else if String.eqb ext ".webp" then Some "image/webp"
  else None.

(** ** Go maps *)

Section GoMap.
Context {V : Type}.

(** [_, ok := m[k]]: reading a nil map finds nothing. *)
Definition mapHas (m : option (gmap string V)) (k : string) : bool :=
  match m with
  | Some g => bool_decide (is_Some (g !! k))
  | None => false
  end.

Definition mapGet (m : option (gmap string V)) (k : string) : option V :=
  match m with
  | Some g => g !! k
  | None => None
  end.

(** [m[k] = v]: [None] is the runtime panic "assignment to entry in nil
    map". *)
Definition mapAssign (m : option (gmap string V)) (k : string) (v : V)
  : option (option (gmap string V)) :=
  match m with
  | Some g => Some (Some (<[k := v]> g))
  | None => None
  end.

(** [delete(m, k)]: a no-op on a nil map. *)
Definition mapDelete (m : option (gmap string V)) (k : string)
  : option (gmap string V) :=
  match m with
  | Some g => Some (delete k g)
  | None => None
  end.

(** [len(m)] *)
Definition mapLen (m : option (gmap string V)) : nat :=
  match m with
  | Some g => size g
  | None => 0%nat
  end.

(** The values visited by [for _, v := range m].  Go leaves the order
    unspecified; the order of [map_to_list] stands for one such order. *)
Definition mapRange (m : option (gmap string V)) : list V :=
  match m with
  | Some g => (map_to_list g).*2
  | None => []
  end.

End GoMap.

(** ** The checkpoint file and [encoding/json] *)

(** A JSON text once it has passed the decoder's syntax check.  A number
    is either an integer literal or a literal with a fraction or an
    exponent, which no [int] field accepts. *)
#[warnings="-register-all"]
Inductive json : Type :=
  | JNull
  | JBool (b : bool)
  | JInt (n : Z)
  | JReal
  | JString (s : string)
  | JArray (items : list json)
  | JObject (members : list (string * json)).

(** Bytes handed to [json.Unmarshal]. *)
Inductive Text : Type :=
  | NotJSON
  | JSONText (v : json).

(** [json.Unmarshal] reports an error; its wording is not modelled. *)
Definition jsonErrorText : string := "json: cannot unmarshal".

(** A key selects the struct field whose JSON name it equals, letter case
    aside (ASCII letters). *)
Definition fieldIs (key name : string) : bool :=
  String.eqb (strings_ToLower key) name.

(** Members of an object are decoded one after the other into the value
    built so far; [None] is a decoding error. *)
Definition decodeMembers {A : Type} (f : A -> string * json -> option A)
    (cur : A) (members : list (string * json)) : option A :=
  foldl (fun acc kv => acc ≫= (fun a => f a kv)) (Some cur) members.

Definition decodeString (v : json) (cur : string) : option string :=
  match v with
  | JString s => Some s
  | JNull => Some cur
  | _ => None
  end.

Definition decodeInt (v : json) (cur : Z) : option Z :=
  match v with
  | JInt n => if fits_intb n then Some n else None
  | JNull => Some cur
  | _ => None
  end.

Definition zeroEntry : ReadingEntry := mkReadingEntry "" "" 0.
Definition zeroLog : ReadingLog := mkReadingLog "" "" "" [].

Definition decodeEntryField (e : ReadingEntry) (kv : string * json)
  : option ReadingEntry :=
  if fieldIs kv.1 "day" then
    d ← decodeString kv.2 (Day e); Some (mkReadingEntry d (Date e) (Minutes e))
  else if fieldIs kv.1 "date" then
    d ← decodeString kv.2 (Date e); Some (mkReadingEntry (Day e) d (Minutes e))
  else if fieldIs kv.1 "minutes" then
    n ← decodeInt kv.2 (Minutes e); Some (mkReadingEntry (Day e) (Date e) n)
  else Some e.

Definition decodeEntry (v : json) (cur : ReadingEntry) : option ReadingEntry :=
  match v with
  | JNull => Some cur
  | JObject members => decodeMembers decodeEntryField cur members
  | _ => None
  end.

(** A slice field: [null] gives the nil slice, an array is decoded
    element by element (each element from the zero value). *)
Definition decodeEntries (v : json) : option (list ReadingEntry) :=
  match v with
  | JNull => Some []
  | JArray items => mapM (fun item => decodeEntry item zeroEntry) items
  | _ => None
  end.

Definition decodeLogField (l : ReadingLog) (kv : string * json)
  : option ReadingLog :=
  if fieldIs kv.1 "full_name" then
    s ← decodeString kv.2 (FullName l);
    Some (mkReadingLog s (Grade l) (HomeroomTeacher l) (ReadingEntries l))
  else if fieldIs kv.1 "grade" then
    s ← decodeString kv.2 (Grade l);
    Some (mkReadingLog (FullName l) s (HomeroomTeacher l) (ReadingEntries l))
  else if fieldIs kv.1 "homeroom_teacher" then
    s ← decodeString kv.2 (HomeroomTeacher l);
    Some (mkReadingLog (FullName l) (Grade l) s (ReadingEntries l))
  else if fieldIs kv.1 "reading_entries" then
    es ← decodeEntries kv.2;
    Some (mkReadingLog (FullName l) (Grade l) (HomeroomTeacher l) es)
  else Some l.

Definition decodeLog (v : json) (cur : ReadingLog) : option ReadingLog :=
  match v with
  | JNull => Some cur
  | JObject members => decodeMembers decodeLogField cur members
  | _ => None
  end.

(** A map field: [null] sets the map to nil; an object is merged into the
    existing map, which is allocated first when it is nil; every element
    is decoded from the zero value. *)
Definition decodeMap {V : Type} (decodeElem : json -> option V) (v : json)
    (cur : option (gmap string V)) : option (option (gmap string V)) :=
  match v with
  | JNull => Some None
  | JObject members =>
      Some <$> decodeMembers
        (fun g kv => x ← decodeElem kv.2; Some (<[kv.1 := x]> g))
        (default ∅ cur) members
  | _ => None
  end.

Definition decodeProgressField (p : Progress) (kv : string * json)
  : option Progress :=
  if fieldIs kv.1 "completed" then
    c ← decodeMap (fun v => decodeLog v zeroLog) kv.2 (Completed p);
    Some (mkProgress c (Errors p))
  else if fieldIs kv.1 "errors" then
    e ← decodeMap (fun v => decodeString v "") kv.2 (Errors p);
    Some (mkProgress (Completed p) e)
  else Some p.

(** [json.Unmarshal(data, p)] for [p : *Progress]: [Some] is the struct
    after a decoding without error. *)
Definition unmarshalProgress (data : Text) (p : Progress) : option Progress :=
  match data with
  | NotJSON => None
  | JSONText JNull => Some p
  | JSONText (JObject members) => decodeMembers decodeProgressField p members
  | JSONText _ => None
  end.

(** [json.Unmarshal([]byte(text), &log)] for a fresh [log]. *)
Definition unmarshalLog (data : Text) : option ReadingLog :=
  match data with
  | NotJSON => None
  | JSONText v => decodeLog v zeroLog
  end.

(** ** The world outside the program *)

Record DirEntry := mkDirEntry {
  Name : string;
  IsDir : bool
}.

(** A content block of the API response: a text block carries its raw
    text and what that text is as JSON. *)
Inductive ContentBlock : Type :=
  | TextBlock (raw : string) (doc : Text)
  | OtherBlock.

(** Everything [main] asks of its surroundings.  [os_CreateTemp n] is the
    outcome of the [n]-th call (names are fresh per call); [exec_sips]
    gives the combined output and the error, if any; [os_WriteFile] is
    asked to write the serialized [Progress]; [csv_Write row] is what
    [writer.Write(row)] returns (the writer is buffered: an error shows
    when the buffer had to be written out and that failed); [csv_Flush]
    is the outcome of the final [writer.Flush()]. *)
Record Env := mkEnv {
  os_ReadDir : string -> result (list DirEntry);
  os_ReadFile : string -> result Text;
  os_WriteFile : string -> Progress -> result unit;
  os_CreateTemp : nat -> result string;
  exec_sips : string -> string -> string * option string;
  io_ReadAll : string -> result string;
  base64_EncodeToString : string -> string;
  messages_New : string -> string -> result (list ContentBlock);
  os_Create : string -> result unit;
  csv_Write : list string -> result unit;
  csv_Flush : result unit
}.

Definition progressFile : string := ".progress.json".

(** ** Observable actions *)

(** What the loop does for one image.  [Skip] prints nothing: it records
    that the loop took the [continue] of an already-completed file;
    [Attempt] is the [printProgress] line that opens the processing. *)
Inductive FileAction : Type :=
  | Skip
  | Attempt (current total skipped : nat)
  | CreateTemp (jpgPath : string)
  | RunSips (jpgPath : string)
  | ReadImage (path : string)
  | CallAPI (mediaType encoded : string)
  | PrintError (msg : string)
  | MarkFailure (baseName msg : string)
  | MarkSuccess (baseName : string) (log : ReadingLog)
  | SaveProgress (p : Progress) (res : result unit)
  | WarnSave (msg : string)
  | PrintResult (log : ReadingLog).

Inductive Event : Type :=
  | EvBanner
  | EvFindError (msg : string)
  | EvNoImages
  | EvWarnParse
  | EvResuming (skipped total : nat)
  | EvToProcess (n : nat)
  | EvFile (imgPath : string) (a : FileAction)
  | EvRemove (path : string)
  | EvNoLogs
  | EvCSVError (msg : string)
  | EvSummary (total succeeded failed skipped : nat)
  | EvWrote (n : nat).

(** ** Progress persistence *)

Definition freshProgress : Progress := mkProgress (Some ∅) (Some ∅).

(** [loadProgress]: the state and what it prints. *)
Definition loadProgress (env : Env) : Progress * list Event :=
  let p := freshProgress in
  match os_ReadFile env progressFile with
  | Err _ => (p, [])
  | Ok data =>
      match unmarshalProgress data p with
      | None => (freshProgress, [EvWarnParse])
      | Some p' => (p', [])
      end
  end.

(** [saveProgress]: marshalling a [Progress] cannot fail, so the result is
    that of [os.WriteFile]. *)
Definition saveProgress (env : Env) (p : Progress) : result unit :=
  os_WriteFile env progressFile p.

(** ** State of a run *)

Record RunState := mkRunState {
  progress : Progress;
  succeeded : nat;
  failed : nat;
  deferred : list string;
  tmpfiles : list string;
  ncreated : nat;
  trace : list Event
}.

Definition emit (st : RunState) (ev : Event) : RunState :=
  mkRunState (progress st) (succeeded st) (failed st) (deferred st)
    (tmpfiles st) (ncreated st) (trace st ++ [ev]).

Definition setProgress (st : RunState) (p : Progress) : RunState :=
  mkRunState p (succeeded st) (failed st) (deferred st)
    (tmpfiles st) (ncreated st) (trace st).

Definition incSucceeded (st : RunState) : RunState :=
  mkRunState (progress st) (S (succeeded st)) (failed st) (deferred st)
    (tmpfiles st) (ncreated st) (trace st).

Definition incFailed (st : RunState) : RunState :=
  mkRunState (progress st) (succeeded st) (S (failed st)) (deferred st)
    (tmpfiles st) (ncreated st) (trace st).

(** [defer os.Remove(path)]: the most recent deferral is at the head. *)
Definition deferRemove (st : RunState) (path : string) : RunState :=
  mkRunState (progress st) (succeeded st) (failed st) (path :: deferred st)
    (tmpfiles st) (ncreated st) (trace st).

(** A call of [os.CreateTemp], and the file it leaves when it succeeds. *)
Definition countCreateTemp (st : RunState) : RunState :=
  mkRunState (progress st) (succeeded st) (failed st) (deferred st)
    (tmpfiles st) (S (ncreated st)) (trace st).

Definition addTemp (st : RunState) (path : string) : RunState :=
  mkRunState (progress st) (succeeded st) (failed st) (deferred st)
    (path :: tmpfiles st) (ncreated st) (trace st).

(** [os.Remove(path)] *)
Definition osRemove (st : RunState) (path : string) : RunState :=
  emit
    (mkRunState (progress st) (succeeded st) (failed st) (deferred st)
       (filter (fun f => f <> path) (tmpfiles st)) (ncreated st) (trace st))
    (EvRemove path).

(** The loop either goes on or the Go runtime panics. *)
Inductive Flow : Type :=
  | Running (st : RunState)
  | Panic (st : RunState) (msg : string).

Definition nilMapPanic : string := "assignment to entry in nil map".

(** ** Image handling *)

(** [findImages] *)
Definition findImages (env : Env) (dir : string) : result (list string) :=
  match os_ReadDir env dir with
  | Err e => Err e
  | Ok entries =>
      Ok (foldl
            (fun images e =>
               if IsDir e then images
               else if imageExts (strings_ToLower (filepath_Ext (Name e)))
                    then (images ++ [filepath_Join dir (Name e)])%list
                    else images)
            ([] : list string) entries)
  end.

Definition newline : string := String (ascii_of_nat 10) "".

(** [convertHEICtoJPEG] *)
Definition convertHEICtoJPEG (env : Env) (heicPath : string) (st : RunState)
  : RunState * result string :=
  match os_CreateTemp env (ncreated st) with
  | Err e => (countCreateTemp st, Err ("failed to create temp file: " +:+ e))
  | Ok jpgPath =>
      let st := emit (addTemp (countCreateTemp st) jpgPath)
                  (EvFile heicPath (CreateTemp jpgPath)) in
      let st := emit st (EvFile heicPath (RunSips jpgPath)) in
      match exec_sips env heicPath jpgPath with
      | (output, Some e) =>
          (osRemove st jpgPath,
           Err ("sips conversion failed: " +:+ e +:+ newline +:+ output))
      | (_, None) => (st, Ok jpgPath)
      end
  end.

(** [encodeImage] *)
Definition encodeImage (env : Env) (path : string) : result (string * string) :=
  match io_ReadAll env path with
  | Err e => Err e
  | Ok data =>
      let ext := strings_ToLower (filepath_Ext path) in
      match mediaTypes ext with
      | None => Err ("unsupported image type: " +:+ ext)
      | Some mediaType => Ok (mediaType, base64_EncodeToString env data)
      end
  end.

(** ** The vision API *)

(** The response loop of [parseReadingLog]: the first text block decides. *)
Fixpoint firstTextBlock (content : list ContentBlock) : result ReadingLog :=
  match content with
  | [] => Err "no text content in API response"
  | TextBlock raw doc :: _ =>
      match unmarshalLog doc with
      | Some log => Ok log
      | None =>
          Err ("failed to parse response JSON: " +:+ jsonErrorText
               +:+ newline +:+ "raw: " +:+ raw)
      end
  | OtherBlock :: rest => firstTextBlock rest
  end.

(** [parseReadingLog] *)
Definition parseReadingLog (env : Env) (mediaType encodedImage : string)
  : result ReadingLog :=
  match messages_New env mediaType encodedImage with
  | Err e => Err ("API call failed: " +:+ e)
  | Ok content => firstTextBlock content
  end.

(** ** CSV file *)

Fixpoint writeRows (env : Env) (logs : list ReadingLog) : result unit :=
  match logs with
  | [] => Ok tt
  | log :: rest =>
      match csv_Write env (csvRow log) with
      | Err e => Err e
      | Ok _ => writeRows env rest
      end
  end.

(** [writeCSV]: the value it returns.  The deferred [writer.Flush()]
    runs when it returns; its outcome, [csv_Flush env], is looked at by
    nobody. *)
Definition writeCSV (env : Env) (filename : string) (logs : list ReadingLog)
  : result unit :=
  match os_Create env filename with
  | Err e => Err e
  | Ok _ =>
      match csv_Write env csvHeader with
      | Err e => Err e
      | Ok _ => writeRows env logs
      end
  end.

(** ** The checkpoint operations of the loop *)

(** [progress.Errors[baseName] = err.Error()]; [None] is the panic. *)
Definition markFailure (p : Progress) (baseName msg : string) : option Progress :=
  errs ← mapAssign (Errors p) baseName msg;
  Some (mkProgress (Completed p) errs).

(** [progress.Completed[baseName] = *log] followed by
    [delete(progress.Errors, baseName)]; [None] is the panic. *)
Definition markSuccess (p : Progress) (baseName : string) (log : ReadingLog)
  : option Progress :=
  comp ← mapAssign (Completed p) baseName log;
  Some (mkProgress comp (mapDelete (Errors p) baseName)).

(** The error branch the loop takes three times: print, record, save
    (the result of the save is dropped), count, [continue]. *)
Definition failImage (env : Env) (imgPath baseName msg : string) (st : RunState)
  : Flow :=
  let st := emit st (EvFile imgPath (PrintError msg)) in
  match markFailure (progress st) baseName msg with
  | None => Panic st nilMapPanic
  | Some p =>
      let st := emit (setProgress st p) (EvFile imgPath (MarkFailure baseName msg)) in
      let st := emit st (EvFile imgPath (SaveProgress p (saveProgress env p))) in
      Running (incFailed st)
  end.

(** The success branch: record, save (a failed save is reported on
    stderr), print, count. *)
Definition completeImage (env : Env) (imgPath baseName : string)
    (log : ReadingLog) (st : RunState) : Flow :=
  match markSuccess (progress st) baseName log with
  | None => Panic st nilMapPanic
  | Some p =>
      let st := emit (setProgress st p) (EvFile imgPath (MarkSuccess baseName log)) in
      let res := saveProgress env p in
      let st := emit st (EvFile imgPath (SaveProgress p res)) in
      let st := match res with
                | Err e => emit st (EvFile imgPath (WarnSave e))
                | Ok _ => st
                end in
      Running (incSucceeded (emit st (EvFile imgPath (PrintResult log))))
  end.

(** ** [main] *)

(** Body of [for i, imgPath := range images]. *)
Definition processImage (env : Env) (total skipped : nat) (i : nat)
    (imgPath : string) (st : RunState) : Flow :=
  let baseName := filepath_Base imgPath in
  if mapHas (Completed (progress st)) baseName
  then Running (emit st (EvFile imgPath Skip))
  else
    let st := emit st (EvFile imgPath (Attempt (i + 1) total skipped)) in
    let '(st, converted) :=
      if isHEIC imgPath then
        match convertHEICtoJPEG env imgPath st with
        | (st, Ok jpgPath) => (deferRemove st jpgPath, Ok jpgPath)
        | (st, Err e) => (st, Err e)
        end
      else (st, Ok imgPath) in
    match converted with
    | Err e => failImage env imgPath baseName e st
    | Ok processPath =>
        let st := emit st (EvFile imgPath (ReadImage processPath)) in
        match encodeImage env processPath with
        | Err e => failImage env imgPath baseName e st
        | Ok (mediaType, encoded) =>
            let st := emit st (EvFile imgPath (CallAPI mediaType encoded)) in
            match parseReadingLog env mediaType encoded with
            | Err e => failImage env imgPath baseName e st
            | Ok log => completeImage env imgPath baseName log st
            end
        end
    end.

Fixpoint rangeImages (env : Env) (total skipped : nat) (i : nat)
    (images : list string) (st : RunState) : Flow :=
  match images with
  | [] => Running st
  | imgPath :: rest =>
      match processImage env total skipped i imgPath st with
      | Running st' => rangeImages env total skipped (S i) rest st'
      | Panic st' msg => Panic st' msg
      end
  end.

(** The counting loop that precedes the batch. *)
Definition countSkipped (p : Progress) (images : list string) : nat :=
  length (filter (fun img => mapHas (Completed p) (filepath_Base img) = true) images).

(** Deferred removals run when [main] returns or panics, latest first. *)
Definition runDeferred (st : RunState) : RunState :=
  foldl osRemove st (deferred st).

(** How the process ends: its exit status, what it printed and did, the
    temporary files it leaves behind, and the checkpoint state in memory
    when it stopped ([None] if it stopped before loading one). *)
Record Final := mkFinal {
  status : Z;
  actions : list Event;
  leftover : list string;
  memory : option Progress
}.

Definition initState (p : Progress) (tr : list Event) : RunState :=
  mkRunState p 0 0 [] [] 0 tr.

(** [os.Exit(code)]: deferred calls do not run. *)
Definition osExit (code : Z) (st : RunState) : Final :=
  mkFinal code (trace st) (tmpfiles st) (Some (progress st)).

(** Normal return of [main]: deferred calls run, the status is 0. *)
Definition returnMain (st : RunState) : Final :=
  let st := runDeferred st in
  mkFinal 0 (trace st) (tmpfiles st) (Some (progress st)).

(** A panic unwinds [main] (deferred calls run), then the runtime exits
    with status 2. *)
Definition panicExit (st : RunState) : Final :=
  let st := runDeferred st in
  mkFinal 2 (trace st) (tmpfiles st) (Some (progress st)).

(** The part of [main] after the loop. *)
Definition exportLogs (env : Env) (images : list string) (skipped : nat)
    (st : RunState) : Final :=
  let allLogs := mapRange (Completed (progress st)) in
  if (length allLogs =? 0)%nat then osExit 1 (emit st EvNoLogs)
  else
    match writeCSV env "reading_logs.csv" allLogs with
    | Err e => osExit 1 (emit st (EvCSVError e))
    | Ok _ =>
        let st := emit st (EvSummary (length images) (succeeded st) (failed st) skipped) in
        returnMain (emit st (EvWrote (length allLogs)))
    end.

(** State of [main] when the batch loop starts: the loaded progress, what
    was printed so far, and the resume lines. *)
Definition startState (p : Progress) (tr : list Event) (images : list string)
    (skipped : nat) : RunState :=
  let st := initState p tr in
  let st := if (0 <? skipped)%nat
            then emit st (EvResuming skipped (length images)) else st in
  emit st (EvToProcess (length images - skipped)).

(** The part of [main] that follows [loadProgress]. *)
Definition runBatch (env : Env) (images : list string) (p : Progress)
    (tr : list Event) : Final :=
  let skipped := countSkipped p images in
  match rangeImages env (length images) skipped 0 images
          (startState p tr images skipped) with
  | Panic st _ => panicExit st
  | Running st => exportLogs env images skipped st
  end.

(** [main] *)
Definition main (env : Env) : Final :=
  match findImages env "." with
  | Err e => mkFinal 1 [EvBanner; EvFindError e] [] None
  | Ok images =>
      if (length images =? 0)%nat then mkFinal 1 [EvBanner; EvNoImages] [] None
      else
        let '(p, warnings) := loadProgress env in
        runBatch env images p (EvBanner :: warnings)
  end.

(** ** Reading a run *)

Definition stateOf (f : Flow) : RunState :=
  match f with
  | Running st => st
  | Panic st _ => st
  end.

(** The batch loop of [main] from the state a load leaves. *)
Definition batchLoop (env : Env) (images : list string) (p : Progress)
    (tr : list Event) : Flow :=
  rangeImages env (length images) (countSkipped p images) 0 images
    (startState p tr images (countSkipped p images)).

(** An action taken on an image, as opposed to passing it over. *)
Definition isWork (ev : Event) : bool :=
  match ev with
  | EvFile _ Skip => false
  | EvFile _ _ => true
  | _ => false
  end.

Definition isFileEvent (ev : Event) : bool :=
  match ev with
  | EvFile _ _ => true
  | _ => false
  end.

(** The actions a run took on images. *)
Definition workEvents (tr : list Event) : list Event :=
  filter (fun ev => isWork ev = true) tr.

(** An action that normalizes or extracts an image. *)
Definition isNormalizeOrExtract (ev : Event) : bool :=
  match ev with
  | EvFile _ (CreateTemp _) => true
  | EvFile _ (RunSips _) => true
  | EvFile _ (CallAPI _ _) => true
  | _ => false
  end.

(** Both maps of a state are allocated (not nil). *)
Definition allocated (p : Progress) : Prop :=
  is_Some (Completed p) /\ is_Some (Errors p).

(** What the checkpoint file holds after a run that loaded [p0] from it:
    the state of the last save that succeeded, [p0] if none did (a refused
    write leaves the file as it was). *)
Definition lastSaved (p0 : Progress) (tr : list Event) : Progress :=
  foldl (fun p ev =>
           match ev with
           | EvFile _ (SaveProgress p' (Ok _)) => p'
           | _ => p
           end) p0 tr.

(** ** The claims as predicates on runs *)

(** Idempotence as the specification words it: the Extraction Client
    succeeds on every call; the second run starts from the store the first
    one left; it normalizes and extracts nothing and leaves [completed] as
    it was. *)
Definition extractionAlwaysSucceeds (env : Env) : Prop :=
  forall mediaType encoded, exists log, parseReadingLog env mediaType encoded = Ok log.

Definition idempotentBatch (env : Env) (images : list string) (p0 : Progress) : Prop :=
  let p1 := lastSaved p0 (actions (runBatch env images p0 [])) in
  let r2 := runBatch env images p1 [] in
  (forall img, img ∈ images ->
     mapHas (Completed p1) (filepath_Base img) = true ->
     EvFile img Skip ∈ actions r2)
  /\ filter (fun ev => isNormalizeOrExtract ev = true) (actions r2) = []
  /\ Completed <$> memory r2 = Some (Completed p1).

(** Temp-file cleanup as the specification words it: whenever the loop
    turns to a file, no temporary file made for an earlier one is left. *)
Fixpoint cleanAtEachAttempt (tr : list Event) (live : list string) : bool :=
  match tr with
  | [] => true
  | EvFile _ (Attempt _ _ _) :: rest =>
      match live with
      | [] => cleanAtEachAttempt rest live
      | _ :: _ => false
      end
  | EvFile _ (CreateTemp p) :: rest => cleanAtEachAttempt rest (p :: live)
  | EvRemove p :: rest => cleanAtEachAttempt rest (filter (fun f => f <> p) live)
  | _ :: rest => cleanAtEachAttempt rest live
  end.

Definition tempCleanup (r : Final) : Prop :=
  cleanAtEachAttempt (actions r) [] = true /\ leftover r = [].

(** Save discipline: a mark is directly followed by a save... *)
Fixpoint marksSaved (tr : list Event) : bool :=
  match tr with
  | [] => true
  | EvFile _ (MarkFailure _ _) :: rest
  | EvFile _ (MarkSuccess _ _) :: rest =>
      match rest with
      | EvFile _ (SaveProgress _ _) :: _ => marksSaved rest
      | _ => false
      end
  | _ :: rest => marksSaved rest
  end.

(** ... and a save that fails is directly followed by its warning. *)
Fixpoint saveFailuresWarned (tr : list Event) : bool :=
  match tr with
  | [] => true
  | EvFile _ (SaveProgress _ (Err e)) :: rest =>
      match rest with
      | EvFile _ (WarnSave e') :: _ => String.eqb e e' && saveFailuresWarned rest
      | _ => false
      end
  | _ :: rest => saveFailuresWarned rest
  end.

Definition isSaveFailure (ev : Event) : bool :=
  match ev with
  | EvFile _ (SaveProgress _ (Err _)) => true
  | _ => false
  end.

Definition isWarnSave (ev : Event) : bool :=
  match ev with
  | EvFile _ (WarnSave _) => true
  | _ => false
  end.

(** The four conditions of the exit-status contract.  [loopEndsIn env st]:
    the directory was listed, it holds images, and the batch loop ran to
    its end, leaving [st]. *)
Definition loopEndsIn (env : Env) (st : RunState) : Prop :=
  exists images,
    findImages env "." = Ok images /\ images <> []
    /\ batchLoop env images (loadProgress env).1 (EvBanner :: (loadProgress env).2)
       = Running st.

Definition directoryUnreadable (env : Env) : Prop :=
  exists e, findImages env "." = Err e.

Definition noImagesFound (env : Env) : Prop :=
  findImages env "." = Ok [].

Definition nothingCompleted (env : Env) : Prop :=
  exists st, loopEndsIn env st /\ mapLen (Completed (progress st)) = 0%nat.

(** [writeCSV] reports that the file cannot be written. *)
Definition csvNotWritten (env : Env) : Prop :=
  exists st e, loopEndsIn env st
    /\ writeCSV env "reading_logs.csv" (mapRange (Completed (progress st))) = Err e.

(** The rows reached the buffer but the final flush to the file fails. *)
Definition csvLostAtFlush (env : Env) : Prop :=
  exists st e, loopEndsIn env st
    /\ writeCSV env "reading_logs.csv" (mapRange (Completed (progress st))) = Ok tt
    /\ csv_Flush env = Err e.

Definition exitOneConditions (env : Env) : Prop :=
  directoryUnreadable env \/ noImagesFound env
  \/ nothingCompleted env \/ csvNotWritten env.

(** ** Sample hosts and inputs *)

Definition floraDoc : json :=
  JObject
    [ ("full_name", JString "Flora Willoughby");
      ("grade", JString "Kinder");
      ("homeroom_teacher", JString "Alm");
      ("reading_entries",
       JArray
         [ JObject [("day", JString "Friday"); ("date", JString "1/30"); ("minutes", JInt 10)];
           JObject [("day", JString "Tuesday"); ("date", JString "2/3"); ("minutes", JInt 0)] ]) ].

Definition floraLog : ReadingLog :=
  mkReadingLog "Flora Willoughby" "Kinder" "Alm"
    [ mkReadingEntry "Friday" "1/30" 10; mkReadingEntry "Tuesday" "2/3" 0 ].

Definition apiAnswers : result (list ContentBlock) :=
  Ok [TextBlock "{...}" (JSONText floraDoc)].

(** A host with the given directory entries and checkpoint file, where
    [sips], the API and the checkpoint write behave as given and all else
    succeeds. *)
Definition sampleHost (entries : list DirEntry) (checkpoint : result Text)
    (sips : string * option string) (api : result (list ContentBlock))
    (write : result unit) : Env :=
  mkEnv (fun _ => Ok entries)
    (fun _ => checkpoint)
    (fun _ _ => write)
    (fun n => Ok ("/tmp/reading-log-" +:+ pretty n +:+ ".jpg"))
    (fun _ _ => sips)
    (fun _ => Ok "image bytes")
    (fun data => data)
    (fun _ _ => api)
    (fun _ => Ok tt)
    (fun _ => Ok tt)
    (Ok tt).

Definition noCheckpoint : result Text := Err "open .progress.json: no such file or directory".

Definition file (name : string) : DirEntry := mkDirEntry name false.

(** One PNG, everything succeeds. *)
Definition hostAllGood : Env :=
  sampleHost [file "a.png"] noCheckpoint ("", None) apiAnswers (Ok tt).

(** One PNG, the API answers, the checkpoint cannot be written. *)
Definition hostSaveRefused : Env :=
  sampleHost [file "a.png"] noCheckpoint ("", None) apiAnswers
    (Err "open .progress.json: permission denied").

(** A HEIC and a PNG, everything succeeds. *)
Definition hostHeicThenPng : Env :=
  sampleHost [file "a.heic"; file "b.png"] noCheckpoint ("", None) apiAnswers (Ok tt).

(** One HEIC that converts, but the API call fails. *)
Definition hostHeicApiDown : Env :=
  sampleHost [file "a.heic"] noCheckpoint ("", None) (Err "connection refused") (Ok tt).

(** One PNG, the API call fails and the checkpoint cannot be written. *)
Definition hostApiDownSaveRefused : Env :=
  sampleHost [file "a.png"] noCheckpoint ("", None) (Err "connection refused")
    (Err "write .progress.json: no space left on device").

(** One PNG, everything succeeds until the CSV rows, still in the
    writer's buffer, are flushed to a full disk. *)
Definition hostDiskFullAtFlush : Env :=
  mkEnv (os_ReadDir hostAllGood) (os_ReadFile hostAllGood) (os_WriteFile hostAllGood)
    (os_CreateTemp hostAllGood) (exec_sips hostAllGood) (io_ReadAll hostAllGood)
    (base64_EncodeToString hostAllGood) (messages_New hostAllGood)
    (os_Create hostAllGood) (csv_Write hostAllGood)
    (Err "write reading_logs.csv: no space left on device").

(** A checkpoint file whose [completed] is JSON null. *)
Definition nullCompleted : Text := JSONText (JObject [("completed", JNull)]).

Definition hostNullCompleted : Env :=
  sampleHost [file "a.png"] (Ok nullCompleted) ("", None) apiAnswers (Ok tt).

(** A checkpoint file whose [errors] is JSON null, and an API that is
    down. *)
Definition nullErrors : Text := JSONText (JObject [("errors", JNull)]).

Definition hostNullErrors : Env :=
  sampleHost [file "a.png"] (Ok nullErrors) ("", None) (Err "connection refused") (Ok tt).

(** A checkpoint with an earlier error for [b.png]; [a.png] is new. *)
Definition retryCheckpoint : Text :=
  JSONText
    (JObject
       [ ("completed", JObject [("c.png", floraDoc)]);
         ("errors", JObject [("b.png", JString "API call failed: timeout")]) ]).

Definition hostRetry : Env :=
  sampleHost [file "a.png"; file "b.png"; file "c.png"] (Ok retryCheckpoint)
    ("", None) apiAnswers (Ok tt).

(** A record whose minutes overflow [int] when added up. *)
Definition hugeLog : ReadingLog :=
  mkReadingLog "X" "1st" "Y"
    [ mkReadingEntry "Friday" "1/30" (2 ^ 62); mkReadingEntry "Saturday" "1/31" (2 ^ 62) ].

(** Two entries for one date. *)
Definition twiceLog : ReadingLog :=
  mkReadingLog "X" "1st" "Y"
    [ mkReadingEntry "Friday" "1/30" 15; mkReadingEntry "Friday" "1/30" 20;
      mkReadingEntry "Monday" "2/2" 0 ].

(** ** Invariants used in the proofs *)

(** An event of the loop concerns the image being processed, or is the
    removal of a temporary file. *)
Definition aboutImage (img : string) (ev : Event) : Prop :=
  match ev with
  | EvFile f _ => f = img
  | EvRemove _ => True
  | _ => False
  end.

Definition notSkip (ev : Event) : Prop :=
  match ev with
  | EvFile _ Skip => False
  | _ => True
  end.

(** Names marked as successful are in [completed] and not in [errors]. *)
Definition successesClean (st : RunState) : Prop :=
  forall f b log, EvFile f (MarkSuccess b log) ∈ trace st ->
    mapHas (Completed (progress st)) b = true
    /\ mapHas (Errors (progress st)) b = false.

(** A trace is settled when every mark in it is followed by a save and
    it does not end on a mark. *)
Definition settled (tr : list Event) : Prop := marksSaved (tr ++ [EvBanner]) = true.

(** Every temporary file that exists has its removal deferred. *)
Definition tempsDeferred (st : RunState) : Prop :=
  forall f, f ∈ tmpfiles st -> f ∈ deferred st.

(** * More of the program *)

(** ** The progress line *)

Fixpoint repeatString (s : string) (n : nat) : string :=
  match n with
  | O => ""
  | S n' => s +:+ repeatString s n'
  end.

(** [strings.Repeat(s, count)]: [None] is a panic, on a negative count
    or when the length of the result would overflow an [int]. *)
Definition strings_Repeat (s : string) (count : Z) : option string :=
  if count <? 0 then None
  else if int_max <? Z.of_nat (String.length s) * count then None
  else Some (repeatString s (Z.to_nat count)).

(** [a * b], [a - b] and [a / b] on Go ints: product and difference wrap,
    the quotient truncates towards zero, dividing by zero panics ([None]). *)
Definition int_mul (a b : Z) : Z := wrap_int (a * b).

Definition int_sub (a b : Z) : Z := wrap_int (a - b).

Definition int_div (a b : Z) : option Z :=
  if b =? 0 then None else Some (wrap_int (Z.quot a b)).

Definition barFull : string := "█".
Definition barEmpty : string := "░".

(** [renderBar]; [None] is a panic. *)
Definition renderBar (current total width : Z) : option string :=
  filled ← int_div (int_mul width current) total;
  full ← strings_Repeat barFull filled;
  rest ← strings_Repeat barEmpty (int_sub width filled);
  Some (full +:+ rest).

(** ** Reading a listing *)

(** An entry [findImages] keeps: not a directory, extension in the table. *)
Definition isImageEntry (e : DirEntry) : bool :=
  negb (IsDir e) && imageExts (strings_ToLower (filepath_Ext (Name e))).

(** A name as a directory listing gives it: not empty, no separator. *)
Definition plainName (name : string) : Prop :=
  name <> "" /\ Forall (fun c => isPathSeparator c = false) (list_ascii_of_string name).

(** The four media types the API is sent. *)
Definition knownMediaTypes : list string :=
  ["image/jpeg"; "image/png"; "image/gif"; "image/webp"].

(** [env] with another outcome for the writes of the checkpoint file. *)
Definition withWriteFile (env : Env) (w : string -> Progress -> result unit) : Env :=
  mkEnv (os_ReadDir env) (os_ReadFile env) w (os_CreateTemp env) (exec_sips env)
    (io_ReadAll env) (base64_EncodeToString env) (messages_New env)
    (os_Create env) (csv_Write env) (csv_Flush env).

(** The minutes a date column stands for: those of the first entry with
    the date, 0 when there is none. *)
Definition columnMinutes (entries : list ReadingEntry) (date : string) : Z :=
  match firstWithDate entries date with
  | Some e => Minutes e
  | None => 0
  end.

(** ** Counting the events of a run *)

Definition countEv (f : Event -> bool) (tr : list Event) : nat :=
  length (List.filter f tr).

Definition isSkip (ev : Event) : bool :=
  match ev with
  | EvFile _ Skip => true
  | _ => false
  end.

Definition isSuccessMark (ev : Event) : bool :=
  match ev with
  | EvFile _ (MarkSuccess _ _) => true
  | _ => false
  end.

Definition isFailureMark (ev : Event) : bool :=
  match ev with
  | EvFile _ (MarkFailure _ _) => true
  | _ => false
  end.

Definition isAttempt (img : string) (ev : Event) : bool :=
  match ev with
  | EvFile f (Attempt _ _ _) => String.eqb f img
  | _ => false
  end.

Definition isAPICall (img : string) (ev : Event) : bool :=
  match ev with
  | EvFile f (CallAPI _ _) => String.eqb f img
  | _ => false
  end.

(** An action on a temporary file: creating it, converting into it,
    removing it. *)
Definition isTempEvent (ev : Event) : bool :=
  match ev with
  | EvFile _ (CreateTemp _) => true
  | EvFile _ (RunSips _) => true
  | EvRemove _ => true
  | _ => false
  end.

(** No name is both completed and in error. *)
Definition disjointMarks (p : Progress) : Prop :=
  forall k, ~ (mapHas (Completed p) k = true /\ mapHas (Errors p) k = true).

(** The counters of the loop agree with the marks in the trace. *)
Definition tallied (st : RunState) : Prop :=
  succeeded st = countEv isSuccessMark (trace st)
  /\ failed st = countEv isFailureMark (trace st).

(** An event that shows how a write of the checkpoint file went. *)
Definition showsWrite (ev : Event) : bool :=
  match ev with
  | EvFile _ (SaveProgress _ _) => true
  | EvFile _ (WarnSave _) => true
  | _ => false
  end.

Definition besidesWrites (tr : list Event) : list Event :=
  List.filter (fun ev => negb (showsWrite ev)) tr.

(** Two run states that differ at most in how the writes of the
    checkpoint file went. *)
Definition sameButWrites (st1 st2 : RunState) : Prop :=
  progress st1 = progress st2 /\ succeeded st1 = succeeded st2
  /\ failed st1 = failed st2 /\ deferred st1 = deferred st2
  /\ tmpfiles st1 = tmpfiles st2 /\ ncreated st1 = ncreated st2
  /\ besidesWrites (trace st1) = besidesWrites (trace st2).

Definition sameFlow (f1 f2 : Flow) : Prop :=
  match f1, f2 with
  | Running st1, Running st2 => sameButWrites st1 st2
  | Panic st1 m1, Panic st2 m2 => sameButWrites st1 st2 /\ m1 = m2
  | _, _ => False
  end.

(** A listing with a sub-directory, a text file and two images. *)
Definition sampleListing : list DirEntry :=
  [ mkDirEntry "a.HEIC" false; mkDirEntry "old.png" true;
    mkDirEntry "notes.txt" false; mkDirEntry "b.png" false ].

Definition hostListing : Env :=
  sampleHost sampleListing noCheckpoint ("", None) apiAnswers (Ok tt).

(** A form filled in for three of the seven days. *)
Definition weekLog : ReadingLog :=
  mkReadingLog "X" "1st" "Y"
    [ mkReadingEntry "Friday" "1/30" 10; mkReadingEntry "Sunday" "2/1" 25;
      mkReadingEntry "Thursday" "2/5" 0 ].

(** ** Runs in which every step succeeds *)

(** The checkpoint file can be written. *)
Definition savesSucceed (env : Env) : Prop :=
  forall p, os_WriteFile env progressFile p = Ok tt.

(** Normalization succeeds: [os.CreateTemp] makes a file, which carries
    the [.jpg] extension of its pattern [reading-log-*.jpg], and [sips]
    converts into it. *)
Definition normalizationSucceeds (env : Env) : Prop :=
  (forall n, exists jpgPath,
     os_CreateTemp env n = Ok jpgPath
     /\ strings_ToLower (filepath_Ext jpgPath) = ".jpg")
  /\ forall heicPath jpgPath, (exec_sips env heicPath jpgPath).2 = None.

(** Every file can be read. *)
Definition readsSucceed (env : Env) : Prop :=
  forall path, exists data, io_ReadAll env path = Ok data.

(** ** What it is to process an image *)

(** The loop took [img] through normalization, read and extraction,
    all of which succeeded, marked it as successful with the record
    extracted, and the run ends with that record under its base name
    and no error for it.  [evs] is what the run did, [p] the state it
    ends with. *)
Definition succeededOn (env : Env) (img : string) (evs : list Event) (p : Progress)
  : Prop :=
  exists path mediaType encoded log,
    ((isHEIC img = false /\ path = img)
     \/ (isHEIC img = true /\ EvFile img (CreateTemp path) ∈ evs
         /\ EvFile img (RunSips path) ∈ evs))
    /\ EvFile img (ReadImage path) ∈ evs
    /\ encodeImage env path = Ok (mediaType, encoded)
    /\ EvFile img (CallAPI mediaType encoded) ∈ evs
    /\ parseReadingLog env mediaType encoded = Ok log
    /\ EvFile img (MarkSuccess (filepath_Base img) log) ∈ evs
    /\ EvFile img (PrintResult log) ∈ evs
    /\ mapGet (Completed p) (filepath_Base img) = Some log
    /\ mapHas (Errors p) (filepath_Base img) = false.

(** The loop took [img] as far as the step that failed (normalization,
    read or extraction), printed the error of that step and marked the
    image as failed with it, and the run ends with that error under its
    base name and no record for it. *)
Definition failedOn (env : Env) (img : string) (evs : list Event) (p : Progress)
  : Prop :=
  exists msg,
    ((isHEIC img = true /\ exists st, (convertHEICtoJPEG env img st).2 = Err msg)
     \/ (exists path,
           EvFile img (ReadImage path) ∈ evs /\ encodeImage env path = Err msg)
     \/ (exists path mediaType encoded,
           EvFile img (ReadImage path) ∈ evs
           /\ encodeImage env path = Ok (mediaType, encoded)
           /\ EvFile img (CallAPI mediaType encoded) ∈ evs
           /\ parseReadingLog env mediaType encoded = Err msg))
    /\ EvFile img (PrintError msg) ∈ evs
    /\ EvFile img (MarkFailure (filepath_Base img) msg) ∈ evs
    /\ mapGet (Errors p) (filepath_Base img) = Some msg
    /\ mapHas (Completed p) (filepath_Base img) = false.

(** [img] was attempted: the loop printed its progress line and took it
    to one of the two outcomes. *)
Definition attempted (env : Env) (img : string) (evs : list Event) (p : Progress)
  : Prop :=
  (exists c t s, EvFile img (Attempt c t s) ∈ evs)
  /\ (succeededOn env img evs p \/ failedOn env img evs p).

(** ** Saving what was marked *)

(** The state a trace leads to from [p]: each mark applied in turn. *)
Definition applyMark (p : Progress) (ev : Event) : Progress :=
  match ev with
  | EvFile _ (MarkFailure baseName msg) => default p (markFailure p baseName msg)
  | EvFile _ (MarkSuccess baseName log) => default p (markSuccess p baseName log)
  | _ => p
  end.

Definition stateAfter (p : Progress) (tr : list Event) : Progress :=
  foldl applyMark p tr.

(** From state [p] on, every mark goes through and is directly followed
    by a save, and every save is handed the state as the marks before it
    left it. *)
Fixpoint savedAsMarked (p : Progress) (tr : list Event) : Prop :=
  match tr with
  | [] => True
  | EvFile _ (MarkFailure baseName msg) :: rest =>
      match markFailure p baseName msg, rest with
      | Some p', EvFile _ (SaveProgress _ _) :: _ => savedAsMarked p' rest
      | _, _ => False
      end
  | EvFile _ (MarkSuccess baseName log) :: rest =>
      match markSuccess p baseName log, rest with
      | Some p', EvFile _ (SaveProgress _ _) :: _ => savedAsMarked p' rest
      | _, _ => False
      end
  | EvFile _ (SaveProgress q _) :: rest => q = p /\ savedAsMarked p rest
  | _ :: rest => savedAsMarked p rest
  end.

(** A checkpoint whose [completed] is null, with an earlier error for
    [b.png]; [a.png] is new. *)
Definition nullCompletedRetry : Text :=
  JSONText
    (JObject
       [ ("completed", JNull);
         ("errors", JObject [("b.png", JString "API call failed: timeout")]) ]).

Definition hostNullCompletedRetry : Env :=
  sampleHost [file "a.png"; file "b.png"] (Ok nullCompletedRetry)
    ("", None) apiAnswers (Ok tt).

(** * Export: proofs *)

Lemma wrap_int_mod (z : Z) : wrap_int z mod 2 ^ 64 = z mod 2 ^ 64.
Proof.
  unfold wrap_int.
  rewrite Zminus_mod, Zmod_mod, <- Zminus_mod.
  f_equal. lia.
Qed.

Lemma wrap_int_idem_add (a b : Z) : wrap_int (wrap_int a + b) = wrap_int (a + b).
Proof.
  unfold wrap_int at 1 3.
  f_equal.
  replace (wrap_int a + b + 2 ^ 63) with (wrap_int a + (b + 2 ^ 63)) by lia.
  replace (a + b + 2 ^ 63) with (a + (b + 2 ^ 63)) by lia.
  rewrite (Zplus_mod (wrap_int a)), wrap_int_mod, <- Zplus_mod.
  reflexivity.
Qed.

Lemma wrap_int_small (z : Z) : fits_int z -> wrap_int z = z.
Proof.
  unfold fits_int, int_min, int_max, wrap_int. intros Hz.
  rewrite Z.mod_small; lia.
Qed.

Lemma wrap_int_range (z : Z) : fits_int (wrap_int z).
Proof.
  unfold fits_int, int_min, int_max, wrap_int.
  pose proof (Z.mod_pos_bound (z + 2 ^ 63) (2 ^ 64)). lia.
Qed.

Lemma fold_total_from (entries : list ReadingEntry) (acc : Z) :
  wrap_int (fold_left (fun total e => int_add total (Minutes e)) entries acc)
  = wrap_int (acc + sumMinutes entries).
Proof.
  revert acc. induction entries as [|e es IH]; intros acc; simpl.
  - f_equal. lia.
  - rewrite IH. unfold int_add. rewrite wrap_int_idem_add. f_equal. lia.
Qed.

Lemma fold_total_in_int (entries : list ReadingEntry) (acc : Z) :
  fits_int acc ->
  fits_int (fold_left (fun total e => int_add total (Minutes e)) entries acc).
Proof.
  revert acc. induction entries as [|e es IH]; intros acc Hacc; simpl.
  - exact Hacc.
  - apply IH. apply wrap_int_range.
Qed.

Lemma totalMinutes_wrap (entries : list ReadingEntry) :
  totalMinutes entries = wrap_int (sumMinutes entries).
Proof.
  unfold totalMinutes.
  rewrite <- (wrap_int_small (fold_left _ entries 0)).
  - apply (fold_total_from entries 0).
  - apply fold_total_in_int. unfold fits_int, int_min, int_max. lia.
Qed.

Lemma formatMinutes_first (entries : list ReadingEntry) (date : string) :
  formatMinutes entries date =
  match firstWithDate entries date with
  | Some e => if 0 <? Minutes e then Sprintf_d (Minutes e) else ""
  | None => ""
  end.
Proof.
  unfold firstWithDate.
  induction entries as [|e es IH]; simpl; [reflexivity|].
  destruct (String.eqb_spec (Date e) date) as [Heq|Hne].
  - rewrite bool_decide_eq_true_2 by exact Heq. reflexivity.
  - rewrite bool_decide_eq_false_2 by exact Hne. exact IH.
Qed.

Lemma formatMinutes_skip (pre : list ReadingEntry) (rest : list ReadingEntry)
    (date : string) :
  Forall (fun x => Date x <> date) pre ->
  formatMinutes (pre ++ rest) date = formatMinutes rest date.
Proof.
  induction 1 as [|x pre Hx _ IH]; simpl; [reflexivity|].
  destruct (String.eqb_spec (Date x) date); [contradiction|exact IH].
Qed.

Lemma dateCell_formatMinutes (log : ReadingLog) (i : nat) (d : string) :
  dateColumns !! i = Some d ->
  dateCell log i = Some (formatMinutes (ReadingEntries log) d).
Proof.
  unfold dateCell, dateColumns, csvRow. intros Hd.
  do 7 (destruct i as [|i]; [simpl in Hd; inversion Hd; reflexivity|]).
  simpl in Hd. discriminate.
Qed.

Lemma totalCell_wraps (log : ReadingLog) :
  totalCell log = Some (Sprintf_d (wrap_int (sumMinutes (ReadingEntries log)))).
Proof. unfold totalCell, csvRow. simpl. by rewrite totalMinutes_wrap. Qed.

(** C6 (as the specification words it, refuted): two entries of 2^62
    minutes add up to 2^63, which no [int] holds; the Total Minutes cell
    shows the wrapped value. *)
Lemma total_wraps_beyond_int :
  totalCell hugeLog = Some "-9223372036854775808"
  /\ Sprintf_d (sumMinutes (ReadingEntries hugeLog)) = "9223372036854775808"
  /\ totalCell hugeLog <> Some (Sprintf_d (sumMinutes (ReadingEntries hugeLog))).
Proof.
  split; [vm_compute; reflexivity|]. split; [vm_compute; reflexivity|].
  vm_compute. discriminate.
Qed.

(** C6 (amended): whenever the sum of the minutes of all entries of a
    record (whatever their dates, each occurrence counted) lies within
    Go's [int], the Total Minutes cell is the decimal of that sum. *)
Theorem export_total (log : ReadingLog) :
  fits_int (sumMinutes (ReadingEntries log)) ->
  totalCell log = Some (Sprintf_d (sumMinutes (ReadingEntries log))).
Proof.
  intros Hsum. rewrite totalCell_wraps. by rewrite wrap_int_small.
Qed.

(** [export_total] on a record with two entries for one date. *)
Lemma export_total_witness :
  fits_int (sumMinutes (ReadingEntries twiceLog))
  /\ totalCell twiceLog = Some "35".
Proof.
  assert (fits_int (sumMinutes (ReadingEntries twiceLog))) as Hsum
    by (unfold fits_int, int_min, int_max; simpl; lia).
  split; [exact Hsum|].
  exact (export_total twiceLog Hsum).
Defined.

(** C7: the cell of each of the seven date columns is decided by the
    first entry of the record carrying the column's date: its minutes in
    decimal when they are positive, the empty string when they are zero,
    and the empty string when no entry carries the date; entries after
    the first one with that date play no role. *)
Theorem export_cell (log : ReadingLog) (i : nat) (d : string) :
  dateColumns !! i = Some d ->
  dateCell log i = Some (formatMinutes (ReadingEntries log) d)
  /\ (forall e, firstWithDate (ReadingEntries log) d = Some e -> 0 < Minutes e ->
        dateCell log i = Some (Sprintf_d (Minutes e)))
  /\ (forall e, firstWithDate (ReadingEntries log) d = Some e -> Minutes e = 0 ->
        dateCell log i = Some "")
  /\ (firstWithDate (ReadingEntries log) d = None -> dateCell log i = Some "")
  /\ (forall pre e rest,
        ReadingEntries log = (pre ++ e :: rest)%list ->
        Forall (fun x => Date x <> d) pre -> Date e = d ->
        formatMinutes (ReadingEntries log) d = formatMinutes [e] d).
Proof.
  intros Hd. rewrite (dateCell_formatMinutes log i d Hd).
  split; [done|]. repeat split.
  - intros e He Hpos. apply Z.ltb_lt in Hpos. by rewrite formatMinutes_first, He, Hpos.
  - intros e He Hzero. by rewrite formatMinutes_first, He, Hzero.
  - intros Hnone. by rewrite formatMinutes_first, Hnone.
  - intros pre e rest Hsplit Hpre He. rewrite Hsplit, formatMinutes_skip by done.
    simpl. by rewrite (proj2 (String.eqb_eq _ _) He).
Qed.

(** [export_cell] on a record with two entries for 1/30, a zero entry
    for 2/2 and no entry for 2/5. *)
Lemma export_cell_witness :
  dateColumns !! 0%nat = Some "1/30"
  /\ dateCell twiceLog 0 = Some "15"
  /\ dateColumns !! 3%nat = Some "2/2"
  /\ dateCell twiceLog 3 = Some ""
  /\ dateColumns !! 6%nat = Some "2/5"
  /\ dateCell twiceLog 6 = Some "".
Proof.
  split; [reflexivity|]. split.
  { apply (proj1 (proj2 (export_cell twiceLog 0 "1/30" eq_refl))
             (mkReadingEntry "Friday" "1/30" 15)); [reflexivity|simpl; lia]. }
  split; [reflexivity|]. split.
  { apply (proj1 (proj2 (proj2 (export_cell twiceLog 3 "2/2" eq_refl)))
             (mkReadingEntry "Monday" "2/2" 0)); reflexivity. }
  split; [reflexivity|].
  apply (proj1 (proj2 (proj2 (proj2 (export_cell twiceLog 6 "2/5" eq_refl))))).
  reflexivity.
Defined.

(** * The checkpoint store: proofs *)

Lemma decodeMembers_inv {A : Type} (P : A -> Prop)
    (f : A -> string * json -> option A) (members : list (string * json)) :
  (forall a kv a', kv ∈ members -> P a -> f a kv = Some a' -> P a') ->
  forall cur r, P cur -> decodeMembers f cur members = Some r -> P r.
Proof.
  unfold decodeMembers. intros Hstep cur r Hcur.
  assert (forall acc : option A,
            (forall a, acc = Some a -> P a) ->
            foldl (fun acc kv => acc ≫= (fun a => f a kv)) acc members = Some r -> P r)
    as Hgen.
  { induction members as [|kv rest IH]; intros acc Hacc; simpl.
    - intros ->. by apply Hacc.
    - apply IH.
      + intros a kv' a' Hin. apply Hstep. by right.
      + intros a' Ha'. destruct acc as [a|]; [|done]. simpl in Ha'.
        apply (Hstep a kv a'); [left|by apply Hacc|done]. }
  apply Hgen. intros a [= <-]. exact Hcur.
Qed.


(** With both maps allocated no mark can panic. *)
Lemma marks_defined (p : Progress) (baseName msg : string) (log : ReadingLog) :
  allocated p ->
  (exists p', markFailure p baseName msg = Some p' /\ allocated p')
  /\ (exists p', markSuccess p baseName log = Some p' /\ allocated p').
Proof.
  intros [[c Hc] [e He]]. unfold markFailure, markSuccess. rewrite Hc, He. simpl.
  split; eexists; (split; [reflexivity|]); split; by eexists.
Qed.

(** C9 (as the specification words it, refuted): a checkpoint file that
    is absent yields the fresh state without any warning. *)
Lemma load_absent_is_silent :
  ~ (forall env : Env,
       (exists e, os_ReadFile env progressFile = Err e)
       \/ (exists data, os_ReadFile env progressFile = Ok data
                        /\ unmarshalProgress data freshProgress = None) ->
       (loadProgress env).1 = freshProgress /\ EvWarnParse ∈ (loadProgress env).2).
Proof.
  intros H.
  destruct (H hostAllGood) as [_ Hwarn].
  - left. eexists. reflexivity.
  - vm_compute in Hwarn. by apply elem_of_nil in Hwarn.
Qed.

(** C9 (amended): [loadProgress] always returns a state.  When the file
    cannot be read the state is fresh and nothing is printed; when its
    content does not decode the state is fresh and the warning is printed;
    otherwise the decoded state is returned and nothing is printed. *)
Theorem load_never_fails (env : Env) :
  (forall e, os_ReadFile env progressFile = Err e ->
     loadProgress env = (freshProgress, []))
  /\ (forall data, os_ReadFile env progressFile = Ok data ->
        unmarshalProgress data freshProgress = None ->
        loadProgress env = (freshProgress, [EvWarnParse]))
  /\ (forall data p, os_ReadFile env progressFile = Ok data ->
        unmarshalProgress data freshProgress = Some p ->
        loadProgress env = (p, [])).
Proof.
  unfold loadProgress. repeat split.
  - intros e He. by rewrite He.
  - intros data Hd Hu. by rewrite Hd, Hu.
  - intros data p Hd Hu. by rewrite Hd, Hu.
Qed.

(** The three cases of [load_never_fails] on sample hosts: no file, a
    file that is not JSON, a file that decodes. *)
Lemma load_never_fails_witness :
  loadProgress hostAllGood = (freshProgress, [])
  /\ loadProgress (sampleHost [] (Ok NotJSON) ("", None) apiAnswers (Ok tt))
     = (freshProgress, [EvWarnParse])
  /\ (loadProgress hostNullCompleted).2 = [].
Proof.
  split; [|split].
  - apply (proj1 (load_never_fails hostAllGood)
             "open .progress.json: no such file or directory").
    reflexivity.
  - apply (proj1 (proj2 (load_never_fails
             (sampleHost [] (Ok NotJSON) ("", None) apiAnswers (Ok tt)))) NotJSON);
      reflexivity.
  - rewrite (proj2 (proj2 (load_never_fails hostNullCompleted)) nullCompleted
               (mkProgress None (Some ∅))); reflexivity.
Defined.

(** C8: marking a file as successful, on an allocated [completed] map,
    goes through, puts the record under the name in [completed] and leaves
    no entry for the name in [errors]; the name is then not in both. *)
Theorem success_overwrites_error (p : Progress) (c : gmap string ReadingLog)
    (baseName : string) (log : ReadingLog) :
  Completed p = Some c ->
  exists p',
    markSuccess p baseName log = Some p'
    /\ Completed p' = Some (<[baseName := log]> c)
    /\ Errors p' = mapDelete (Errors p) baseName
    /\ mapGet (Completed p') baseName = Some log
    /\ mapHas (Errors p') baseName = false
    /\ ~ (mapHas (Completed p') baseName = true /\ mapHas (Errors p') baseName = true).
Proof.
  intros Hc. unfold markSuccess. rewrite Hc. simpl.
  eexists. split; [reflexivity|]. simpl.
  assert (mapHas (mapDelete (Errors p) baseName) baseName = false) as Hno.
  { destruct (Errors p) as [e|]; simpl; [|done].
    apply bool_decide_eq_false. rewrite lookup_delete_eq. by intros [? ?]. }
  repeat split; try done.
  - apply lookup_insert_eq.
  - intros [_ H]. congruence.
Qed.

(** [success_overwrites_error] on a state where [a.png] has an error. *)
Lemma success_overwrites_error_witness :
  Completed (mkProgress (Some ∅) (Some {["a.png" := "API call failed: timeout"]}))
  = Some ∅
  /\ exists p',
       markSuccess (mkProgress (Some ∅) (Some {["a.png" := "API call failed: timeout"]}))
         "a.png" floraLog = Some p'
       /\ mapHas (Errors p') "a.png" = false.
Proof.
  split; [reflexivity|].
  destruct (success_overwrites_error
              (mkProgress (Some ∅) (Some {["a.png" := "API call failed: timeout"]}))
              ∅ "a.png" floraLog eq_refl) as (p' & Hm & _ & _ & _ & Hno & _).
  exists p'. split; assumption.
Defined.

Lemma mapHas_insert {V} (g : gmap string V) k k' v :
  mapHas (Some (<[k := v]> g)) k' = true <-> k' = k \/ mapHas (Some g) k' = true.
Proof.
  unfold mapHas. rewrite !bool_decide_eq_true.
  destruct (decide (k = k')) as [->|Hne].
  - rewrite lookup_insert_eq. split; eauto.
  - rewrite lookup_insert_ne by done. split; [eauto|]. by intros [->|].
Qed.

Section Loop.
Context (env : Env) (total skipped : nat).

Ltac body_cases :=
  unfold processImage, convertHEICtoJPEG, failImage, completeImage,
    markFailure, markSuccess, mapAssign in *;
  repeat (case_match; simplify_eq/=).

Lemma processImage_skip i img st :
  mapHas (Completed (progress st)) (filepath_Base img) = true ->
  processImage env total skipped i img st = Running (emit st (EvFile img Skip)).
Proof. intros H. unfold processImage. by rewrite H. Qed.

Lemma processImage_trace i img st :
  exists evs,
    trace (stateOf (processImage env total skipped i img st)) = (trace st ++ evs)%list
    /\ Forall (aboutImage img) evs
    /\ (mapHas (Completed (progress st)) (filepath_Base img) = true ->
        evs = [EvFile img Skip])
    /\ (mapHas (Completed (progress st)) (filepath_Base img) = false ->
        Forall notSkip evs
        /\ exists rest, evs = EvFile img (Attempt (i + 1) total skipped) :: rest).
Proof.
  body_cases.
  all: eexists; (split; [rewrite <- ?app_assoc; simpl; reflexivity|]).
  all: split; [repeat constructor|].
  all: split; [done|]; try done.
  all: intros _; split; [repeat constructor|eauto].
Qed.

Lemma processImage_completed_mono i img st k :
  mapHas (Completed (progress st)) k = true ->
  mapHas (Completed (progress (stateOf (processImage env total skipped i img st)))) k = true.
Proof.
  intros Hk. body_cases; try done.
  all: apply mapHas_insert; by right.
Qed.

Lemma processImage_completed_new i img st k :
  mapHas (Completed (progress (stateOf (processImage env total skipped i img st)))) k = true ->
  mapHas (Completed (progress st)) k = true \/ k = filepath_Base img.
Proof.
  body_cases; eauto.
  all: intros [->|Hk]%mapHas_insert; eauto.
Qed.

Lemma rangeImages_trace images : forall i st,
  exists evs,
    trace (stateOf (rangeImages env total skipped i images st)) = (trace st ++ evs)%list
    /\ Forall (fun ev => exists img, img ∈ images /\ aboutImage img ev) evs.
Proof.
  induction images as [|img rest IH]; intros i st; simpl.
  - exists []. by rewrite app_nil_r.
  - destruct (processImage_trace i img st) as (evs1 & Htr1 & Hall1 & _).
    destruct (processImage env total skipped i img st) as [st1|st1 msg]; simpl in *.
    + destruct (IH (S i) st1) as (evs2 & Htr2 & Hall2).
      exists (evs1 ++ evs2)%list. split.
      * by rewrite Htr2, Htr1, app_assoc.
      * apply Forall_app. split.
        -- eapply Forall_impl; [exact Hall1|]. intros ev Hev. exists img. split; [left|done].
        -- eapply Forall_impl; [exact Hall2|].
           intros ev (f & Hf & Hev). exists f. split; [by right|done].
    + exists evs1. split; [done|].
      eapply Forall_impl; [exact Hall1|]. intros ev Hev. exists img. split; [left|done].
Qed.

Lemma rangeImages_completed_mono images : forall i st k,
  mapHas (Completed (progress st)) k = true ->
  mapHas (Completed (progress (stateOf (rangeImages env total skipped i images st)))) k = true.
Proof.
  induction images as [|img rest IH]; intros i st k Hk; simpl; [done|].
  pose proof (processImage_completed_mono i img st k Hk) as H1.
  destruct (processImage env total skipped i img st) as [st1|st1 msg]; simpl in *; eauto.
Qed.

(** The only thing the loop does with an image whose base name is
    completed when it starts is to pass it over. *)
Lemma rangeImages_skips images : forall i st evs,
  trace (stateOf (rangeImages env total skipped i images st)) = (trace st ++ evs)%list ->
  forall img a, EvFile img a ∈ evs ->
  mapHas (Completed (progress st)) (filepath_Base img) = true ->
  a = Skip.
Proof.
  induction images as [|f rest IH]; intros i st evs Htr img a Hin Hdone; simpl in *.
  - apply (f_equal length) in Htr. rewrite length_app in Htr.
    destruct evs; [by apply elem_of_nil in Hin|simpl in Htr; lia].
  - destruct (processImage_trace i f st) as (evs1 & Htr1 & Hall1 & Hskip & _).
    pose proof (processImage_completed_mono i f st _ Hdone) as Hmono.
    assert (EvFile img a ∈ evs1 -> a = Skip) as Hhead.
    { intros Hin1. rewrite Forall_forall in Hall1. pose proof (Hall1 _ Hin1) as Heq.
      simpl in Heq. subst f. rewrite (Hskip Hdone) in Hin1.
      apply list_elem_of_singleton in Hin1. congruence. }
    destruct (processImage env total skipped i f st) as [st1|st1 msg]; simpl in *.
    + destruct (rangeImages_trace rest (S i) st1) as (evs2 & Htr2 & _).
      rewrite Htr2, Htr1, <- app_assoc in Htr. apply app_inv_head in Htr. subst evs.
      apply elem_of_app in Hin as [Hin|Hin]; [by apply Hhead|].
      by apply (IH (S i) st1 evs2 Htr2 img a Hin).
    + rewrite Htr1 in Htr. apply app_inv_head in Htr. subst evs. by apply Hhead.
Qed.

(** With distinct base names, an image whose base name is not completed
    when the loop starts is never passed over. *)
Lemma rangeImages_never_skips images : forall i st evs,
  NoDup (filepath_Base <$> images) ->
  trace (stateOf (rangeImages env total skipped i images st)) = (trace st ++ evs)%list ->
  forall img,
  mapHas (Completed (progress st)) (filepath_Base img) = false ->
  EvFile img Skip ∉ evs.
Proof.
  induction images as [|f rest IH]; intros i st evs Hnd Htr img Hnot Hin; simpl in Htr.
  - apply (f_equal length) in Htr. rewrite length_app in Htr.
    destruct evs; [by apply elem_of_nil in Hin|simpl in Htr; lia].
  - rewrite fmap_cons in Hnd. apply NoDup_cons in Hnd as [Hf Hnd].
    destruct (processImage_trace i f st) as (evs1 & Htr1 & Hall1 & _ & Hwork).
    pose proof (processImage_completed_new i f st (filepath_Base img)) as Hnew.
    assert (EvFile img Skip ∉ evs1) as Hhead.
    { intros Hin1. rewrite Forall_forall in Hall1. pose proof (Hall1 _ Hin1) as Heq.
      simpl in Heq. subst f. destruct (Hwork Hnot) as [Hns _].
      rewrite Forall_forall in Hns. by apply Hns in Hin1. }
    destruct (processImage env total skipped i f st) as [st1|st1 msg]; simpl in *.
    + destruct (rangeImages_trace rest (S i) st1) as (evs2 & Htr2 & Hall2).
      rewrite Htr2, Htr1, <- app_assoc in Htr. apply app_inv_head in Htr. subst evs.
      apply elem_of_app in Hin as [Hin|Hin]; [done|].
      rewrite Forall_forall in Hall2. destruct (Hall2 _ Hin) as (f' & Hf' & Habout).
      simpl in Habout. subst f'.
      apply (IH (S i) st1 evs2 Hnd Htr2 img); [|done].
      destruct (mapHas (Completed (progress st1)) (filepath_Base img)) eqn:E; [|done].
      destruct (Hnew eq_refl) as [?|Heq]; [congruence|].
      exfalso. apply Hf. rewrite <- Heq. by apply list_elem_of_fmap_2.
    + rewrite Htr1 in Htr. apply app_inv_head in Htr. by subst evs.
Qed.

(** ... and is attempted by a loop that runs to its end. *)
Lemma rangeImages_attempts images : forall i st st',
  rangeImages env total skipped i images st = Running st' ->
  NoDup (filepath_Base <$> images) ->
  forall img, img ∈ images ->
  mapHas (Completed (progress st)) (filepath_Base img) = false ->
  exists c, EvFile img (Attempt c total skipped) ∈ trace st'.
Proof.
  induction images as [|f rest IH]; intros i st st' Hrun Hnd img Hin Hnot.
  - by apply elem_of_nil in Hin.
  - simpl in Hrun. rewrite fmap_cons in Hnd. apply NoDup_cons in Hnd as [Hf Hnd].
    destruct (processImage_trace i f st) as (evs1 & Htr1 & _ & _ & Hfirst).
    pose proof (processImage_completed_new i f st (filepath_Base img)) as Hnew.
    destruct (processImage env total skipped i f st) as [st1|st1 msg]; [|done].
    simpl in *.
    destruct (rangeImages_trace rest (S i) st1) as (evs2 & Htr2 & _).
    rewrite Hrun in Htr2. simpl in Htr2.
    apply elem_of_cons in Hin as [->|Hin].
    + destruct (Hfirst Hnot) as (_ & tl & ->). exists (i + 1)%nat.
      rewrite Htr2, Htr1. apply elem_of_app. left. apply elem_of_app. right. left.
    + apply (IH (S i) st1 st' Hrun Hnd img Hin).
      destruct (mapHas (Completed (progress st1)) (filepath_Base img)) eqn:E; [|done].
      destruct (Hnew eq_refl) as [?|Heq]; [congruence|].
      exfalso. apply Hf. rewrite <- Heq. by apply list_elem_of_fmap_2.
Qed.

(** When every image is completed the loop only passes them over. *)
Lemma rangeImages_all_skipped images : forall i st,
  (forall img, img ∈ images ->
     mapHas (Completed (progress st)) (filepath_Base img) = true) ->
  rangeImages env total skipped i images st
  = Running (foldl emit st ((fun img => EvFile img Skip) <$> images)).
Proof.
  induction images as [|f rest IH]; intros i st Hall; simpl; [done|].
  rewrite processImage_skip by (apply Hall; left).
  apply IH. intros img Hin. simpl. apply Hall. by right.
Qed.

End Loop.

Lemma foldl_emit st evs :
  trace (foldl emit st evs) = (trace st ++ evs)%list
  /\ progress (foldl emit st evs) = progress st
  /\ deferred (foldl emit st evs) = deferred st
  /\ tmpfiles (foldl emit st evs) = tmpfiles st.
Proof.
  revert st. induction evs as [|ev evs IH]; intros st; simpl.
  - by rewrite app_nil_r.
  - destruct (IH (emit st ev)) as (-> & -> & -> & ->). simpl.
    by rewrite <- app_assoc.
Qed.

(** * Whole runs: proofs *)

Lemma runDeferred_spec st :
  trace (runDeferred st) = (trace st ++ (EvRemove <$> deferred st))%list
  /\ progress (runDeferred st) = progress st
  /\ tmpfiles (runDeferred st) = filter (fun f => f ∉ deferred st) (tmpfiles st).
Proof.
  unfold runDeferred. generalize (deferred st) as l. intros l. revert st.
  induction l as [|x l IH]; intros st; simpl.
  - rewrite app_nil_r. repeat split; try done.
    induction (tmpfiles st) as [|f fs IHf]; [done|].
    rewrite filter_cons_True by apply not_elem_of_nil. by rewrite <- IHf.
  - destruct (IH (osRemove st x)) as (-> & -> & ->). simpl.
    rewrite <- app_assoc. repeat split; try done.
    induction (tmpfiles st) as [|f fs IHf]; [done|].
    destruct (decide (f = x)) as [->|Hne].
    + rewrite (filter_cons_False (fun f => f <> x)) by (intros ?; done).
      rewrite (filter_cons_False (fun f => f ∉ x :: l)) by (intros Hn; apply Hn; left).
      exact IHf.
    + rewrite (filter_cons_True (fun f => f <> x)) by done.
      destruct (decide (f ∈ l)) as [Hin|Hnin].
      * rewrite (filter_cons_False (fun f => f ∉ l)) by (intros ?; done).
        rewrite (filter_cons_False (fun f => f ∉ x :: l))
          by (intros Hn; apply Hn; by right).
        exact IHf.
      * rewrite (filter_cons_True (fun f => f ∉ l)) by done.
        rewrite (filter_cons_True (fun f => f ∉ x :: l))
          by (intros [?|?]%elem_of_cons; done).
        by rewrite IHf.
Qed.

Lemma no_file_removes (l : list string) :
  filter (fun ev => isFileEvent ev = true) (EvRemove <$> l) = [].
Proof. induction l as [|x l IH]; simpl; [done|]. by rewrite filter_cons_False. Qed.

Lemma no_file_event (l : list Event) img a :
  filter (fun ev => isFileEvent ev = true) l = [] -> EvFile img a ∉ l.
Proof.
  intros Hnil Hin.
  assert (EvFile img a ∈ filter (fun ev => isFileEvent ev = true) l) as Hf
    by (apply list_elem_of_filter; done).
  rewrite Hnil in Hf. by apply elem_of_nil in Hf.
Qed.

Lemma no_file_no_work (l : list Event) :
  filter (fun ev => isFileEvent ev = true) l = [] -> workEvents l = [].
Proof.
  unfold workEvents. induction l as [|ev l IH]; [done|]. intros Hf.
  destruct ev as [| | | | | |f a| | | | |];
    try (rewrite filter_cons_False in Hf by (simpl; congruence);
         rewrite filter_cons_False by (simpl; congruence); by apply IH).
  rewrite filter_cons_True in Hf by done. discriminate.
Qed.

Lemma exportLogs_spec env images skipped st :
  exists post,
    actions (exportLogs env images skipped st) = (trace st ++ post)%list
    /\ filter (fun ev => isFileEvent ev = true) post = []
    /\ memory (exportLogs env images skipped st) = Some (progress st)
    /\ (status (exportLogs env images skipped st) = 0
        \/ status (exportLogs env images skipped st) = 1).
Proof.
  unfold exportLogs, returnMain, osExit.
  repeat case_match; simpl.
  - exists [EvNoLogs]. eauto.
  - match goal with |- context [runDeferred ?s] =>
      destruct (runDeferred_spec s) as (-> & -> & _); simpl end.
    eexists. rewrite <- !app_assoc. simpl. split; [reflexivity|].
    split; [|eauto].
    rewrite !(filter_cons_False (fun ev => isFileEvent ev = true)) by (simpl; congruence).
    apply no_file_removes.
  - eexists [_]. eauto.
Qed.

Lemma panicExit_spec st :
  actions (panicExit st) = (trace st ++ (EvRemove <$> deferred st))%list
  /\ memory (panicExit st) = Some (progress st)
  /\ status (panicExit st) = 2.
Proof.
  unfold panicExit. destruct (runDeferred_spec st) as (-> & -> & _). done.
Qed.

Lemma startState_spec p tr images skipped :
  exists pre,
    trace (startState p tr images skipped) = (tr ++ pre)%list
    /\ filter (fun ev => isFileEvent ev = true) pre = []
    /\ progress (startState p tr images skipped) = p
    /\ deferred (startState p tr images skipped) = []
    /\ tmpfiles (startState p tr images skipped) = [].
Proof.
  unfold startState. case_match; simpl.
  - eexists [_; _]. rewrite <- app_assoc. done.
  - eexists [_]. done.
Qed.

(** A run is what was printed before the loop, the events of the loop,
    and what follows the loop; only the loop acts on images. *)
Lemma runBatch_spec env images p tr :
  exists pre evs post,
    actions (runBatch env images p tr) = (tr ++ pre ++ evs ++ post)%list
    /\ trace (startState p tr images (countSkipped p images)) = (tr ++ pre)%list
    /\ trace (stateOf (batchLoop env images p tr))
       = (trace (startState p tr images (countSkipped p images)) ++ evs)%list
    /\ filter (fun ev => isFileEvent ev = true) pre = []
    /\ filter (fun ev => isFileEvent ev = true) post = []
    /\ memory (runBatch env images p tr) = Some (progress (stateOf (batchLoop env images p tr)))
    /\ (status (runBatch env images p tr) = 2
        <-> exists st msg, batchLoop env images p tr = Panic st msg).
Proof.
  destruct (startState_spec p tr images (countSkipped p images))
    as (pre & Hpre & Hprefile & Hprog & _).
  destruct (rangeImages_trace env (length images) (countSkipped p images) images 0
              (startState p tr images (countSkipped p images))) as (evs & Hevs & _).
  unfold runBatch. fold (batchLoop env images p tr) in *.
  destruct (batchLoop env images p tr) as [st|st msg] eqn:Hloop; cbn [stateOf] in *.
  - destruct (exportLogs_spec env images (countSkipped p images) st)
      as (post & Hact & Hpost & Hmem & Hst).
    exists pre, evs, post. rewrite Hact, Hevs, Hpre, <- !app_assoc.
    repeat split; try done.
    + intros H2. destruct Hst; congruence.
    + intros (? & ? & ?). done.
  - destruct (panicExit_spec st) as (Hact & Hmem & Hst).
    exists pre, evs, (EvRemove <$> deferred st). rewrite Hact, Hevs, Hpre, <- !app_assoc.
    repeat split; try done; eauto using no_file_removes.
Qed.

Lemma main_batch env images :
  findImages env "." = Ok images -> images <> [] ->
  main env = runBatch env images (loadProgress env).1 (EvBanner :: (loadProgress env).2).
Proof.
  intros Hfind Hne. unfold main. rewrite Hfind.
  destruct images as [|img rest]; [done|]. simpl.
  by destruct (loadProgress env).
Qed.

Lemma loadProgress_prints env :
  filter (fun ev => isFileEvent ev = true) (EvBanner :: (loadProgress env).2) = [].
Proof. unfold loadProgress. by repeat case_match. Qed.

Lemma lastSaved_no_file p tr :
  filter (fun ev => isFileEvent ev = true) tr = [] -> lastSaved p tr = p.
Proof.
  induction tr as [|ev tr IH]; intros Hf; [done|].
  destruct ev; simpl in *;
    try (rewrite filter_cons_False in Hf by (simpl; congruence); by apply IH).
  rewrite filter_cons_True in Hf by done. discriminate.
Qed.

Lemma lastSaved_skips p images :
  lastSaved p ((fun img => EvFile img Skip) <$> images) = p.
Proof. induction images as [|f rest IH]; [done|]. exact IH. Qed.

Lemma workEvents_skips images :
  workEvents ((fun img => EvFile img Skip) <$> images) = [].
Proof.
  unfold workEvents. induction images as [|f rest IH]; [done|].
  rewrite fmap_cons, filter_cons_False by (simpl; congruence). exact IH.
Qed.

(** A run that finds every listed image completed passes each of them
    over, does nothing else for any image, and keeps the state it
    loaded. *)
Lemma runBatch_all_completed env images p tr :
  (forall img, img ∈ images -> mapHas (Completed p) (filepath_Base img) = true) ->
  exists pre post,
    actions (runBatch env images p tr)
    = (tr ++ pre ++ ((fun img => EvFile img Skip) <$> images) ++ post)%list
    /\ filter (fun ev => isFileEvent ev = true) pre = []
    /\ filter (fun ev => isFileEvent ev = true) post = []
    /\ memory (runBatch env images p tr) = Some p.
Proof.
  intros Hall.
  destruct (runBatch_spec env images p tr)
    as (pre & evs & post & Hact & _ & Htr & Hpre & Hpost & Hmem & _).
  destruct (startState_spec p tr images (countSkipped p images))
    as (pre' & Hpre' & _ & Hprog & _).
  assert (batchLoop env images p tr
          = Running (foldl emit (startState p tr images (countSkipped p images))
                       ((fun img => EvFile img Skip) <$> images))) as Hloop.
  { apply rangeImages_all_skipped. intros img Hin.
    specialize (Hall img Hin). rewrite <- Hprog in Hall. exact Hall. }
  rewrite Hloop in Htr, Hmem. cbn [stateOf] in Htr, Hmem.
  destruct (foldl_emit (startState p tr images (countSkipped p images))
              ((fun img => EvFile img Skip) <$> images)) as (Hftr & Hfprog & _).
  rewrite Hftr in Htr. apply app_inv_head in Htr. subst evs.
  exists pre, post. rewrite Hact, Hmem, Hfprog, Hprog. done.
Qed.


(** * The save discipline *)

Lemma settled_marksSaved tr : settled tr -> marksSaved tr = true.
Proof.
  unfold settled. induction tr as [|ev tr IH]; [done|].
  destruct ev as [| | | | | |f a| | | | |]; simpl; try exact IH.
  destruct a; try exact IH.
  all: destruct tr as [|[| | | | | |f' a'| | | | |] tr]; simpl; try done.
  all: destruct a'; try done; exact IH.
Qed.

Lemma settled_app tr evs : settled tr -> settled evs -> settled (tr ++ evs).
Proof.
  unfold settled. intros Htr Hevs. induction tr as [|ev tr IH]; [done|].
  rewrite <- !app_comm_cons in *.
  destruct ev as [| | | | | |f a| | | | |]; simpl in *; try by apply IH.
  destruct a; try by apply IH.
  all: destruct tr as [|[| | | | | |f' a'| | | | |] tr]; simpl in *; try done.
  all: destruct a'; try done; by apply IH.
Qed.

Section Discipline.
Context (env : Env) (total skipped : nat).

Lemma processImage_settled i img st :
  settled (trace st) ->
  settled (trace (stateOf (processImage env total skipped i img st))).
Proof.
  intros Hst.
  unfold processImage, convertHEICtoJPEG, failImage, completeImage.
  repeat (case_match; simplify_eq/=).
  all: rewrite <- ?app_assoc; simpl.
  all: by apply settled_app.
Qed.

Lemma rangeImages_settled images : forall i st,
  settled (trace st) ->
  settled (trace (stateOf (rangeImages env total skipped i images st))).
Proof.
  induction images as [|img rest IH]; intros i st Hst; simpl; [done|].
  pose proof (processImage_settled i img st Hst) as H1.
  destruct (processImage env total skipped i img st) as [st1|st1 msg]; simpl in *; eauto.
Qed.

End Discipline.

Lemma settled_no_file tr :
  filter (fun ev => isFileEvent ev = true) tr = [] -> settled tr.
Proof.
  unfold settled. induction tr as [|ev tr IH]; [done|]. intros Hf.
  destruct ev; simpl in *;
    try (rewrite filter_cons_False in Hf by (simpl; congruence); by apply IH).
  rewrite filter_cons_True in Hf by done. discriminate.
Qed.

(** In every run, each mark (of a success or of a failure) is directly
    followed by a save of the state just marked. *)
Lemma marks_always_saved (env : Env) : marksSaved (actions (main env)) = true.
Proof.
  unfold main. destruct (findImages env ".") as [images|e]; [|done].
  destruct (length images =? 0)%nat; [done|].
  destruct (loadProgress env) as [p w] eqn:Hload.
  apply settled_marksSaved.
  destruct (runBatch_spec env images p (EvBanner :: w))
    as (pre & evs & post & Hact & Hpre' & Htr & Hpre & Hpost & _).
  pose proof (rangeImages_settled env (length images) (countSkipped p images) images 0
                (startState p (EvBanner :: w) images (countSkipped p images))) as Hset.
  fold (batchLoop env images p (EvBanner :: w)) in Hset.
  assert (filter (fun ev => isFileEvent ev = true) (EvBanner :: w) = []) as Hw.
  { pose proof (loadProgress_prints env) as H. by rewrite Hload in H. }
  rewrite Htr, Hpre' in Hset. rewrite Hact.
  replace ((EvBanner :: w) ++ pre ++ evs ++ post)%list
    with ((((EvBanner :: w) ++ pre) ++ evs) ++ post)%list
    by (by rewrite <- !app_assoc).
  apply settled_app; [|by apply settled_no_file].
  apply Hset. apply settled_app; by apply settled_no_file.
Qed.

(** * Successes stay clean *)

Lemma mapHas_delete {V} (m : option (gmap string V)) k k' :
  mapHas (mapDelete m k) k' = true <-> k' <> k /\ mapHas m k' = true.
Proof.
  destruct m as [g|]; simpl; [|split; [done|by intros [_ ?]]].
  rewrite !bool_decide_eq_true.
  destruct (decide (k = k')) as [->|Hne].
  - rewrite lookup_delete_eq. split; [by intros [? ?]|by intros [? _]].
  - rewrite lookup_delete_ne by done. split; [done|by intros [_ ?]].
Qed.

Lemma mapHas_false_iff {V} (m : option (gmap string V)) k :
  mapHas m k = false <-> ~ mapHas m k = true.
Proof. destruct (mapHas m k); split; congruence. Qed.

Lemma markFailure_spec p baseName msg p' :
  markFailure p baseName msg = Some p' ->
  Completed p' = Completed p
  /\ forall k, mapHas (Errors p') k = true <-> k = baseName \/ mapHas (Errors p) k = true.
Proof.
  unfold markFailure, mapAssign. destruct (Errors p) as [e|]; [|done].
  intros [= <-]. split; [done|]. intros k. apply mapHas_insert.
Qed.

Lemma markSuccess_spec p baseName log p' :
  markSuccess p baseName log = Some p' ->
  (forall k, mapHas (Completed p') k = true <-> k = baseName \/ mapHas (Completed p) k = true)
  /\ forall k, mapHas (Errors p') k = true <-> k <> baseName /\ mapHas (Errors p) k = true.
Proof.
  unfold markSuccess, mapAssign. destruct (Completed p) as [c|]; [|done].
  intros [= <-]. split; intros k; [apply mapHas_insert|apply mapHas_delete].
Qed.

Section Clean.
Context (env : Env) (total skipped : nat).

Lemma processImage_successesClean i img st :
  successesClean st ->
  successesClean (stateOf (processImage env total skipped i img st)).
Proof.
  unfold successesClean. intros Hst.
  unfold processImage, convertHEICtoJPEG, failImage, completeImage.
  repeat (case_match; simplify_eq/=).
  all: intros f b log Hin; rewrite <- ?app_assoc in Hin; simpl in Hin.
  all: apply elem_of_app in Hin as [Hin|Hin];
    [ destruct (Hst f b log Hin) as [Hc He]
    | repeat (apply elem_of_cons in Hin as [Hin|Hin]; [simplify_eq|]);
      try (by apply elem_of_nil in Hin) ].
  all: try done.
  all: repeat match goal with
       | H : markFailure _ _ _ = Some _ |- _ =>
           apply markFailure_spec in H as [-> Herr]
       | H : markSuccess _ _ _ = Some _ |- _ =>
           apply markSuccess_spec in H as [Hcomp Herr]
       | H : mapHas _ _ = false |- _ => apply mapHas_false_iff in H
       end.
  all: rewrite ?mapHas_false_iff; split.
  all: try done.
  all: try (apply Hcomp; by eauto).
  all: rewrite Herr.
  all: try (by intros [? ?]).
  all: intros [->|?]; congruence || done.
Qed.

Lemma rangeImages_successesClean images : forall i st,
  successesClean st ->
  successesClean (stateOf (rangeImages env total skipped i images st)).
Proof.
  induction images as [|img rest IH]; intros i st Hst; simpl; [done|].
  pose proof (processImage_successesClean i img st Hst) as H1.
  destruct (processImage env total skipped i img st) as [st1|st1 msg]; simpl in *; eauto.
Qed.

End Clean.

(** X23: in every run, a name marked as successful is in [completed]
    and not in [errors] from then on, up to the end of the run. *)
Lemma successes_stay_clean (env : Env) (f b : string) (log : ReadingLog) :
  EvFile f (MarkSuccess b log) ∈ actions (main env) ->
  exists p, memory (main env) = Some p
            /\ mapHas (Completed p) b = true /\ mapHas (Errors p) b = false.
Proof.
  destruct (findImages env ".") as [images|e] eqn:Hfind.
  2:{ unfold main. rewrite Hfind. simpl. intros Hin.
      repeat (apply elem_of_cons in Hin as [?|Hin]; [done|]). by apply elem_of_nil in Hin. }
  destruct (decide (images = [])) as [->|Hne].
  { unfold main. rewrite Hfind. simpl. intros Hin.
    repeat (apply elem_of_cons in Hin as [?|Hin]; [done|]). by apply elem_of_nil in Hin. }
  rewrite (main_batch env images Hfind Hne).
  set (p := (loadProgress env).1). set (tr := EvBanner :: (loadProgress env).2).
  destruct (runBatch_spec env images p tr)
    as (pre & evs & post & Hact & Hstart & Htr & Hpre & Hpost & Hmem & _).
  rewrite Hact, Hmem. intros Hin. eexists. split; [reflexivity|].
  apply (rangeImages_successesClean env (length images) (countSkipped p images) images 0
           (startState p tr images (countSkipped p images))) with (f := f) (log := log).
  - intros f' b' log' Hin'. rewrite Hstart in Hin'. exfalso.
    apply elem_of_app in Hin' as [Hin'|Hin'].
    + by apply (no_file_event _ _ _ (loadProgress_prints env)) in Hin'.
    + by apply (no_file_event _ _ _ Hpre) in Hin'.
  - fold (batchLoop env images p tr). rewrite Htr, Hstart.
    rewrite !elem_of_app in Hin. rewrite !elem_of_app.
    destruct Hin as [?|[?|[?|Hin]]]; eauto.
    by apply (no_file_event _ _ _ Hpost) in Hin.
Qed.

(** * Temporary files *)

Section Temps.
Context (env : Env) (total skipped : nat).

Lemma processImage_tempsDeferred i img st :
  tempsDeferred st ->
  tempsDeferred (stateOf (processImage env total skipped i img st)).
Proof.
  unfold tempsDeferred. intros Hst.
  unfold processImage, convertHEICtoJPEG, failImage, completeImage.
  repeat (case_match; simplify_eq/=); intros f Hf; try (by apply Hst).
  all: try (apply list_elem_of_filter in Hf as [Hne Hf]).
  all: try (apply elem_of_cons in Hf as [->|Hf]; [done || by left|]).
  all: try (right; by apply Hst).
  all: by apply Hst.
Qed.

Lemma rangeImages_tempsDeferred images : forall i st,
  tempsDeferred st ->
  tempsDeferred (stateOf (rangeImages env total skipped i images st)).
Proof.
  induction images as [|img rest IH]; intros i st Hst; simpl; [done|].
  pose proof (processImage_tempsDeferred i img st Hst) as H1.
  destruct (processImage env total skipped i img st) as [st1|st1 msg]; simpl in *; eauto.
Qed.

End Temps.

Lemma runDeferred_clears st :
  tempsDeferred st -> tmpfiles (runDeferred st) = [].
Proof.
  intros Hst. destruct (runDeferred_spec st) as (_ & _ & ->).
  unfold tempsDeferred in Hst.
  induction (tmpfiles st) as [|f fs IH]; [done|].
  rewrite filter_cons_False by (intros Hn; apply Hn, Hst; left).
  apply IH. intros g Hg. apply Hst. by right.
Qed.

Lemma emit_tempsDeferred st ev : tempsDeferred st -> tempsDeferred (emit st ev).
Proof. done. Qed.

(** X22: a run that returns from [main] (status 0) or panics (status 2)
    leaves no temporary file; only the [os.Exit(1)] paths can. *)
Lemma temps_removed_unless_exit_1 (env : Env) :
  status (main env) <> 1 -> leftover (main env) = [].
Proof.
  unfold main. destruct (findImages env ".") as [images|e]; [|done].
  destruct (length images =? 0)%nat; [done|].
  destruct (loadProgress env) as [p w].
  unfold runBatch.
  pose proof (rangeImages_tempsDeferred env (length images) (countSkipped p images) images 0
                (startState p (EvBanner :: w) images (countSkipped p images))) as Hinv.
  destruct (rangeImages _ _ _ _ _ _) as [st|st msg]; simpl in Hinv.
  - unfold exportLogs, osExit, returnMain. repeat case_match; simpl; try done.
    intros _. apply runDeferred_clears. do 2 apply emit_tempsDeferred. apply Hinv.
    destruct (startState_spec p (EvBanner :: w) images (countSkipped p images))
      as (_ & _ & _ & _ & _ & Htmp).
    intros f Hf. rewrite Htmp in Hf. by apply elem_of_nil in Hf.
  - intros _. unfold panicExit. simpl. apply runDeferred_clears. apply Hinv.
    destruct (startState_spec p (EvBanner :: w) images (countSkipped p images))
      as (_ & _ & _ & _ & _ & Htmp).
    intros f Hf. rewrite Htmp in Hf. by apply elem_of_nil in Hf.
Qed.

(** * Exit status *)

Lemma mapRange_length {V} (m : option (gmap string V)) :
  length (mapRange m) = mapLen m.
Proof.
  destruct m as [g|]; simpl; [|done].
  by rewrite length_fmap, length_map_to_list.
Qed.

(** The status is 0, 1 or 2; it is 1 exactly under the four conditions,
    and 2 exactly when the loop panics. *)
Lemma exit_status (env : Env) :
  (status (main env) = 0 \/ status (main env) = 1 \/ status (main env) = 2)
  /\ (status (main env) = 1 <-> exitOneConditions env)
  /\ (status (main env) = 2 <->
      exists images st msg,
        findImages env "." = Ok images /\ images <> []
        /\ batchLoop env images (loadProgress env).1 (EvBanner :: (loadProgress env).2)
           = Panic st msg).
Proof.
  unfold exitOneConditions, directoryUnreadable, noImagesFound, nothingCompleted,
    csvNotWritten, loopEndsIn.
  destruct (findImages env ".") as [images|e] eqn:Hfind.
  2:{ unfold main. rewrite Hfind. simpl. split; [eauto|]. split.
      - split; eauto.
      - split; [done|]. intros (? & ? & ? & ? & _). done. }
  destruct (decide (images = [])) as [->|Hne].
  { unfold main. rewrite Hfind. simpl. split; [eauto|]. split.
    - split; eauto.
    - split; [done|]. intros (? & ? & ? & ? & ? & _). congruence. }
  rewrite (main_batch env images Hfind Hne).
  set (p := (loadProgress env).1). set (tr := EvBanner :: (loadProgress env).2).
  unfold runBatch. fold (batchLoop env images p tr).
  destruct (batchLoop env images p tr) as [st|st msg] eqn:Hloop.
  - unfold exportLogs. rewrite mapRange_length.
    destruct (mapLen (Completed (progress st)) =? 0)%nat eqn:Hlen.
    + apply Nat.eqb_eq in Hlen. simpl. split; [eauto|]. split.
      * split; [|done]. intros _. right. right. left.
        exists st. split; [|done]. exists images. done.
      * split; [done|]. intros (? & ? & ? & ? & ? & ?). congruence.
    + apply Nat.eqb_neq in Hlen.
      destruct (writeCSV env "reading_logs.csv" (mapRange (Completed (progress st))))
        as [[]|e] eqn:Hcsv; simpl.
      * split; [eauto|]. split.
        -- split; [done|].
           intros [(? & ?)|[?|[(st' & (imgs & ? & ? & Hl) & Hzero)
                               |(st' & e' & (imgs & ? & ? & Hl) & Hw)]]];
             try congruence.
           all: replace imgs with images in Hl by congruence.
           all: rewrite Hloop in Hl; congruence.
        -- split; [done|]. intros (? & ? & ? & ? & ? & ?). congruence.
      * split; [eauto|]. split.
        -- split; [|done]. intros _. right. right. right.
           exists st, e. split; [|done]. exists images. done.
        -- split; [done|]. intros (? & ? & ? & ? & ? & ?). congruence.
  - unfold panicExit. simpl. split; [eauto|]. split.
    + split; [done|].
      intros [(? & ?)|[?|[(st' & (imgs & ? & ? & Hl) & Hzero)
                          |(st' & e' & (imgs & ? & ? & Hl) & Hw)]]];
        try congruence.
      all: replace imgs with images in Hl by congruence.
      all: rewrite Hloop in Hl; congruence.
    + split; [|done]. intros _. exists images, st, msg. done.
Qed.

Section NoPanic.
Context (env : Env) (total skipped : nat).

Lemma processImage_allocated i img st :
  allocated (progress st) ->
  exists st', processImage env total skipped i img st = Running st'
              /\ allocated (progress st').
Proof.
  destruct st as [[comp errs] ns nf dfr tmp nc tr].
  intros [[c Hc] [e He]]. simpl in Hc, He. subst comp errs.
  unfold processImage, convertHEICtoJPEG, failImage, completeImage,
    markFailure, markSuccess, mapAssign, mapDelete.
  repeat (case_match; simplify_eq/=).
  all: eexists; (split; [reflexivity|]); split; by eexists.
Qed.

Lemma rangeImages_allocated images : forall i st,
  allocated (progress st) ->
  exists st', rangeImages env total skipped i images st = Running st'
              /\ allocated (progress st').
Proof.
  induction images as [|img rest IH]; intros i st Hst; simpl; [eauto|].
  destruct (processImage_allocated i img st Hst) as (st1 & -> & Hst1). eauto.
Qed.

End NoPanic.

(** A run whose loaded state has both maps allocated never panics: its
    status is 0 or 1. *)
Lemma no_panic_when_allocated (env : Env) :
  allocated (loadProgress env).1 -> status (main env) <> 2.
Proof.
  intros Halloc H2. apply (proj2 (proj2 (exit_status env))) in H2
    as (images & st & msg & _ & _ & Hloop).
  unfold batchLoop in Hloop.
  destruct (startState_spec (loadProgress env).1 (EvBanner :: (loadProgress env).2) images
              (countSkipped (loadProgress env).1 images)) as (_ & _ & _ & Hprog & _).
  rewrite <- Hprog in Halloc.
  destruct (rangeImages_allocated env (length images)
              (countSkipped (loadProgress env).1 images) images 0 _ Halloc)
    as (st' & Hrun & _).
  congruence.
Qed.

(** * Runs that break a claim *)

(** C3: a HEIC followed by a PNG, all calls succeeding: the converted
    file is still there when the loop turns to the PNG and is removed
    only as the last action of the run, when [main] returns; a lone HEIC
    whose API call fails: [main] leaves through [os.Exit(1)] and the
    converted file is never removed. *)
Theorem temp_file_outlives_its_image :
  status (main hostHeicThenPng) = 0
  /\ cleanAtEachAttempt (actions (main hostHeicThenPng)) [] = false
  /\ last (actions (main hostHeicThenPng)) = Some (EvRemove "/tmp/reading-log-0.jpg")
  /\ ~ tempCleanup (main hostHeicThenPng)
  /\ status (main hostHeicApiDown) = 1
  /\ leftover (main hostHeicApiDown) = ["/tmp/reading-log-0.jpg"]
  /\ ~ tempCleanup (main hostHeicApiDown).
Proof.
  repeat split; try (vm_compute; reflexivity).
  - intros [H _]. vm_compute in H. discriminate.
  - intros [_ H]. vm_compute in H. discriminate.
Qed.

(** C4: the API call fails and the checkpoint cannot be written: the
    failure is marked and the save attempted, the save fails, and no
    warning is printed anywhere in the run. *)
Theorem failed_save_after_failure_is_silent :
  marksSaved (actions (main hostApiDownSaveRefused)) = true
  /\ filter (fun ev => isSaveFailure ev = true) (actions (main hostApiDownSaveRefused)) <> []
  /\ filter (fun ev => isWarnSave ev = true) (actions (main hostApiDownSaveRefused)) = []
  /\ saveFailuresWarned (actions (main hostApiDownSaveRefused)) = false.
Proof.
  repeat split; try (vm_compute; reflexivity).
  vm_compute. discriminate.
Qed.

(** C5: with a checkpoint whose [completed] is null the first success
    panics: the process ends with status 2 although none of the four
    conditions holds. *)
Theorem panic_exits_with_status_2 :
  status (main hostNullCompleted) = 2
  /\ ~ exitOneConditions hostNullCompleted
  /\ status (main hostNullCompleted) <> 0.
Proof.
  assert (status (main hostNullCompleted) = 2) as H2 by (vm_compute; reflexivity).
  split; [exact H2|]. split.
  - intros Hc. apply (proj1 (proj2 (exit_status hostNullCompleted))) in Hc. congruence.
  - congruence.
Qed.

(** The unchecked flush: the CSV rows of a small batch are still in
    the writer's buffer when [writeCSV] returns; the deferred flush
    fails, nobody sees it, and the run ends with status 0. *)
Lemma flush_failure_exits_0 :
  csvLostAtFlush hostDiskFullAtFlush /\ status (main hostDiskFullAtFlush) = 0.
Proof.
  split; [|vm_compute; reflexivity].
  eexists _, _. split.
  - exists ["a.png"]. split; [reflexivity|]. split; [done|]. vm_compute. reflexivity.
  - split; vm_compute; reflexivity.
Qed.

(** C10: a checkpoint file whose [completed] (or [errors]) is null
    decodes without error into a state whose map is nil; the first
    success (or failure) of the run then panics on the map assignment. *)
Theorem null_map_survives_load :
  loadProgress hostNullCompleted = (mkProgress None (Some ∅), [])
  /\ ~ allocated (loadProgress hostNullCompleted).1
  /\ markSuccess (loadProgress hostNullCompleted).1 "a.png" floraLog = None
  /\ status (main hostNullCompleted) = 2
  /\ loadProgress hostNullErrors = (mkProgress (Some ∅) None, [])
  /\ ~ allocated (loadProgress hostNullErrors).1
  /\ markFailure (loadProgress hostNullErrors).1 "a.png" "API call failed: connection refused"
     = None
  /\ status (main hostNullErrors) = 2.
Proof.
  repeat split; try (vm_compute; reflexivity).
  - intros [[c Hc] _]. vm_compute in Hc. discriminate.
  - intros [_ [c Hc]]. vm_compute in Hc. discriminate.
Qed.

(** * The scanner *)

Lemma findImages_fold (dir : string) (entries : list DirEntry) (acc : list string) :
  foldl (fun images e =>
           if IsDir e then images
           else if imageExts (strings_ToLower (filepath_Ext (Name e)))
                then (images ++ [filepath_Join dir (Name e)])%list
                else images) acc entries
  = (acc ++ (filepath_Join dir <$>
               (Name <$> filter (fun e => isImageEntry e = true) entries)))%list.
Proof.
  revert acc. induction entries as [|e es IH]; intros acc; simpl.
  - by rewrite app_nil_r.
  - rewrite IH. destruct (isImageEntry e) eqn:Hie.
    + rewrite filter_cons_True by done. unfold isImageEntry in Hie.
      destruct (IsDir e); [done|]. simpl in Hie. rewrite Hie.
      simpl. by rewrite <- app_assoc.
    + rewrite filter_cons_False by congruence. unfold isImageEntry in Hie.
      destruct (IsDir e); [done|]. simpl in Hie. by rewrite Hie.
Qed.


Lemma append_String (c : ascii) (s t : string) :
  String c s +:+ t = String c (s +:+ t).
Proof. reflexivity. Qed.

Lemma lastElement_plain (r : list ascii) (acc : string) :
  Forall (fun c => isPathSeparator c = false) r ->
  lastElement r acc = string_of_list_ascii (rev r) +:+ acc.
Proof.
  revert acc. induction r as [|c r IH]; intros acc Hr; [done|].
  apply Forall_cons in Hr as [Hc Hr]. cbn [lastElement]. rewrite Hc, IH by done.
  cbn [rev]. clear IH Hc Hr. generalize (rev r) as l. intros l.
  induction l as [|x l IHl]; simpl; [done|]. by rewrite !append_String, IHl.
Qed.

Lemma filepath_Base_plain (name : string) : plainName name -> filepath_Base name = name.
Proof.
  intros [Hne Hplain]. unfold filepath_Base.
  destruct (String.eqb_spec name "") as [->|_]; [done|].
  assert (Forall (fun c => isPathSeparator c = false)
            (rev (list_ascii_of_string name))) as Hrev.
  { apply Forall_forall. intros c Hc. rewrite Forall_forall in Hplain.
    apply Hplain. apply list_elem_of_In, in_rev. by apply list_elem_of_In. }
  destruct (rev (list_ascii_of_string name)) as [|c r] eqn:Hr.
  - apply (f_equal (@rev ascii)) in Hr. rewrite rev_involutive in Hr. simpl in Hr.
    destruct name; [done|discriminate].
  - assert (dropSeparators (c :: r) = c :: r) as ->.
    { apply Forall_cons in Hrev as [Hc _]. simpl. by rewrite Hc. }
    rewrite lastElement_plain by done.
    rewrite <- Hr, rev_involutive, string_of_list_ascii_of_string.
    clear. induction name as [|x s IH]; [done|]. by rewrite append_String, IH.
Qed.

(** X2: for a listing of the current directory whose names are plain and
    distinct, the base names under which [main] records progress are the
    names of the selected entries themselves, and they are distinct. *)
Theorem listing_base_names (env : Env) (entries : list DirEntry)
    (images : list string) :
  os_ReadDir env "." = Ok entries ->
  Forall plainName (Name <$> entries) ->
  NoDup (Name <$> entries) ->
  findImages env "." = Ok images ->
  images = Name <$> filter (fun e => isImageEntry e = true) entries
  /\ filepath_Base <$> images = images
  /\ NoDup (filepath_Base <$> images).
Proof.
  intros Hdir Hplain Hnd Hfind.
  unfold findImages in Hfind.
  rewrite Hdir, (findImages_fold "." entries []) in Hfind.
  injection Hfind as <-.
  assert (forall l : list string, filepath_Join "." <$> l = l) as Hjoin.
  { induction l as [|x l IH]; [done|]. by rewrite fmap_cons, IH. }
  rewrite Hjoin.
  assert (forall l : list DirEntry,
            Forall plainName (Name <$> l) ->
            filepath_Base <$> (Name <$> filter (fun e => isImageEntry e = true) l)
            = Name <$> filter (fun e => isImageEntry e = true) l) as Hbase.
  { induction l as [|e l IH]; intros Hl; [done|].
    rewrite fmap_cons in Hl. apply Forall_cons in Hl as [He Hl].
    destruct (isImageEntry e) eqn:Hie.
    - rewrite filter_cons_True by done.
      by rewrite !fmap_cons, filepath_Base_plain, IH.
    - rewrite filter_cons_False by congruence. by apply IH. }
  split; [done|]. rewrite Hbase by done. split; [done|].
  clear -Hnd. induction entries as [|e l IH]; [constructor|].
  rewrite fmap_cons in Hnd. apply NoDup_cons in Hnd as [Hnot Hnd].
  destruct (isImageEntry e) eqn:Hie.
  - rewrite filter_cons_True by done. rewrite fmap_cons. apply NoDup_cons.
    split; [|by apply IH].
    intros Hin. apply Hnot. apply list_elem_of_fmap in Hin as (e' & -> & He').
    apply list_elem_of_filter in He' as [_ He']. by apply list_elem_of_fmap_2.
  - rewrite filter_cons_False by congruence. by apply IH.
Qed.

(** [listing_base_names] on a directory with a sub-directory, a text file
    and two images. *)
Lemma listing_base_names_witness :
  os_ReadDir hostListing "." = Ok sampleListing
  /\ Forall plainName (Name <$> sampleListing)
  /\ NoDup (Name <$> sampleListing)
  /\ findImages hostListing "." = Ok ["a.HEIC"; "b.png"]
  /\ NoDup (filepath_Base <$> ["a.HEIC"; "b.png"]).
Proof.
  assert (Forall plainName (Name <$> sampleListing)) as Hplain.
  { repeat constructor; (try discriminate); done. }
  assert (NoDup (Name <$> sampleListing)) as Hnd.
  { apply (bool_decide_unpack _). vm_compute. reflexivity. }
  split; [reflexivity|]. split; [exact Hplain|]. split; [exact Hnd|].
  split; [reflexivity|].
  exact (proj2 (proj2 (listing_base_names hostListing sampleListing ["a.HEIC"; "b.png"]
                         eq_refl Hplain Hnd eq_refl))).
Defined.

(** * Extensions and media types *)

(** X3: the two extension tables agree: an extension the scanner accepts
    is [.heic] or has a media type, and every extension with a media type
    is accepted by the scanner; [.heic] itself has no media type. *)
Theorem extension_tables_agree (ext : string) :
  (imageExts ext = true <-> ext = ".heic" \/ is_Some (mediaTypes ext))
  /\ mediaTypes ".heic" = None
  /\ (forall mediaType, mediaTypes ext = Some mediaType -> mediaType ∈ knownMediaTypes).
Proof.
  unfold imageExts, mediaTypes, knownMediaTypes. simpl.
  destruct (String.eqb_spec ext ".jpg") as [->|H1].
  { simpl. repeat split; eauto; intros; simplify_eq; set_solver. }
  destruct (String.eqb_spec ext ".jpeg") as [->|H2].
  { simpl. repeat split; eauto; intros; simplify_eq; set_solver. }
  destruct (String.eqb_spec ext ".png") as [->|H3].
  { simpl. repeat split; eauto; intros; simplify_eq; set_solver. }
  destruct (String.eqb_spec ext ".gif") as [->|H4].
  { simpl. repeat split; eauto; intros; simplify_eq; set_solver. }
  destruct (String.eqb_spec ext ".webp") as [->|H5].
  { simpl. repeat split; eauto; intros; simplify_eq; set_solver. }
  destruct (String.eqb_spec ext ".heic") as [->|H6]; simpl.
  - repeat split; eauto; intros; simplify_eq.
  - repeat split; try done.
    + intros [?|[? ?]]; done.
Qed.

(** * Encoding and conversion *)

Lemma mediaTypes_known (ext mediaType : string) :
  mediaTypes ext = Some mediaType -> mediaType ∈ knownMediaTypes.
Proof.
  unfold mediaTypes, knownMediaTypes.
  repeat case_match; intros [= <-]; set_solver.
Qed.

(** X4: [encodeImage] answers only with one of the four media types, the
    one its table gives for the lower-cased extension, and the base64 of
    the bytes read; a read error is passed on unchanged whatever the
    extension; a HEIC path is refused in every case. *)
Theorem encodeImage_outcomes (env : Env) (path : string) :
  (forall mediaType encoded,
     encodeImage env path = Ok (mediaType, encoded) ->
     mediaType ∈ knownMediaTypes
     /\ mediaTypes (strings_ToLower (filepath_Ext path)) = Some mediaType
     /\ exists data, io_ReadAll env path = Ok data
                     /\ encoded = base64_EncodeToString env data)
  /\ (forall e, io_ReadAll env path = Err e -> encodeImage env path = Err e)
  /\ (isHEIC path = true -> exists e, encodeImage env path = Err e).
Proof.
  unfold encodeImage. split; [|split].
  - intros mediaType encoded.
    destruct (io_ReadAll env path) as [data|e]; [|done].
    destruct (mediaTypes _) as [mt|] eqn:Hmt; [|done].
    intros [= <- <-]. split; [by eapply mediaTypes_known|]. split; [done|]. eauto.
  - intros e ->. done.
  - unfold isHEIC. intros Hheic. apply String.eqb_eq in Hheic. rewrite Hheic.
    destruct (io_ReadAll env path); simpl; eauto.
Qed.

(** [encodeImage_outcomes] on a PNG that reads and on a HEIC. *)
Lemma encodeImage_outcomes_witness :
  encodeImage hostAllGood "b.PNG" = Ok ("image/png", "image bytes")
  /\ "image/png" ∈ knownMediaTypes
  /\ isHEIC "a.HEIC" = true
  /\ exists e, encodeImage hostAllGood "a.HEIC" = Err e.
Proof.
  split; [reflexivity|]. split.
  { exact (proj1 (proj1 (encodeImage_outcomes hostAllGood "b.PNG")
                    "image/png" "image bytes" eq_refl)). }
  split; [reflexivity|].
  exact (proj2 (proj2 (encodeImage_outcomes hostAllGood "a.HEIC")) eq_refl).
Defined.

(** X5: [convertHEICtoJPEG] calls [os.CreateTemp] once and touches neither
    the checkpoint nor the deferred removals.  When it succeeds the path
    it returns is the one file added to the temporary files; when it
    fails it leaves no temporary file that was not there before, and
    the file it had created is gone. *)
Theorem convert_cleans_up (env : Env) (heicPath : string) (st : RunState) :
  ncreated (convertHEICtoJPEG env heicPath st).1 = S (ncreated st)
  /\ progress (convertHEICtoJPEG env heicPath st).1 = progress st
  /\ deferred (convertHEICtoJPEG env heicPath st).1 = deferred st
  /\ match (convertHEICtoJPEG env heicPath st).2 with
     | Ok jpgPath =>
         os_CreateTemp env (ncreated st) = Ok jpgPath
         /\ tmpfiles (convertHEICtoJPEG env heicPath st).1 = jpgPath :: tmpfiles st
     | Err _ =>
         (forall f, f ∈ tmpfiles (convertHEICtoJPEG env heicPath st).1 -> f ∈ tmpfiles st)
         /\ (forall jpgPath, os_CreateTemp env (ncreated st) = Ok jpgPath ->
               jpgPath ∉ tmpfiles (convertHEICtoJPEG env heicPath st).1)
     end.
Proof.
  unfold convertHEICtoJPEG.
  destruct (os_CreateTemp env (ncreated st)) as [jpgPath|e] eqn:Htemp; simpl.
  - destruct (exec_sips env heicPath jpgPath) as [output [e|]]; simpl.
    + repeat split; try done.
      * intros f [Hne Hf]%list_elem_of_filter.
        apply elem_of_cons in Hf as [?|?]; done.
      * intros jpg [= <-] [Hne _]%list_elem_of_filter. done.
    + done.
  - repeat split; done.
Qed.

(** * The API answer *)

Lemma firstTextBlock_skips (pre rest : list ContentBlock) :
  Forall (fun b => b = OtherBlock) pre ->
  firstTextBlock (pre ++ rest) = firstTextBlock rest.
Proof. induction 1 as [|b pre -> _ IH]; [done|exact IH]. Qed.

(** X6: in the answer of the API the first text block decides alone:
    blocks of other kinds before it are passed over and whatever follows
    it is not looked at; an answer without a text block is an error; and
    [parseReadingLog] returns a record only when the call succeeded and
    that first text block decodes to it. *)
Theorem first_text_block_decides (env : Env) :
  (forall pre raw doc rest,
     Forall (fun b => b = OtherBlock) pre ->
     firstTextBlock (pre ++ TextBlock raw doc :: rest)%list
     = firstTextBlock [TextBlock raw doc])
  /\ (forall content,
        Forall (fun b => b = OtherBlock) content ->
        firstTextBlock content = Err "no text content in API response")
  /\ (forall mediaType encoded log,
        parseReadingLog env mediaType encoded = Ok log ->
        exists pre raw doc rest,
          messages_New env mediaType encoded = Ok (pre ++ TextBlock raw doc :: rest)%list
          /\ Forall (fun b => b = OtherBlock) pre
          /\ unmarshalLog doc = Some log).
Proof.
  split; [|split].
  - intros pre raw doc rest Hpre. rewrite firstTextBlock_skips by done. simpl.
    by destruct (unmarshalLog doc).
  - intros content Hc. rewrite <- (app_nil_r content).
    by rewrite firstTextBlock_skips.
  - intros mediaType encoded log. unfold parseReadingLog.
    destruct (messages_New env mediaType encoded) as [content|e]; [|done].
    induction content as [|b content IH]; [done|].
    destruct b as [raw doc|]; simpl.
    + destruct (unmarshalLog doc) as [l|] eqn:Hdoc; [|done].
      intros [= <-]. exists [], raw, doc, content. done.
    + intros Hlog. destruct (IH Hlog) as (pre & raw & doc & rest & Heq & Hpre & Hdoc).
      injection Heq as ->. exists (OtherBlock :: pre), raw, doc, rest.
      split; [done|]. split; [by constructor|done].
Qed.

(** [first_text_block_decides] on an answer with a leading block of
    another kind and a second text block. *)
Lemma first_text_block_decides_witness :
  Forall (fun b => b = OtherBlock) [OtherBlock]
  /\ firstTextBlock [OtherBlock; TextBlock "{...}" (JSONText floraDoc); TextBlock "x" NotJSON]
     = Ok floraLog.
Proof.
  split; [repeat constructor|].
  refine (eq_trans (proj1 (first_text_block_decides hostAllGood) [OtherBlock] "{...}"
                      (JSONText floraDoc) [TextBlock "x" NotJSON] _) _).
  - repeat constructor.
  - reflexivity.
Defined.

(** * More on the export *)

Lemma firstWithDate_elem (entries : list ReadingEntry) (date : string) (e : ReadingEntry) :
  firstWithDate entries date = Some e -> e ∈ entries /\ Date e = date.
Proof.
  unfold firstWithDate. induction entries as [|x es IH]; simpl; [done|].
  destruct (bool_decide (Date x = date)) eqn:Hx.
  - intros [= <-]. apply bool_decide_eq_true in Hx. split; [left|done].
  - intros He. destruct (IH He). split; [by right|done].
Qed.

(** X7: a date cell never shows zero or a negative number: it is empty,
    or it is the decimal of the positive minutes of an entry of the
    record with that date.  A first entry with zero or negative minutes
    empties the cell even when a later entry for the date is positive. *)
Theorem cell_shows_positive_minutes_only (entries : list ReadingEntry) (date : string) :
  (formatMinutes entries date = ""
   \/ exists e, e ∈ entries /\ Date e = date /\ 0 < Minutes e
                /\ formatMinutes entries date = Sprintf_d (Minutes e))
  /\ (forall e later, Date e = date -> Minutes e <= 0 ->
        formatMinutes (e :: later) date = "").
Proof.
  split.
  - rewrite formatMinutes_first.
    destruct (firstWithDate entries date) as [e|] eqn:He; [|by left].
    destruct (firstWithDate_elem _ _ _ He) as [Hin Hd].
    destruct (0 <? Minutes e) eqn:Hpos; [|by left].
    right. exists e. apply Z.ltb_lt in Hpos. done.
  - intros e later Hd Hle. simpl. rewrite (proj2 (String.eqb_eq _ _) Hd).
    destruct (0 <? Minutes e) eqn:Hpos; [|done]. apply Z.ltb_lt in Hpos. lia.
Qed.

Lemma columnMinutes_cons (e : ReadingEntry) (es : list ReadingEntry) (d : string) :
  columnMinutes (e :: es) d = if decide (Date e = d) then Minutes e else columnMinutes es d.
Proof.
  unfold columnMinutes, firstWithDate. simpl.
  destruct (decide (Date e = d)) as [Heq|Hne].
  - by rewrite bool_decide_eq_true_2.
  - by rewrite bool_decide_eq_false_2.
Qed.

Lemma columnMinutes_absent (es : list ReadingEntry) (d : string) :
  d ∉ Date <$> es -> columnMinutes es d = 0.
Proof.
  induction es as [|e es IH]; [done|]. rewrite fmap_cons, columnMinutes_cons.
  intros Hnot. apply not_elem_of_cons in Hnot as [Hne Hnot].
  destruct (decide (Date e = d)); [congruence|by apply IH].
Qed.

Lemma sum_columns_other (x : string) (a : Z) (g : string -> Z) (dates : list string) :
  x ∉ dates ->
  foldr (fun d acc => (if decide (x = d) then a else g d) + acc) 0 dates
  = foldr (fun d acc => g d + acc) 0 dates.
Proof.
  induction dates as [|d ds IH]; [done|]. intros Hnot.
  apply not_elem_of_cons in Hnot as [Hne Hnot]. simpl.
  rewrite IH by done. by destruct (decide (x = d)).
Qed.

Lemma sum_columns_one (x : string) (a : Z) (g : string -> Z) (dates : list string) :
  NoDup dates -> x ∈ dates -> g x = 0 ->
  foldr (fun d acc => (if decide (x = d) then a else g d) + acc) 0 dates
  = a + foldr (fun d acc => g d + acc) 0 dates.
Proof.
  induction 1 as [|d ds Hd Hnd IH]; intros Hin Hg.
  - by apply elem_of_nil in Hin.
  - simpl. destruct (decide (x = d)) as [<-|Hne].
    + rewrite sum_columns_other by done. lia.
    + apply elem_of_cons in Hin as [?|Hin]; [done|]. rewrite IH by done. lia.
Qed.

Lemma sum_of_columns (dates : list string) (entries : list ReadingEntry) :
  NoDup dates ->
  NoDup (Date <$> entries) ->
  Forall (fun e => Date e ∈ dates) entries ->
  sumMinutes entries = foldr (fun d acc => columnMinutes entries d + acc) 0 dates.
Proof.
  intros Hdates. induction entries as [|e es IH]; intros Hnd Hall.
  - simpl. clear. induction dates as [|d ds IH]; [done|]. simpl. by rewrite <- IH.
  - rewrite fmap_cons in Hnd. apply NoDup_cons in Hnd as [Hnew Hnd].
    apply Forall_cons in Hall as [He Hall]. simpl. rewrite IH by done.
    rewrite <- (sum_columns_one (Date e) (Minutes e) (columnMinutes es) dates)
      by (try done; by apply columnMinutes_absent).
    clear. induction dates as [|d ds IHd]; [done|]. simpl.
    by rewrite IHd, columnMinutes_cons.
Qed.

(** X8: for a record whose entries carry distinct dates, all among the
    seven fixed ones, the sum of all minutes is the sum over the seven
    date columns of the minutes each column stands for; when that sum
    fits Go's [int] it is what the Total Minutes cell shows. *)
Theorem total_is_sum_of_columns (log : ReadingLog) :
  NoDup (Date <$> ReadingEntries log) ->
  Forall (fun e => Date e ∈ dateColumns) (ReadingEntries log) ->
  sumMinutes (ReadingEntries log)
  = foldr (fun d acc => columnMinutes (ReadingEntries log) d + acc) 0 dateColumns
  /\ (fits_int (sumMinutes (ReadingEntries log)) ->
      totalCell log
      = Some (Sprintf_d
                (foldr (fun d acc => columnMinutes (ReadingEntries log) d + acc)
                   0 dateColumns))).
Proof.
  intros Hnd Hall.
  assert (NoDup dateColumns) as Hdates
    by (apply (bool_decide_unpack _); vm_compute; reflexivity).
  pose proof (sum_of_columns dateColumns (ReadingEntries log) Hdates Hnd Hall) as Hsum.
  split; [exact Hsum|]. intros Hfits.
  rewrite <- Hsum, totalCell_wraps. by rewrite wrap_int_small.
Qed.

(** [total_is_sum_of_columns] on a form filled in for three days. *)
Lemma total_is_sum_of_columns_witness :
  NoDup (Date <$> ReadingEntries weekLog)
  /\ Forall (fun e => Date e ∈ dateColumns) (ReadingEntries weekLog)
  /\ sumMinutes (ReadingEntries weekLog) = 35
  /\ totalCell weekLog = Some "35".
Proof.
  assert (NoDup (Date <$> ReadingEntries weekLog)) as Hnd
    by (apply (bool_decide_unpack _); vm_compute; reflexivity).
  assert (Forall (fun e => Date e ∈ dateColumns) (ReadingEntries weekLog)) as Hall
    by (apply (bool_decide_unpack _); vm_compute; reflexivity).
  split; [exact Hnd|]. split; [exact Hall|].
  destruct (total_is_sum_of_columns weekLog Hnd Hall) as [Hsum Hcell].
  split.
  - rewrite Hsum. reflexivity.
  - rewrite Hcell; [reflexivity|].
    unfold fits_int, int_min, int_max. simpl. lia.
Defined.

(** * Writing the CSV *)

Lemma writeRows_ok (env : Env) (logs : list ReadingLog) :
  writeRows env logs = Ok tt
  <-> forall log, log ∈ logs -> csv_Write env (csvRow log) = Ok tt.
Proof.
  induction logs as [|l logs IH]; simpl.
  - split; [|done]. intros _ log Hin. by apply elem_of_nil in Hin.
  - destruct (csv_Write env (csvRow l)) as [[]|e] eqn:Hw.
    + rewrite IH. split.
      * intros Hall log [->|Hin]%elem_of_cons; eauto.
      * intros Hall log Hin. apply Hall. by right.
    + split; [done|]. intros Hall. specialize (Hall l). rewrite Hw in Hall.
      discriminate Hall. left.
Qed.

(** X9: [writeCSV] succeeds exactly when the file is created and the
    header and the row of every record are written; so whether it
    succeeds does not depend on the order in which the records are
    visited, and with no record it still writes a header-only file. *)
Theorem writeCSV_succeeds_iff (env : Env) (filename : string) (logs : list ReadingLog) :
  (writeCSV env filename logs = Ok tt
   <-> os_Create env filename = Ok tt
       /\ csv_Write env csvHeader = Ok tt
       /\ forall log, log ∈ logs -> csv_Write env (csvRow log) = Ok tt)
  /\ (forall logs', logs ≡ₚ logs' ->
        (writeCSV env filename logs = Ok tt <-> writeCSV env filename logs' = Ok tt))
  /\ (writeCSV env filename [] = Ok tt
      <-> os_Create env filename = Ok tt /\ csv_Write env csvHeader = Ok tt).
Proof.
  assert (forall ls, writeCSV env filename ls = Ok tt
                     <-> os_Create env filename = Ok tt
                         /\ csv_Write env csvHeader = Ok tt
                         /\ forall log, log ∈ ls -> csv_Write env (csvRow log) = Ok tt)
    as Hiff.
  { intros ls. unfold writeCSV.
    destruct (os_Create env filename) as [[]|e]; [|split; [done|by intros [? _]]].
    destruct (csv_Write env csvHeader) as [[]|e]; [|split; [done|by intros (_ & ? & _)]].
    rewrite writeRows_ok. split; [done|by intros (_ & _ & ?)]. }
  split; [apply Hiff|]. split.
  - intros logs' Hperm. rewrite !Hiff.
    split; intros (Hc & Hh & Hall); (split; [done|]); (split; [done|]);
      intros log Hin; apply Hall.
    + by rewrite Hperm.
    + by rewrite <- Hperm.
  - rewrite Hiff. split; [by intros (? & ? & _)|].
    intros [? ?]. split; [done|]. split; [done|].
    intros log Hin. by apply elem_of_nil in Hin.
Qed.

(** * The progress line *)

Lemma length_append (s t : string) :
  String.length (s +:+ t) = (String.length s + String.length t)%nat.
Proof.
  induction s as [|c s IH]; [done|].
  change (String c s +:+ t) with (String c (s +:+ t)).
  cbn [String.length]. by rewrite IH.
Qed.

Lemma length_repeatString (s : string) (n : nat) :
  String.length (repeatString s n) = (n * String.length s)%nat.
Proof.
  induction n as [|n IH]; [done|]. cbn [repeatString].
  rewrite length_append, IH. lia.
Qed.

Lemma renderBar_value (current total width : Z) :
  0 < total -> 0 <= current -> 0 <= width -> 3 * width <= int_max ->
  width * current <= int_max ->
  renderBar current total width
  = if width <? width * current / total then None
    else Some (repeatString barFull (Z.to_nat (width * current / total))
               +:+ repeatString barEmpty (Z.to_nat (width - width * current / total))).
Proof.
  intros Htotal Hcur Hwidth Hbar Hfits.
  assert (0 <= width * current) as Hprod by lia.
  assert (0 <= width * current / total <= width * current) as Hq.
  { split; [by apply Z.div_pos|]. apply Z.div_le_upper_bound; [done|]. nia. }
  unfold int_max in Hfits, Hbar.
  unfold renderBar, int_div, int_mul, int_sub.
  rewrite (wrap_int_small (width * current)) by (unfold fits_int, int_min, int_max; lia).
  destruct (total =? 0) eqn:Hz; [apply Z.eqb_eq in Hz; lia|]. simpl.
  rewrite Z.quot_div_nonneg by lia.
  rewrite (wrap_int_small (width * current / total))
    by (unfold fits_int, int_min, int_max; lia).
  rewrite (wrap_int_small (width - width * current / total))
    by (unfold fits_int, int_min, int_max; lia).
  unfold strings_Repeat.
  change (Z.of_nat (String.length barFull)) with 3.
  change (Z.of_nat (String.length barEmpty)) with 3.
  destruct (width * current / total <? 0) eqn:Hneg; [apply Z.ltb_lt in Hneg; lia|].
  destruct (width <? width * current / total) eqn:Hover.
  - apply Z.ltb_lt in Hover.
    destruct (int_max <? 3 * (width * current / total)); simpl; [done|].
    destruct (width - width * current / total <? 0) eqn:Hneg2; [done|].
    apply Z.ltb_ge in Hneg2. lia.
  - apply Z.ltb_ge in Hover.
    destruct (int_max <? 3 * (width * current / total)) eqn:Hbig;
      [apply Z.ltb_lt in Hbig; unfold int_max in Hbig; lia|]. simpl.
    destruct (width - width * current / total <? 0) eqn:Hneg2;
      [apply Z.ltb_lt in Hneg2; lia|].
    destruct (int_max <? 3 * (width - width * current / total)) eqn:Hbig2;
      [apply Z.ltb_lt in Hbig2; unfold int_max in Hbig2; lia|].
    done.
Qed.

(** X10: [renderBar] panics when [total] is 0 (integer division by
    zero).  For a positive total, a bar whose bytes an [int] can count
    and a product [width * current] that fits an [int], it panics
    exactly when the filled part would be longer than the bar, which
    does not happen while [0 <= current <= total]; otherwise the bar is
    the filled part followed by the empty part, [width] cells of three
    bytes each. *)
Theorem renderBar_total (current total width : Z) :
  renderBar current 0 width = None
  /\ (0 < total -> 0 <= current -> 0 <= width -> 3 * width <= int_max ->
      width * current <= int_max ->
      (renderBar current total width = None <-> width < width * current / total)
      /\ (current <= total -> is_Some (renderBar current total width))
      /\ (forall bar, renderBar current total width = Some bar ->
            bar = repeatString barFull (Z.to_nat (width * current / total))
                  +:+ repeatString barEmpty (Z.to_nat (width - width * current / total))
            /\ Z.of_nat (String.length bar) = 3 * width)).
Proof.
  split; [reflexivity|].
  intros Htotal Hcur Hwidth Hbar Hfits.
  rewrite (renderBar_value current total width Htotal Hcur Hwidth Hbar Hfits).
  assert (0 <= width * current / total) as Hq by (apply Z.div_pos; lia).
  destruct (width <? width * current / total) eqn:Hover.
  - apply Z.ltb_lt in Hover. split; [done|]. split; [|done].
    intros Hle. exfalso.
    assert (width * current / total <= width); [|lia].
    apply Z.div_le_upper_bound; [done|]. nia.
  - apply Z.ltb_ge in Hover. split; [split; [done|lia]|]. split; [by eexists|].
    intros bar [= <-]. split; [done|].
    rewrite length_append, !length_repeatString.
    change (String.length barFull) with 3%nat.
    change (String.length barEmpty) with 3%nat. lia.
Qed.

(** [renderBar_total] for the bar of the third of seven images, and for
    a call beyond the total. *)
Lemma renderBar_total_witness :
  is_Some (renderBar 3 7 20) /\ renderBar 8 7 20 = None.
Proof.
  assert (20 * 3 <= int_max) as H3 by (unfold int_max; lia).
  assert (20 * 8 <= int_max) as H8 by (unfold int_max; lia).
  split.
  - apply (proj2 (renderBar_total 3 7 20)); unfold int_max; lia.
  - apply (proj2 (renderBar_total 8 7 20)); first [unfold int_max; lia | reflexivity].
Defined.

(** * Counting what the loop does *)

Lemma countEv_app (f : Event -> bool) (tr evs : list Event) :
  countEv f (tr ++ evs) = (countEv f tr + countEv f evs)%nat.
Proof. unfold countEv. by rewrite List.filter_app, length_app. Qed.

Lemma countEv_no_file (f : Event -> bool) (tr : list Event) :
  (forall ev, f ev = true -> isFileEvent ev = true) ->
  filter (fun ev => isFileEvent ev = true) tr = [] -> countEv f tr = 0%nat.
Proof.
  intros Hf. unfold countEv. induction tr as [|ev tr IH]; [done|]. intros Hnil.
  destruct (isFileEvent ev) eqn:Hev.
  - rewrite filter_cons_True in Hnil by done. discriminate.
  - rewrite filter_cons_False in Hnil by congruence. simpl.
    destruct (f ev) eqn:Hfev; [|by apply IH].
    apply Hf in Hfev. congruence.
Qed.

Lemma countEv_notSkip (evs : list Event) :
  Forall notSkip evs -> countEv isSkip evs = 0%nat.
Proof.
  unfold countEv. induction 1 as [|ev evs Hev _ IH]; [done|]. simpl.
  destruct ev as [| | | | | |f a| | | | |]; try exact IH.
  destruct a; try exact IH. done.
Qed.

Lemma countSkipped_cons (p : Progress) (img : string) (rest : list string) :
  countSkipped p (img :: rest)
  = ((if mapHas (Completed p) (filepath_Base img) then 1 else 0) + countSkipped p rest)%nat.
Proof.
  unfold countSkipped. destruct (mapHas (Completed p) (filepath_Base img)) eqn:E.
  - by rewrite filter_cons_True.
  - rewrite filter_cons_False; [done|congruence].
Qed.

Lemma countSkipped_ext (p p' : Progress) (images : list string) :
  (forall img, img ∈ images ->
     mapHas (Completed p) (filepath_Base img) = mapHas (Completed p') (filepath_Base img)) ->
  countSkipped p images = countSkipped p' images.
Proof.
  induction images as [|img rest IH]; [done|]. intros Hsame.
  rewrite !countSkipped_cons, (Hsame img) by left.
  rewrite IH; [done|]. intros f Hf. apply Hsame. by right.
Qed.

Lemma countSkipped_le (p : Progress) (images : list string) :
  (countSkipped p images <= length images)%nat.
Proof. unfold countSkipped. apply length_filter. Qed.

Section Counting.
Context (env : Env) (total skipped : nat).

Ltac loop_cases :=
  unfold processImage, convertHEICtoJPEG, failImage, completeImage,
    markFailure, markSuccess, mapAssign in *;
  repeat (case_match; simplify_eq/=).

(** The only progress line printed for an image carries the position of
    the image in the listing, counted from 1. *)
Lemma processImage_attempt i img st f c t s :
  EvFile f (Attempt c t s) ∈ trace (stateOf (processImage env total skipped i img st)) ->
  EvFile f (Attempt c t s) ∈ trace st
  \/ (f = img /\ c = (i + 1)%nat /\ t = total /\ s = skipped).
Proof.
  loop_cases; intros Hin; rewrite <- ?app_assoc in Hin; simpl in Hin.
  all: apply elem_of_app in Hin as [Hin|Hin]; [by left|].
  all: repeat (apply elem_of_cons in Hin as [Hin|Hin]; [simplify_eq; eauto|]).
  all: by apply elem_of_nil in Hin.
Qed.

Lemma rangeImages_attempt images : forall i st f c t s,
  EvFile f (Attempt c t s) ∈ trace (stateOf (rangeImages env total skipped i images st)) ->
  EvFile f (Attempt c t s) ∈ trace st
  \/ ((i + 1 <= c)%nat /\ images !! (c - (i + 1))%nat = Some f
      /\ t = total /\ s = skipped).
Proof.
  induction images as [|img rest IH]; intros i st f c t s; simpl; [by left|].
  pose proof (processImage_attempt i img st f c t s) as Hone.
  destruct (processImage env total skipped i img st) as [st1|st1 msg]; simpl in *.
  - intros Hin. destruct (IH (S i) st1 f c t s Hin) as [Hin1|(Hc & Hf & -> & ->)].
    + destruct (Hone Hin1) as [?|(-> & -> & -> & ->)]; [by left|]. right.
      split; [lia|]. split; [|done]. by replace (i + 1 - (i + 1))%nat with 0%nat by lia.
    + right. split; [lia|]. split; [|done].
      replace (c - (i + 1))%nat with (S (c - (S i + 1)))%nat by lia. exact Hf.
  - intros Hin. destruct (Hone Hin) as [?|(-> & -> & -> & ->)]; [by left|].
    right. split; [lia|]. split; [|done]. by replace (i + 1 - (i + 1))%nat with 0%nat by lia.
Qed.

Lemma processImage_tallied i img st :
  tallied st -> tallied (stateOf (processImage env total skipped i img st)).
Proof.
  unfold tallied. intros [Hs Hf]. loop_cases.
  all: rewrite <- ?app_assoc, ?countEv_app; unfold countEv in *; simpl; lia.
Qed.

Lemma rangeImages_tallied images : forall i st,
  tallied st -> tallied (stateOf (rangeImages env total skipped i images st)).
Proof.
  induction images as [|img rest IH]; intros i st Hst; simpl; [done|].
  pose proof (processImage_tallied i img st Hst) as H1.
  destruct (processImage env total skipped i img st) as [st1|st1 msg]; simpl in *; eauto.
Qed.

(** Each image the loop gets through is passed over, or fails, or
    succeeds. *)
Lemma processImage_one_outcome i img st st' :
  processImage env total skipped i img st = Running st' ->
  (succeeded st' + failed st' + countEv isSkip (trace st')
   = succeeded st + failed st + countEv isSkip (trace st) + 1)%nat.
Proof.
  loop_cases; intros [= <-]; simpl.
  all: rewrite <- ?app_assoc, ?countEv_app; unfold countEv in *; simpl; lia.
Qed.

Lemma rangeImages_outcomes images : forall i st st',
  rangeImages env total skipped i images st = Running st' ->
  (succeeded st' + failed st' + countEv isSkip (trace st')
   = succeeded st + failed st + countEv isSkip (trace st) + length images)%nat.
Proof.
  induction images as [|img rest IH]; intros i st st'; simpl.
  - intros [= <-]. lia.
  - destruct (processImage env total skipped i img st) as [st1|st1 msg] eqn:Hone; [|done].
    intros Hrun. apply IH in Hrun. apply processImage_one_outcome in Hone. lia.
Qed.

(** With distinct base names the loop passes over exactly the images
    that the counting loop before it counted. *)
Lemma rangeImages_skip_count images : forall i st st',
  rangeImages env total skipped i images st = Running st' ->
  NoDup (filepath_Base <$> images) ->
  countEv isSkip (trace st')
  = (countEv isSkip (trace st) + countSkipped (progress st) images)%nat.
Proof.
  induction images as [|img rest IH]; intros i st st'; cbn [rangeImages].
  - intros [= <-] _. unfold countSkipped. simpl. lia.
  - intros Hrun Hnd. rewrite fmap_cons in Hnd. apply NoDup_cons in Hnd as [Hf Hnd].
    destruct (processImage_trace env total skipped i img st)
      as (evs1 & Htr1 & _ & Hskip & Hwork).
    pose proof (processImage_completed_mono env total skipped i img st) as Hmono.
    pose proof (processImage_completed_new env total skipped i img st) as Hnew.
    destruct (processImage env total skipped i img st) as [st1|st1 msg] eqn:Hone; [|done].
    simpl in *. rewrite (IH (S i) st1 st' Hrun Hnd), Htr1, countEv_app.
    assert (countSkipped (progress st1) rest = countSkipped (progress st) rest) as ->.
    { apply countSkipped_ext. intros f Hin.
      destruct (mapHas (Completed (progress st)) (filepath_Base f)) eqn:E.
      - by apply Hmono.
      - destruct (mapHas (Completed (progress st1)) (filepath_Base f)) eqn:E1; [|done].
        destruct (Hnew _ E1) as [?|Heq]; [congruence|].
        exfalso. apply Hf. rewrite <- Heq. by apply list_elem_of_fmap_2. }
    rewrite countSkipped_cons.
    destruct (mapHas (Completed (progress st)) (filepath_Base img)) eqn:E.
    + rewrite (Hskip eq_refl). unfold countEv. simpl. lia.
    + destruct (Hwork eq_refl) as [Hns _]. rewrite (countEv_notSkip evs1 Hns). lia.
Qed.

End Counting.

(** X11: the progress line of an image shows the position of that
    image in the listing, counted from 1 (so between 1 and the number of
    images found), next to that number and the number of images counted
    as completed before the loop; the bar drawn for it (20 cells) never
    panics. *)
Theorem progress_line_in_range (env : Env) (img : string) (c t s : nat) :
  EvFile img (Attempt c t s) ∈ actions (main env) ->
  exists images,
    findImages env "." = Ok images
    /\ (1 <= c <= length images)%nat
    /\ images !! (c - 1)%nat = Some img
    /\ t = length images
    /\ s = countSkipped (loadProgress env).1 images
    /\ (s <= t)%nat
    /\ (20 * Z.of_nat t <= int_max -> is_Some (renderBar (Z.of_nat c) (Z.of_nat t) 20)).
Proof.
  destruct (findImages env ".") as [images|e] eqn:Hfind.
  2:{ unfold main. rewrite Hfind. simpl. intros Hin.
      repeat (apply elem_of_cons in Hin as [?|Hin]; [done|]). by apply elem_of_nil in Hin. }
  destruct (decide (images = [])) as [->|Hne].
  { unfold main. rewrite Hfind. simpl. intros Hin.
    repeat (apply elem_of_cons in Hin as [?|Hin]; [done|]). by apply elem_of_nil in Hin. }
  rewrite (main_batch env images Hfind Hne).
  set (p := (loadProgress env).1). set (tr := EvBanner :: (loadProgress env).2).
  destruct (runBatch_spec env images p tr)
    as (pre & evs & post & Hact & Hstart & Htr & Hpre & Hpost & _).
  rewrite Hact. intros Hin. exists images. split; [done|].
  assert (EvFile img (Attempt c t s) ∈ trace (stateOf (batchLoop env images p tr))) as Hloop.
  { rewrite Htr, Hstart. rewrite !elem_of_app in Hin. rewrite !elem_of_app.
    destruct Hin as [?|[?|[?|Hin]]]; eauto.
    by apply (no_file_event _ _ _ Hpost) in Hin. }
  apply rangeImages_attempt in Hloop as [Hold|(Hc & Hpos & -> & ->)].
  { exfalso. rewrite Hstart in Hold. apply elem_of_app in Hold as [Hold|Hold].
    - by apply (no_file_event _ _ _ (loadProgress_prints env)) in Hold.
    - by apply (no_file_event _ _ _ Hpre) in Hold. }
  simpl in Hc, Hpos. pose proof (lookup_lt_Some _ _ _ Hpos) as Hlt.
  split; [lia|]. split; [exact Hpos|]. split; [done|]. split; [done|].
  split; [apply countSkipped_le|].
  intros Hfits. rewrite renderBar_value by (unfold int_max in *; lia).
  destruct (20 <? 20 * Z.of_nat c / Z.of_nat (length images)) eqn:Hover; [|by eexists].
  apply Z.ltb_lt in Hover. exfalso.
  assert (20 * Z.of_nat c / Z.of_nat (length images) <= 20); [|lia].
  apply Z.div_le_upper_bound; lia.
Qed.

(** [progress_line_in_range] for the retried image of a directory of
    three. *)
Lemma progress_line_in_range_witness :
  EvFile "b.png" (Attempt 2 3 1) ∈ actions (main hostRetry)
  /\ (exists images, findImages hostRetry "." = Ok images /\ images !! 1%nat = Some "b.png")
  /\ is_Some (renderBar 2 3 20).
Proof.
  assert (EvFile "b.png" (Attempt 2 3 1) ∈ actions (main hostRetry)) as Hin.
  { vm_compute. repeat first [left | right]. }
  split; [exact Hin|].
  destruct (progress_line_in_range hostRetry "b.png" 2 3 1 Hin)
    as (images & Hfind & _ & Hpos & _ & _ & _ & Hbar).
  split; [by exists images|].
  apply Hbar. unfold int_max. simpl. lia.
Defined.

(** X12: in a run that ends with status 0 over a listing with distinct
    base names, the summary shows the number of images found, the number
    of success marks and of failure marks of the run, and the number of
    images counted as completed before the loop; the last three add up to
    the first. *)
Theorem summary_adds_up (env : Env) (images : list string) :
  findImages env "." = Ok images ->
  NoDup (filepath_Base <$> images) ->
  status (main env) = 0 ->
  exists s f,
    EvSummary (length images) s f (countSkipped (loadProgress env).1 images)
      ∈ actions (main env)
    /\ s = countEv isSuccessMark (actions (main env))
    /\ f = countEv isFailureMark (actions (main env))
    /\ (s + f + countSkipped (loadProgress env).1 images = length images)%nat.
Proof.
  intros Hfind Hnd.
  destruct (decide (images = [])) as [->|Hne].
  { unfold main. rewrite Hfind. simpl. done. }
  rewrite (main_batch env images Hfind Hne).
  set (p := (loadProgress env).1). set (tr := EvBanner :: (loadProgress env).2).
  destruct (startState_spec p tr images (countSkipped p images))
    as (pre & Hstart & Hpre & Hprog & _).
  assert (filter (fun ev => isFileEvent ev = true) (tr ++ pre)%list = []) as Hnofile.
  { rewrite filter_app, Hpre, app_nil_r. apply loadProgress_prints. }
  assert (succeeded (startState p tr images (countSkipped p images)) = 0%nat
          /\ failed (startState p tr images (countSkipped p images)) = 0%nat)
    as [Hs0 Hf0] by (unfold startState; by case_match).
  assert (forall f, (forall ev, f ev = true -> isFileEvent ev = true) ->
            countEv f (trace (startState p tr images (countSkipped p images))) = 0%nat)
    as Hzero.
  { intros f Hf. rewrite Hstart. by apply countEv_no_file. }
  assert (forall ev, isSkip ev = true -> isFileEvent ev = true) as Hk
    by (by intros [| | | | | |? []| | | | |]).
  assert (forall ev, isSuccessMark ev = true -> isFileEvent ev = true) as Hsm
    by (by intros [| | | | | |? []| | | | |]).
  assert (forall ev, isFailureMark ev = true -> isFileEvent ev = true) as Hfm
    by (by intros [| | | | | |? []| | | | |]).
  unfold runBatch.
  pose proof (rangeImages_tallied env (length images) (countSkipped p images) images 0
                (startState p tr images (countSkipped p images))) as Htal.
  destruct (rangeImages env (length images) (countSkipped p images) 0 images
              (startState p tr images (countSkipped p images))) as [st|st msg] eqn:Hrun.
  2:{ unfold panicExit. simpl. done. }
  pose proof (rangeImages_outcomes _ _ _ _ _ _ _ Hrun) as Hout.
  pose proof (rangeImages_skip_count _ _ _ _ _ _ _ Hrun Hnd) as Hskips.
  destruct Htal as [Hs Hf].
  { split; [by rewrite Hs0, Hzero|by rewrite Hf0, Hzero]. }
  simpl in Hs, Hf. rewrite Hs0, Hf0, (Hzero isSkip Hk), Hprog in *.
  unfold exportLogs, osExit, returnMain.
  destruct (length (mapRange (Completed (progress st))) =? 0)%nat; [done|].
  destruct (writeCSV env "reading_logs.csv" (mapRange (Completed (progress st))));
    [|done].
  intros _. simpl.
  match goal with |- context [runDeferred ?s] =>
    destruct (runDeferred_spec s) as (-> & _ & _); simpl end.
  exists (succeeded st), (failed st). split.
  { rewrite <- !app_assoc. apply elem_of_app. right. left. }
  rewrite <- !app_assoc, !countEv_app.
  assert (forall (f : Event -> bool) l, (forall path, f (EvRemove path) = false) ->
            countEv f (EvRemove <$> l) = 0%nat) as Hrem.
  { intros f l Hfr. unfold countEv. induction l as [|x l IH]; [done|].
    simpl. by rewrite Hfr. }
  rewrite !Hrem by done. unfold countEv in *. simpl. lia.
Qed.

(** [summary_adds_up] on a directory with a new image, one that failed
    before and one that is completed. *)
Lemma summary_adds_up_witness :
  findImages hostRetry "." = Ok ["a.png"; "b.png"; "c.png"]
  /\ NoDup (filepath_Base <$> ["a.png"; "b.png"; "c.png"])
  /\ status (main hostRetry) = 0
  /\ exists s f, EvSummary 3 s f 1 ∈ actions (main hostRetry) /\ (s + f + 1 = 3)%nat.
Proof.
  assert (NoDup (filepath_Base <$> ["a.png"; "b.png"; "c.png"])) as Hnd.
  { apply (bool_decide_unpack _). vm_compute. reflexivity. }
  split; [reflexivity|]. split; [exact Hnd|]. split; [reflexivity|].
  destruct (summary_adds_up hostRetry ["a.png"; "b.png"; "c.png"] eq_refl Hnd eq_refl)
    as (s & f & Hin & _ & _ & Hsum).
  exists s, f. split; [exact Hin|exact Hsum].
Defined.

(** * What a run does to the checkpoint state *)

Lemma markFailure_get (p : Progress) (baseName msg : string) (p' : Progress) :
  markFailure p baseName msg = Some p' ->
  Completed p' = Completed p
  /\ forall k, k <> baseName -> mapGet (Errors p') k = mapGet (Errors p) k.
Proof.
  unfold markFailure, mapAssign. destruct (Errors p) as [e|]; [|done].
  intros [= <-]. split; [done|]. intros k Hk. simpl. by rewrite lookup_insert_ne.
Qed.

Lemma markSuccess_get (p : Progress) (baseName : string) (log : ReadingLog)
    (p' : Progress) :
  markSuccess p baseName log = Some p' ->
  forall k, k <> baseName ->
    mapGet (Completed p') k = mapGet (Completed p) k
    /\ mapGet (Errors p') k = mapGet (Errors p) k.
Proof.
  unfold markSuccess, mapAssign. destruct (Completed p) as [c|]; [|done].
  intros [= <-] k Hk. simpl. rewrite lookup_insert_ne by done. split; [done|].
  destruct (Errors p) as [e|]; simpl; [|done]. by rewrite lookup_delete_ne.
Qed.

Lemma mapGet_mapHas {V : Type} (m : option (gmap string V)) (k : string) (v : V) :
  mapGet m k = Some v -> mapHas m k = true.
Proof.
  destruct m as [g|]; simpl; [|done]. intros Hk. apply bool_decide_eq_true. by eexists.
Qed.

Section Store.
Context (env : Env) (total skipped : nat).

(** The body of the loop leaves the state as it is, or marks the base
    name of its image, which was not completed, as failed or as
    successful. *)
Lemma processImage_progress i img st :
  progress (stateOf (processImage env total skipped i img st)) = progress st
  \/ (mapHas (Completed (progress st)) (filepath_Base img) = false
      /\ ((exists msg, markFailure (progress st) (filepath_Base img) msg
                       = Some (progress (stateOf (processImage env total skipped i img st))))
          \/ (exists log, markSuccess (progress st) (filepath_Base img) log
                          = Some (progress (stateOf (processImage env total skipped i img st)))))).
Proof.
  unfold processImage, convertHEICtoJPEG, failImage, completeImage.
  repeat (case_match; simplify_eq/=); eauto.
Qed.

Lemma processImage_frame i img st k :
  (forall log, mapGet (Completed (progress st)) k = Some log ->
     mapGet (Completed (progress (stateOf (processImage env total skipped i img st)))) k
     = Some log)
  /\ (k <> filepath_Base img ->
      mapGet (Completed (progress (stateOf (processImage env total skipped i img st)))) k
      = mapGet (Completed (progress st)) k
      /\ mapGet (Errors (progress (stateOf (processImage env total skipped i img st)))) k
         = mapGet (Errors (progress st)) k).
Proof.
  destruct (processImage_progress i img st) as [->|[Hnew [[msg Hm]|[log Hm]]]]; [done| |].
  - apply markFailure_get in Hm as [-> Herr]. split; [done|]. intros Hk. split; [done|].
    by apply Herr.
  - pose proof (markSuccess_get _ _ _ _ Hm) as Hget. split; [|by apply Hget].
    intros log' Hk. destruct (decide (k = filepath_Base img)) as [->|Hne].
    + apply mapGet_mapHas in Hk. congruence.
    + by rewrite (proj1 (Hget k Hne)).
Qed.

Lemma rangeImages_frame images : forall i st k,
  (forall log, mapGet (Completed (progress st)) k = Some log ->
     mapGet (Completed (progress (stateOf (rangeImages env total skipped i images st)))) k
     = Some log)
  /\ (k ∉ filepath_Base <$> images ->
      mapGet (Completed (progress (stateOf (rangeImages env total skipped i images st)))) k
      = mapGet (Completed (progress st)) k
      /\ mapGet (Errors (progress (stateOf (rangeImages env total skipped i images st)))) k
         = mapGet (Errors (progress st)) k).
Proof.
  induction images as [|img rest IH]; intros i st k; cbn [rangeImages]; [done|].
  destruct (processImage_frame i img st k) as [Hkeep Hframe].
  destruct (processImage env total skipped i img st) as [st1|st1 msg]; cbn [stateOf] in *.
  - destruct (IH (S i) st1 k) as [Hkeep' Hframe']. split.
    + intros log Hk. by apply Hkeep', Hkeep.
    + rewrite fmap_cons. intros [Hne Hnot]%not_elem_of_cons.
      destruct (Hframe Hne) as [<- <-]. by apply Hframe'.
  - split; [done|]. rewrite fmap_cons. intros [Hne _]%not_elem_of_cons. by apply Hframe.
Qed.

Lemma processImage_disjoint i img st :
  disjointMarks (progress st) ->
  disjointMarks (progress (stateOf (processImage env total skipped i img st))).
Proof.
  intros Hdis.
  destruct (processImage_progress i img st) as [->|[Hnew [[msg Hm]|[log Hm]]]]; [done| |].
  - apply markFailure_spec in Hm as [Hc Herr]. intros k [Hk He].
    rewrite Hc in Hk. apply Herr in He as [->|He]; [congruence|]. by apply (Hdis k).
  - apply markSuccess_spec in Hm as [Hcomp Herr]. intros k [Hk He].
    apply Herr in He as [Hne He]. apply Hcomp in Hk as [?|Hk]; [done|]. by apply (Hdis k).
Qed.

Lemma rangeImages_disjoint images : forall i st,
  disjointMarks (progress st) ->
  disjointMarks (progress (stateOf (rangeImages env total skipped i images st))).
Proof.
  induction images as [|img rest IH]; intros i st Hst; simpl; [done|].
  pose proof (processImage_disjoint i img st Hst) as H1.
  destruct (processImage env total skipped i img st) as [st1|st1 msg]; simpl in *; eauto.
Qed.

End Store.

Lemma main_memory (env : Env) (p : Progress) :
  memory (main env) = Some p ->
  exists images,
    findImages env "." = Ok images
    /\ p = progress (stateOf (batchLoop env images (loadProgress env).1
                                (EvBanner :: (loadProgress env).2)))
    /\ progress (startState (loadProgress env).1 (EvBanner :: (loadProgress env).2) images
                   (countSkipped (loadProgress env).1 images))
       = (loadProgress env).1.
Proof.
  destruct (findImages env ".") as [images|e] eqn:Hfind.
  2:{ unfold main. rewrite Hfind. done. }
  destruct (decide (images = [])) as [->|Hne].
  { unfold main. rewrite Hfind. done. }
  rewrite (main_batch env images Hfind Hne).
  destruct (runBatch_spec env images (loadProgress env).1 (EvBanner :: (loadProgress env).2))
    as (_ & _ & _ & _ & _ & _ & _ & _ & Hmem & _).
  rewrite Hmem. intros [= <-]. exists images. split; [done|]. split; [done|].
  by destruct (startState_spec (loadProgress env).1 (EvBanner :: (loadProgress env).2) images
              (countSkipped (loadProgress env).1 images)) as (_ & _ & _ & ? & _).
Qed.

(** X13: a run never drops or alters a record it loaded: every record
    of the loaded [completed] map is in the final one, unchanged; and
    it touches the state only at the base names of the images it found:
    under every other name both maps hold at the end what was loaded. *)
Theorem loaded_records_kept (env : Env) (p : Progress) :
  memory (main env) = Some p ->
  (forall k log,
     mapGet (Completed (loadProgress env).1) k = Some log ->
     mapGet (Completed p) k = Some log)
  /\ exists images,
       findImages env "." = Ok images
       /\ forall k, k ∉ filepath_Base <$> images ->
            mapGet (Completed p) k = mapGet (Completed (loadProgress env).1) k
            /\ mapGet (Errors p) k = mapGet (Errors (loadProgress env).1) k.
Proof.
  intros Hmem. destruct (main_memory env p Hmem) as (images & Hfind & -> & Hprog).
  unfold batchLoop. split.
  - intros k log Hk. apply rangeImages_frame. by rewrite Hprog.
  - exists images. split; [done|]. intros k Hk.
    destruct (rangeImages_frame env (length images)
                (countSkipped (loadProgress env).1 images) images 0
                (startState (loadProgress env).1 (EvBanner :: (loadProgress env).2) images
                   (countSkipped (loadProgress env).1 images)) k) as [_ Hframe].
    rewrite Hprog in Hframe. by apply Hframe.
Qed.

(** [loaded_records_kept] on a directory with a new image, one that
    failed before and one that is completed. *)
Lemma loaded_records_kept_witness :
  (exists p, memory (main hostRetry) = Some p
             /\ mapGet (Completed p) "c.png" = Some floraLog)
  /\ mapGet (Completed (loadProgress hostRetry).1) "c.png" = Some floraLog.
Proof.
  assert (mapGet (Completed (loadProgress hostRetry).1) "c.png" = Some floraLog) as Hc
    by (vm_compute; reflexivity).
  split; [|exact Hc].
  destruct (memory (main hostRetry)) as [p|] eqn:Hmem; [|vm_compute in Hmem; discriminate].
  exists p. split; [reflexivity|].
  exact (proj1 (loaded_records_kept hostRetry p Hmem) "c.png" floraLog Hc).
Defined.

(** X14: when no name is both completed and in error in the loaded
    state, none is in the state the run ends with. *)
Theorem marks_stay_disjoint (env : Env) (p : Progress) :
  disjointMarks (loadProgress env).1 ->
  memory (main env) = Some p ->
  disjointMarks p.
Proof.
  intros Hdis Hmem. destruct (main_memory env p Hmem) as (images & _ & -> & Hprog).
  unfold batchLoop. apply rangeImages_disjoint. by rewrite Hprog.
Qed.

(** [marks_stay_disjoint] on the same directory. *)
Lemma marks_stay_disjoint_witness :
  disjointMarks (loadProgress hostRetry).1
  /\ exists p, memory (main hostRetry) = Some p /\ disjointMarks p.
Proof.
  assert (disjointMarks (loadProgress hostRetry).1) as Hdis.
  { intros k [Hc He].
    destruct (decide (k = "b.png")) as [->|Hne].
    - vm_compute in Hc. discriminate.
    - revert He. change (mapHas (Some ({["b.png" := "API call failed: timeout"]}
                                       : gmap string string)) k = true -> False).
      simpl. rewrite bool_decide_eq_true, lookup_singleton_ne by done. by intros [? ?]. }
  split; [exact Hdis|].
  destruct (memory (main hostRetry)) as [p|] eqn:Hmem; [|vm_compute in Hmem; discriminate].
  exists p. split; [reflexivity|].
  exact (marks_stay_disjoint hostRetry p Hdis Hmem).
Defined.

(** * At most one attempt per image *)

Lemma occurrences_NoDup (img : string) (images : list string) :
  NoDup images -> (length (filter (fun f => f = img) images) <= 1)%nat.
Proof.
  induction 1 as [|f rest Hf Hnd IH]; [simpl; lia|].
  destruct (decide (f = img)) as [->|Hne].
  - rewrite filter_cons_True by done. simpl.
    assert (filter (fun f => f = img) rest = []) as ->; [|simpl; lia].
    clear IH Hnd. induction rest as [|g rest IH]; [done|].
    apply not_elem_of_cons in Hf as [Hg Hf].
    rewrite filter_cons_False by done. by apply IH.
  - by rewrite filter_cons_False.
Qed.

Section Once.
Context (env : Env) (total skipped : nat).

Lemma processImage_once i f st img :
  (countEv (isAttempt img) (trace (stateOf (processImage env total skipped i f st)))
   <= countEv (isAttempt img) (trace st) + (if decide (f = img) then 1 else 0))%nat
  /\ (countEv (isAPICall img) (trace (stateOf (processImage env total skipped i f st)))
      <= countEv (isAPICall img) (trace st) + (if decide (f = img) then 1 else 0))%nat.
Proof.
  assert (String.eqb f img = if decide (f = img) then true else false) as Heqb.
  { destruct (decide (f = img)) as [->|Hne]; [apply String.eqb_refl|].
    by apply String.eqb_neq. }
  unfold processImage, convertHEICtoJPEG, failImage, completeImage.
  repeat (case_match; simplify_eq/=).
  all: rewrite <- ?app_assoc, ?countEv_app; unfold countEv; simpl.
  all: rewrite ?Heqb; try rewrite decide_True by done; try rewrite decide_False by done.
  all: simpl; lia.
Qed.

Lemma rangeImages_once images : forall i st img,
  (countEv (isAttempt img) (trace (stateOf (rangeImages env total skipped i images st)))
   <= countEv (isAttempt img) (trace st) + length (filter (fun f => f = img) images))%nat
  /\ (countEv (isAPICall img) (trace (stateOf (rangeImages env total skipped i images st)))
      <= countEv (isAPICall img) (trace st) + length (filter (fun f => f = img) images))%nat.
Proof.
  induction images as [|f rest IH]; intros i st img; cbn [rangeImages].
  - simpl. lia.
  - destruct (processImage_once i f st img) as [Ha Hc].
    assert (length (filter (fun g => g = img) (f :: rest))
            = ((if decide (f = img) then 1 else 0)
               + length (filter (fun g => g = img) rest))%nat) as ->.
    { destruct (decide (f = img)); [by rewrite filter_cons_True|by rewrite filter_cons_False]. }
    destruct (processImage env total skipped i f st) as [st1|st1 msg]; cbn [stateOf] in *.
    + destruct (IH (S i) st1 img) as [Ha' Hc']. lia.
    + lia.
Qed.

End Once.

(** X15: in a run over a listing without repetition, the loop turns to
    an image at most once and sends it to the API at most once. *)
Theorem each_image_at_most_once (env : Env) (images : list string) (img : string) :
  findImages env "." = Ok images ->
  NoDup images ->
  (countEv (isAttempt img) (actions (main env)) <= 1)%nat
  /\ (countEv (isAPICall img) (actions (main env)) <= 1)%nat.
Proof.
  intros Hfind Hnd.
  destruct (decide (images = [])) as [->|Hne].
  { unfold main. rewrite Hfind. simpl. unfold countEv. simpl. lia. }
  rewrite (main_batch env images Hfind Hne).
  set (p := (loadProgress env).1). set (tr := EvBanner :: (loadProgress env).2).
  destruct (runBatch_spec env images p tr)
    as (pre & evs & post & Hact & Hstart & Htr & Hpre & Hpost & _).
  assert (forall ev, isAttempt img ev = true -> isFileEvent ev = true) as Hfa
    by (by intros [| | | | | |? []| | | | |]).
  assert (forall ev, isAPICall img ev = true -> isFileEvent ev = true) as Hfc
    by (by intros [| | | | | |? []| | | | |]).
  assert (filter (fun ev => isFileEvent ev = true) (tr ++ pre)%list = []) as Hnofile.
  { rewrite filter_app, Hpre, app_nil_r. apply loadProgress_prints. }
  destruct (rangeImages_once env (length images) (countSkipped p images) images 0
              (startState p tr images (countSkipped p images)) img) as [Ha Hc].
  fold (batchLoop env images p tr) in Ha, Hc.
  rewrite Htr, Hstart in Ha, Hc. rewrite !countEv_app in Ha, Hc.
  rewrite Hact, !countEv_app.
  pose proof (occurrences_NoDup img images Hnd) as Hocc.
  pose proof (countEv_no_file _ tr Hfa (loadProgress_prints env)).
  pose proof (countEv_no_file _ tr Hfc (loadProgress_prints env)).
  pose proof (countEv_no_file _ pre Hfa Hpre).
  pose proof (countEv_no_file _ pre Hfc Hpre).
  pose proof (countEv_no_file _ post Hfa Hpost).
  pose proof (countEv_no_file _ post Hfc Hpost).
  lia.
Qed.

(** [each_image_at_most_once] on a directory of three images. *)
Lemma each_image_at_most_once_witness :
  findImages hostRetry "." = Ok ["a.png"; "b.png"; "c.png"]
  /\ NoDup ["a.png"; "b.png"; "c.png"]
  /\ (countEv (isAPICall "b.png") (actions (main hostRetry)) <= 1)%nat.
Proof.
  assert (NoDup ["a.png"; "b.png"; "c.png"]) as Hnd.
  { apply (bool_decide_unpack _). vm_compute. reflexivity. }
  split; [reflexivity|]. split; [exact Hnd|].
  exact (proj2 (each_image_at_most_once hostRetry ["a.png"; "b.png"; "c.png"] "b.png"
                  eq_refl Hnd)).
Defined.

(** * Temporary files belong to HEIC images *)

Section Plain.
Context (env : Env) (total skipped : nat).

Lemma processImage_converts i img st f j :
  EvFile f (CreateTemp j) ∈ trace (stateOf (processImage env total skipped i img st))
  \/ EvFile f (RunSips j) ∈ trace (stateOf (processImage env total skipped i img st)) ->
  EvFile f (CreateTemp j) ∈ trace st \/ EvFile f (RunSips j) ∈ trace st
  \/ (f = img /\ isHEIC img = true).
Proof.
  unfold processImage, convertHEICtoJPEG, failImage, completeImage.
  repeat (case_match; simplify_eq/=).
  all: intros [Hin|Hin]; rewrite <- ?app_assoc in Hin; simpl in Hin.
  all: apply elem_of_app in Hin as [Hin|Hin]; [by eauto|].
  all: repeat (apply elem_of_cons in Hin as [Hin|Hin]; [simplify_eq; eauto|]).
  all: by apply elem_of_nil in Hin.
Qed.

Lemma rangeImages_converts images : forall i st f j,
  EvFile f (CreateTemp j) ∈ trace (stateOf (rangeImages env total skipped i images st))
  \/ EvFile f (RunSips j) ∈ trace (stateOf (rangeImages env total skipped i images st)) ->
  EvFile f (CreateTemp j) ∈ trace st \/ EvFile f (RunSips j) ∈ trace st
  \/ isHEIC f = true.
Proof.
  induction images as [|img rest IH]; intros i st f j; cbn [rangeImages].
  { intros [?|?]; eauto. }
  pose proof (processImage_converts i img st f j) as Hone.
  destruct (processImage env total skipped i img st) as [st1|st1 msg]; cbn [stateOf] in *.
  - intros Hin. apply IH in Hin.
    destruct Hin as [Hin|[Hin|Hin]]; [| |by eauto].
    + destruct (Hone (or_introl Hin)) as [?|[?|[-> ?]]]; eauto.
    + destruct (Hone (or_intror Hin)) as [?|[?|[-> ?]]]; eauto.
  - intros Hin. destruct (Hone Hin) as [?|[?|[-> ?]]]; eauto.
Qed.

Lemma processImage_plain i img st :
  isHEIC img = false ->
  tmpfiles (stateOf (processImage env total skipped i img st)) = tmpfiles st
  /\ deferred (stateOf (processImage env total skipped i img st)) = deferred st
  /\ countEv isTempEvent (trace (stateOf (processImage env total skipped i img st)))
     = countEv isTempEvent (trace st).
Proof.
  intros Hplain. unfold processImage. rewrite Hplain.
  unfold failImage, completeImage.
  repeat (case_match; simplify_eq/=).
  all: split; [done|]; split; [done|].
  all: rewrite <- ?app_assoc, ?countEv_app; unfold countEv; simpl; lia.
Qed.

Lemma rangeImages_plain images : forall i st,
  Forall (fun img => isHEIC img = false) images ->
  tmpfiles (stateOf (rangeImages env total skipped i images st)) = tmpfiles st
  /\ deferred (stateOf (rangeImages env total skipped i images st)) = deferred st
  /\ countEv isTempEvent (trace (stateOf (rangeImages env total skipped i images st)))
     = countEv isTempEvent (trace st).
Proof.
  induction images as [|img rest IH]; intros i st Hall; cbn [rangeImages]; [done|].
  apply Forall_cons in Hall as [Himg Hrest].
  destruct (processImage_plain i img st Himg) as (Ht & Hd & Hc).
  destruct (processImage env total skipped i img st) as [st1|st1 msg]; cbn [stateOf] in *.
  - destruct (IH (S i) st1 Hrest) as (-> & -> & ->). done.
  - done.
Qed.

End Plain.

(** X16: only HEIC images get a temporary file: a file is created and
    [sips] is run only for an image with the [.heic] extension; and a
    run over a listing without HEIC images creates, converts and removes
    nothing and leaves no temporary file, whatever its exit status. *)
Theorem only_heic_uses_temp_files (env : Env) :
  (forall img j,
     EvFile img (CreateTemp j) ∈ actions (main env)
     \/ EvFile img (RunSips j) ∈ actions (main env) ->
     isHEIC img = true)
  /\ (forall images,
        findImages env "." = Ok images ->
        Forall (fun img => isHEIC img = false) images ->
        leftover (main env) = []
        /\ countEv isTempEvent (actions (main env)) = 0%nat).
Proof.
  destruct (findImages env ".") as [images|e] eqn:Hfind.
  2:{ unfold main. rewrite Hfind. simpl. split; [|done].
      intros img j [Hin|Hin];
        repeat (apply elem_of_cons in Hin as [?|Hin]; [done|]); by apply elem_of_nil in Hin. }
  destruct (decide (images = [])) as [->|Hne].
  { unfold main. rewrite Hfind. simpl. split.
    - intros img j [Hin|Hin];
        repeat (apply elem_of_cons in Hin as [?|Hin]; [done|]); by apply elem_of_nil in Hin.
    - intros images [= <-] _. done. }
  rewrite (main_batch env images Hfind Hne).
  set (p := (loadProgress env).1). set (tr := EvBanner :: (loadProgress env).2).
  destruct (startState_spec p tr images (countSkipped p images))
    as (pre & Hstart & Hpre & Hprog & Hdef & Htmp).
  assert (filter (fun ev => isFileEvent ev = true) (tr ++ pre)%list = []) as Hnofile.
  { rewrite filter_app, Hpre, app_nil_r. apply loadProgress_prints. }
  split.
  - destruct (runBatch_spec env images p tr)
      as (pre' & evs & post & Hact & Hstart' & Htr & _ & Hpost & _).
    intros img j Hin.
    assert (EvFile img (CreateTemp j) ∈ trace (stateOf (batchLoop env images p tr))
            \/ EvFile img (RunSips j) ∈ trace (stateOf (batchLoop env images p tr))) as Hloop.
    { rewrite Htr, Hstart'. rewrite Hact, !elem_of_app in Hin. rewrite !elem_of_app.
      destruct Hin as [[?|[?|[?|Hin]]]|[?|[?|[?|Hin]]]]; eauto.
      all: by apply (no_file_event _ _ _ Hpost) in Hin. }
    apply rangeImages_converts in Hloop. rewrite Hstart in Hloop.
    destruct Hloop as [Hin'|[Hin'|?]]; [| |done].
    all: by apply (no_file_event _ _ _ Hnofile) in Hin'.
  - intros images' [= <-] Hall. unfold runBatch.
    destruct (rangeImages_plain env (length images) (countSkipped p images) images 0
                (startState p tr images (countSkipped p images)) Hall) as (Ht & Hd & Hc).
    rewrite Htmp in Ht. rewrite Hdef in Hd.
    assert (countEv isTempEvent (trace (startState p tr images (countSkipped p images)))
            = 0%nat) as Hzero.
    { subst p tr. unfold startState, loadProgress. by repeat case_match. }
    rewrite Hzero in Hc.
    destruct (rangeImages env (length images) (countSkipped p images) 0 images
                (startState p tr images (countSkipped p images))) as [st|st msg];
      cbn [stateOf] in *.
    + unfold exportLogs, osExit, returnMain, runDeferred.
      repeat case_match; simpl; rewrite ?Hd; simpl.
      all: rewrite <- ?app_assoc, ?countEv_app, ?Hc; done.
    + unfold panicExit, runDeferred. simpl. rewrite Hd. simpl. done.
Qed.

(** * The outcome of the checkpoint writes *)

Lemma besidesWrites_app (tr evs : list Event) :
  besidesWrites (tr ++ evs) = (besidesWrites tr ++ besidesWrites evs)%list.
Proof. apply List.filter_app. Qed.

Lemma writeRows_withWriteFile (env : Env) (w : string -> Progress -> result unit)
    (logs : list ReadingLog) :
  writeRows (withWriteFile env w) logs = writeRows env logs.
Proof.
  induction logs as [|log rest IH]; [done|]. simpl.
  destruct (csv_Write env (csvRow log)); [exact IH|done].
Qed.

Section Blind.
Context (env : Env) (w : string -> Progress -> result unit) (total skipped : nat).

Lemma processImage_blind i img st1 st2 :
  sameButWrites st1 st2 ->
  sameFlow (processImage (withWriteFile env w) total skipped i img st1)
    (processImage env total skipped i img st2).
Proof.
  destruct st1 as [p1 s1 f1 d1 t1 n1 tr1], st2 as [p2 s2 f2 d2 t2 n2 tr2].
  unfold sameButWrites. simpl. intros (-> & -> & -> & -> & -> & -> & Htr).
  unfold processImage, convertHEICtoJPEG, failImage, completeImage, saveProgress,
    sameFlow, sameButWrites.
  change (encodeImage (withWriteFile env w)) with (encodeImage env).
  change (parseReadingLog (withWriteFile env w)) with (parseReadingLog env).
  simpl.
  repeat (case_match; simplify_eq/=).
  all: rewrite <- ?app_assoc, ?besidesWrites_app, ?Htr; done.
Qed.

Lemma rangeImages_blind images : forall i st1 st2,
  sameButWrites st1 st2 ->
  sameFlow (rangeImages (withWriteFile env w) total skipped i images st1)
    (rangeImages env total skipped i images st2).
Proof.
  induction images as [|img rest IH]; intros i st1 st2 Hsame; cbn [rangeImages]; [done|].
  pose proof (processImage_blind i img st1 st2 Hsame) as Hone.
  destruct (processImage (withWriteFile env w) total skipped i img st1) as [a|a m],
    (processImage env total skipped i img st2) as [b|b m']; simpl in Hone; try done.
  by apply IH.
Qed.

End Blind.

(** X17: how the writes of the checkpoint file go steers nothing: on
    two hosts that differ only in the outcomes of those writes, the run
    ends with the same status, the same state in memory, and the same
    temporary files left, and it prints and does the same, apart from
    the save outcomes themselves and the warnings that report them. *)
Theorem checkpoint_writes_steer_nothing (env : Env)
    (w : string -> Progress -> result unit) :
  status (main (withWriteFile env w)) = status (main env)
  /\ memory (main (withWriteFile env w)) = memory (main env)
  /\ leftover (main (withWriteFile env w)) = leftover (main env)
  /\ besidesWrites (actions (main (withWriteFile env w))) = besidesWrites (actions (main env)).
Proof.
  unfold main.
  change (findImages (withWriteFile env w) ".") with (findImages env ".").
  change (loadProgress (withWriteFile env w)) with (loadProgress env).
  destruct (findImages env ".") as [images|e]; [|done].
  destruct (length images =? 0)%nat; [done|].
  destruct (loadProgress env) as [p warnings].
  unfold runBatch.
  pose proof (rangeImages_blind env w (length images) (countSkipped p images) images 0
                (startState p (EvBanner :: warnings) images (countSkipped p images))
                (startState p (EvBanner :: warnings) images (countSkipped p images))) as Hloop.
  destruct (rangeImages (withWriteFile env w) _ _ _ _ _) as [st1|st1 m1],
    (rangeImages env _ _ _ _ _) as [st2|st2 m2]; simpl in Hloop.
  - destruct Hloop as (Hp & Hs & Hf & Hd & Ht & Hn & Htr); [by repeat split|].
    unfold exportLogs, writeCSV. simpl. rewrite writeRows_withWriteFile, Hp.
    unfold osExit, returnMain.
    repeat case_match; simpl; try done.
    all: repeat match goal with |- context [runDeferred ?s] =>
           let H1 := fresh in let H2 := fresh in let H3 := fresh in
           destruct (runDeferred_spec s) as (H1 & H2 & H3); rewrite ?H1, ?H2, ?H3; clear H1 H2 H3
         end; simpl.
    all: rewrite <- ?app_assoc, ?besidesWrites_app, ?Hp, ?Hs, ?Hf, ?Hd, ?Ht, ?Htr; done.
  - destruct Hloop; by repeat split.
  - destruct Hloop; by repeat split.
  - destruct Hloop as [(Hp & Hs & Hf & Hd & Ht & Hn & Htr) ->]; [by repeat split|].
    unfold panicExit. simpl.
    destruct (runDeferred_spec st1) as (-> & -> & ->).
    destruct (runDeferred_spec st2) as (-> & -> & ->).
    rewrite !besidesWrites_app, Hp, Hd, Ht, Htr. done.
Qed.

(** X18: the exit-status contract holds for every run whose loaded
    state has both maps allocated: the status is 1 when the directory
    cannot be read, holds no image, no record is completed at the end of
    the loop, or the CSV file cannot be written, and 0 otherwise. *)
Theorem exit_contract_when_allocated (env : Env) :
  allocated (loadProgress env).1 ->
  (status (main env) = 1 <-> exitOneConditions env)
  /\ (status (main env) = 0 <-> ~ exitOneConditions env).
Proof.
  intros Halloc. pose proof (no_panic_when_allocated env Halloc) as Hno2.
  destruct (exit_status env) as (Hrange & Hone & _).
  split; [exact Hone|]. rewrite <- Hone. split; [intros ->; done|].
  intros Hnot1. destruct Hrange as [?|[?|?]]; done.
Qed.

(** [exit_contract_when_allocated] on a run that succeeds and on one
    whose only image fails. *)
Lemma exit_contract_when_allocated_witness :
  allocated (loadProgress hostAllGood).1
  /\ ~ exitOneConditions hostAllGood
  /\ allocated (loadProgress hostApiDownSaveRefused).1
  /\ exitOneConditions hostApiDownSaveRefused.
Proof.
  assert (allocated (loadProgress hostAllGood).1) as H1
    by (split; eexists; reflexivity).
  assert (allocated (loadProgress hostApiDownSaveRefused).1) as H2
    by (split; eexists; reflexivity).
  split; [exact H1|]. split.
  - apply (proj2 (exit_contract_when_allocated hostAllGood H1)). reflexivity.
  - split; [exact H2|].
    apply (proj1 (exit_contract_when_allocated hostApiDownSaveRefused H2)). reflexivity.
Defined.


(** [temps_removed_unless_exit_1] on a run that converts a HEIC and
    returns. *)
Lemma temps_removed_unless_exit_1_witness :
  status (main hostHeicThenPng) <> 1
  /\ EvFile "a.heic" (CreateTemp "/tmp/reading-log-0.jpg") ∈ actions (main hostHeicThenPng)
  /\ leftover (main hostHeicThenPng) = [].
Proof.
  assert (status (main hostHeicThenPng) <> 1) as Hst by (vm_compute; discriminate).
  split; [exact Hst|]. split.
  - vm_compute. repeat first [left | right].
  - exact (temps_removed_unless_exit_1 hostHeicThenPng Hst).
Defined.

(** [successes_stay_clean] on the retry of an image that failed in an
    earlier run. *)
Lemma successes_stay_clean_witness :
  mapHas (Errors (loadProgress hostRetry).1) "b.png" = true
  /\ EvFile "b.png" (MarkSuccess "b.png" floraLog) ∈ actions (main hostRetry)
  /\ exists p, memory (main hostRetry) = Some p
               /\ mapHas (Completed p) "b.png" = true /\ mapHas (Errors p) "b.png" = false.
Proof.
  assert (EvFile "b.png" (MarkSuccess "b.png" floraLog) ∈ actions (main hostRetry)) as Hin.
  { vm_compute. repeat first [left | right]. }
  split; [vm_compute; reflexivity|]. split; [exact Hin|].
  exact (successes_stay_clean hostRetry "b.png" "b.png" floraLog Hin).
Defined.

Lemma mapRange_elem {V : Type} (m : option (gmap string V)) (k : string) (v : V) :
  mapGet m k = Some v -> v ∈ mapRange m.
Proof.
  destruct m as [g|]; simpl; [|done]. intros Hk.
  apply list_elem_of_fmap. exists (k, v). split; [done|]. by apply elem_of_map_to_list.
Qed.

(** X19: a run that ends with status 0 has created [reading_logs.csv]
    and written the header and one row for every record of the
    [completed] map it ends with; the records loaded from earlier runs
    are among them, and the last line reports their number, which is
    not 0. *)
Theorem status_0_exports_every_record (env : Env) :
  status (main env) = 0 ->
  exists p,
    memory (main env) = Some p
    /\ os_Create env "reading_logs.csv" = Ok tt
    /\ csv_Write env csvHeader = Ok tt
    /\ (forall k log, mapGet (Completed p) k = Some log ->
          csv_Write env (csvRow log) = Ok tt)
    /\ (forall k log, mapGet (Completed (loadProgress env).1) k = Some log ->
          csv_Write env (csvRow log) = Ok tt)
    /\ EvWrote (mapLen (Completed p)) ∈ actions (main env)
    /\ (0 < mapLen (Completed p))%nat.
Proof.
  destruct (findImages env ".") as [images|e] eqn:Hfind.
  2:{ unfold main. rewrite Hfind. done. }
  destruct (decide (images = [])) as [->|Hne].
  { unfold main. rewrite Hfind. done. }
  rewrite (main_batch env images Hfind Hne).
  set (p0 := (loadProgress env).1). set (tr := EvBanner :: (loadProgress env).2).
  destruct (startState_spec p0 tr images (countSkipped p0 images))
    as (pre & _ & _ & Hprog & _).
  unfold runBatch.
  pose proof (fun k => proj1 (rangeImages_frame env (length images) (countSkipped p0 images)
                                images 0 (startState p0 tr images (countSkipped p0 images)) k))
    as Hkept.
  rewrite Hprog in Hkept.
  destruct (rangeImages env (length images) (countSkipped p0 images) 0 images
              (startState p0 tr images (countSkipped p0 images))) as [st|st msg];
    cbn [stateOf] in *.
  2:{ unfold panicExit. simpl. done. }
  unfold exportLogs, osExit, returnMain. rewrite mapRange_length.
  destruct (mapLen (Completed (progress st)) =? 0)%nat eqn:Hlen; [done|].
  apply Nat.eqb_neq in Hlen.
  destruct (writeCSV env "reading_logs.csv" (mapRange (Completed (progress st))))
    as [[]|e] eqn:Hcsv; [|done].
  intros _. simpl.
  match goal with |- context [runDeferred ?s] =>
    destruct (runDeferred_spec s) as (-> & -> & _); simpl end.
  unfold writeCSV in Hcsv.
  destruct (os_Create env "reading_logs.csv") as [[]|e]; [|done].
  destruct (csv_Write env csvHeader) as [[]|e]; [|done].
  pose proof (proj1 (writeRows_ok env _) Hcsv) as Hrows.
  exists (progress st). split; [done|]. split; [done|]. split; [done|].
  split; [|split; [|split; [|lia]]].
  - intros k log Hk. apply Hrows. by apply (mapRange_elem _ k).
  - intros k log Hk. apply Hrows. apply (mapRange_elem _ k). by apply Hkept.
  - rewrite <- !app_assoc. apply elem_of_app. right. right. left.
Qed.

(** [status_0_exports_every_record] on a directory with a new image,
    one that failed before and one that is completed. *)
Lemma status_0_exports_every_record_witness :
  status (main hostRetry) = 0
  /\ exists p, memory (main hostRetry) = Some p
               /\ EvWrote (mapLen (Completed p)) ∈ actions (main hostRetry)
               /\ (0 < mapLen (Completed p))%nat.
Proof.
  split; [reflexivity|].
  destruct (status_0_exports_every_record hostRetry eq_refl)
    as (p & Hmem & _ & _ & _ & _ & Hwrote & Hpos).
  exists p. split; [exact Hmem|]. split; [exact Hwrote|exact Hpos].
Defined.

(** * Every file read has a media type *)

Lemma imageExts_mediaTypes (ext : string) :
  imageExts ext = true -> ext <> ".heic" -> is_Some (mediaTypes ext).
Proof.
  unfold imageExts, mediaTypes. simpl. intros Hext Hne.
  destruct (String.eqb_spec ext ".jpg"); [by eexists|].
  destruct (String.eqb_spec ext ".jpeg"); [by eexists|].
  destruct (String.eqb_spec ext ".png"); [by eexists|].
  destruct (String.eqb_spec ext ".gif"); [by eexists|].
  destruct (String.eqb_spec ext ".webp"); [by eexists|].
  destruct (String.eqb_spec ext ".heic"); done.
Qed.

Lemma list_ascii_of_append (s t : string) :
  list_ascii_of_string (s +:+ t) = (list_ascii_of_string s ++ list_ascii_of_string t)%list.
Proof.
  induction s as [|c s IH]; [done|].
  change (String c s +:+ t) with (String c (s +:+ t)). simpl. by rewrite IH.
Qed.

Lemma filepath_Ext_jpg (s t : string) : filepath_Ext (s +:+ t +:+ ".jpg") = ".jpg".
Proof.
  unfold filepath_Ext. rewrite !list_ascii_of_append, !rev_app_distr. reflexivity.
Qed.

Section Reads.
Context (env : Env) (total skipped : nat).

(** What the loop reads for an image is the image itself, unless it is
    a HEIC, or the file [os.CreateTemp] made for its conversion. *)
Lemma processImage_reads i img st f path :
  EvFile f (ReadImage path) ∈ trace (stateOf (processImage env total skipped i img st)) ->
  EvFile f (ReadImage path) ∈ trace st
  \/ (path = img /\ isHEIC img = false)
  \/ exists n, os_CreateTemp env n = Ok path.
Proof.
  unfold processImage, convertHEICtoJPEG, failImage, completeImage.
  repeat (case_match; simplify_eq/=).
  all: intros Hin; rewrite <- ?app_assoc in Hin; simpl in Hin.
  all: apply elem_of_app in Hin as [Hin|Hin]; [by eauto|].
  all: repeat (apply elem_of_cons in Hin as [Hin|Hin]; [simplify_eq; by eauto|]).
  all: by apply elem_of_nil in Hin.
Qed.

Lemma rangeImages_reads images : forall i st f path,
  EvFile f (ReadImage path) ∈ trace (stateOf (rangeImages env total skipped i images st)) ->
  EvFile f (ReadImage path) ∈ trace st
  \/ (path ∈ images /\ isHEIC path = false)
  \/ exists n, os_CreateTemp env n = Ok path.
Proof.
  induction images as [|img rest IH]; intros i st f path; cbn [rangeImages]; [by left|].
  pose proof (processImage_reads i img st f path) as Hone.
  destruct (processImage env total skipped i img st) as [st1|st1 msg]; cbn [stateOf] in *.
  - intros Hin. destruct (IH (S i) st1 f path Hin) as [Hin1|[[Hp Hh]|Ht]].
    + destruct (Hone Hin1) as [?|[[-> ?]|?]]; eauto.
      right. left. split; [left|done].
    + right. left. split; [by right|done].
    + eauto.
  - intros Hin. destruct (Hone Hin) as [?|[[-> ?]|?]]; eauto.
    right. left. split; [left|done].
Qed.

End Reads.

(** X20: when the files [os.CreateTemp] makes carry the [.jpg]
    extension of its pattern, every path a run hands to [encodeImage]
    has a media type in its table, so that [encodeImage] fails only when
    the file cannot be read: the error for an unsupported image type is
    never met. *)
Theorem every_read_has_a_media_type (env : Env) (img path : string) :
  (forall n jpgPath, os_CreateTemp env n = Ok jpgPath ->
     strings_ToLower (filepath_Ext jpgPath) = ".jpg") ->
  EvFile img (ReadImage path) ∈ actions (main env) ->
  is_Some (mediaTypes (strings_ToLower (filepath_Ext path)))
  /\ (forall e, encodeImage env path = Err e -> io_ReadAll env path = Err e).
Proof.
  intros Htemp Hin.
  assert (is_Some (mediaTypes (strings_ToLower (filepath_Ext path)))) as Hmt.
  2:{ split; [done|]. intros e. unfold encodeImage.
      destruct (io_ReadAll env path) as [data|e']; [|by intros [= ->]].
      destruct Hmt as [mt ->]. done. }
  revert Hin.
  destruct (findImages env ".") as [images|e] eqn:Hfind.
  2:{ unfold main. rewrite Hfind. simpl. intros Hin.
      repeat (apply elem_of_cons in Hin as [?|Hin]; [done|]). by apply elem_of_nil in Hin. }
  destruct (decide (images = [])) as [->|Hne].
  { unfold main. rewrite Hfind. simpl. intros Hin.
    repeat (apply elem_of_cons in Hin as [?|Hin]; [done|]). by apply elem_of_nil in Hin. }
  rewrite (main_batch env images Hfind Hne).
  set (p := (loadProgress env).1). set (tr := EvBanner :: (loadProgress env).2).
  destruct (runBatch_spec env images p tr)
    as (pre & evs & post & Hact & Hstart & Htr & Hpre & Hpost & _).
  rewrite Hact. intros Hin.
  assert (EvFile img (ReadImage path) ∈ trace (stateOf (batchLoop env images p tr))) as Hloop.
  { rewrite Htr, Hstart. rewrite !elem_of_app in Hin. rewrite !elem_of_app.
    destruct Hin as [?|[?|[?|Hin]]]; eauto.
    by apply (no_file_event _ _ _ Hpost) in Hin. }
  apply rangeImages_reads in Hloop as [Hold|[[Hp Hplain]|[n Hn]]].
  - exfalso. rewrite Hstart in Hold. apply elem_of_app in Hold as [Hold|Hold].
    + by apply (no_file_event _ _ _ (loadProgress_prints env)) in Hold.
    + by apply (no_file_event _ _ _ Hpre) in Hold.
  - unfold findImages in Hfind.
    destruct (os_ReadDir env ".") as [entries|e]; [|done].
    rewrite (findImages_fold "." entries []) in Hfind. injection Hfind as <-.
    simpl in Hp. apply list_elem_of_fmap in Hp as (name & -> & Hname).
    apply list_elem_of_fmap in Hname as (e & -> & He).
    apply list_elem_of_filter in He as [He _].
    change (filepath_Join "." (Name e)) with (Name e) in *.
    unfold isImageEntry in He. apply andb_true_iff in He as [_ He].
    apply imageExts_mediaTypes; [done|].
    unfold isHEIC in Hplain. by apply String.eqb_neq in Hplain.
  - rewrite (Htemp n path Hn). by eexists.
Qed.

(** [every_read_has_a_media_type] on a run that converts a HEIC and
    reads the converted file. *)
Lemma every_read_has_a_media_type_witness :
  (forall n jpgPath, os_CreateTemp hostHeicThenPng n = Ok jpgPath ->
     strings_ToLower (filepath_Ext jpgPath) = ".jpg")
  /\ EvFile "a.heic" (ReadImage "/tmp/reading-log-0.jpg") ∈ actions (main hostHeicThenPng)
  /\ is_Some (mediaTypes (strings_ToLower (filepath_Ext "/tmp/reading-log-0.jpg"))).
Proof.
  assert (forall n jpgPath, os_CreateTemp hostHeicThenPng n = Ok jpgPath ->
            strings_ToLower (filepath_Ext jpgPath) = ".jpg") as Htemp.
  { intros n jpgPath [= <-]. by rewrite filepath_Ext_jpg. }
  assert (EvFile "a.heic" (ReadImage "/tmp/reading-log-0.jpg")
            ∈ actions (main hostHeicThenPng)) as Hin.
  { vm_compute. repeat first [left | right]. }
  split; [exact Htemp|]. split; [exact Hin|].
  exact (proj1 (every_read_has_a_media_type hostHeicThenPng "a.heic"
                  "/tmp/reading-log-0.jpg" Htemp Hin)).
Defined.

(** * Saving what was marked *)

Lemma stateAfter_no_file (p : Progress) (tr : list Event) :
  filter (fun ev => isFileEvent ev = true) tr = [] -> stateAfter p tr = p.
Proof.
  unfold stateAfter. induction tr as [|ev tr IH]; intros Hf; [done|].
  destruct ev; simpl in *;
    try (rewrite filter_cons_False in Hf by (simpl; congruence); by apply IH).
  rewrite filter_cons_True in Hf by done. discriminate.
Qed.

Lemma savedAsMarked_no_file (p : Progress) (tr : list Event) :
  filter (fun ev => isFileEvent ev = true) tr = [] -> savedAsMarked p tr.
Proof.
  induction tr as [|ev tr IH]; intros Hf; [done|].
  destruct ev; simpl in *;
    try (rewrite filter_cons_False in Hf by (simpl; congruence); by apply IH).
  rewrite filter_cons_True in Hf by done. discriminate.
Qed.

(** A trace that does not end on a mark can be continued from the state
    it leads to. *)
Lemma savedAsMarked_app (tr evs : list Event) : forall p,
  savedAsMarked p (tr ++ [EvBanner]) ->
  savedAsMarked (stateAfter p tr) evs ->
  savedAsMarked p (tr ++ evs).
Proof.
  induction tr as [|ev tr IH]; intros p Htr Hevs; [done|].
  rewrite <- app_comm_cons in *.
  destruct ev as [| | | | | |f a| | | | |]; try (by apply IH).
  destruct a; try (by apply IH).
  - cbn [savedAsMarked] in *. unfold stateAfter in Hevs. cbn [foldl applyMark] in Hevs.
    destruct (markFailure p baseName msg) as [p'|]; [|done].
    destruct tr as [|[| | | | | |f' a'| | | | |] tr]; try done.
    destruct a'; try done. by apply IH.
  - cbn [savedAsMarked] in *. unfold stateAfter in Hevs. cbn [foldl applyMark] in Hevs.
    destruct (markSuccess p baseName log) as [p'|]; [|done].
    destruct tr as [|[| | | | | |f' a'| | | | |] tr]; try done.
    destruct a'; try done. by apply IH.
  - cbn [savedAsMarked] in *. destruct Htr as [-> Htr]. split; [done|]. by apply IH.
Qed.

Lemma savedAsMarked_extend (p0 p p' : Progress) (tr evs evs' : list Event) :
  savedAsMarked p0 (tr ++ [EvBanner]) /\ stateAfter p0 tr = p ->
  evs' = (evs ++ [EvBanner])%list ->
  savedAsMarked p evs' ->
  stateAfter p evs = p' ->
  savedAsMarked p0 (tr ++ evs') /\ stateAfter p0 (tr ++ evs) = p'.
Proof.
  intros [Htr <-] -> Hevs <-. split.
  - by apply savedAsMarked_app.
  - unfold stateAfter. by rewrite foldl_app.
Qed.

Section Saved.
Context (env : Env) (total skipped : nat) (p0 : Progress).

Lemma processImage_savedAsMarked i img st :
  savedAsMarked p0 (trace st ++ [EvBanner]) /\ stateAfter p0 (trace st) = progress st ->
  savedAsMarked p0 (trace (stateOf (processImage env total skipped i img st)) ++ [EvBanner])
  /\ stateAfter p0 (trace (stateOf (processImage env total skipped i img st)))
     = progress (stateOf (processImage env total skipped i img st)).
Proof.
  intros Hst.
  unfold processImage, convertHEICtoJPEG, failImage, completeImage, saveProgress.
  repeat (case_match; simplify_eq/=).
  all: rewrite <- ?app_assoc; cbn [app].
  all: eapply savedAsMarked_extend; [exact Hst|reflexivity| |].
  all: unfold stateAfter; cbn [app savedAsMarked foldl applyMark].
  all: repeat match goal with
       | H : markFailure _ _ _ = Some _ |- _ => rewrite H
       | H : markSuccess _ _ _ = Some _ |- _ => rewrite H
       end.
  all: done.
Qed.

Lemma rangeImages_savedAsMarked images : forall i st,
  savedAsMarked p0 (trace st ++ [EvBanner]) /\ stateAfter p0 (trace st) = progress st ->
  savedAsMarked p0 (trace (stateOf (rangeImages env total skipped i images st)) ++ [EvBanner])
  /\ stateAfter p0 (trace (stateOf (rangeImages env total skipped i images st)))
     = progress (stateOf (rangeImages env total skipped i images st)).
Proof.
  induction images as [|img rest IH]; intros i st Hst; cbn [rangeImages]; [done|].
  pose proof (processImage_savedAsMarked i img st Hst) as H1.
  destruct (processImage env total skipped i img st) as [st1|st1 msg]; cbn [stateOf] in *;
    eauto.
Qed.

End Saved.

(** X21: in every run, each mark of a success or of a failure goes
    through and is directly followed by a call of [saveProgress]; and
    every call of [saveProgress] is handed the state as the marks made
    so far left it, starting from the loaded state: what is saved is the
    state just marked. *)
Theorem marks_saved_as_marked (env : Env) :
  savedAsMarked (loadProgress env).1 (actions (main env)).
Proof.
  destruct (findImages env ".") as [images|e] eqn:Hfind.
  2:{ unfold main. rewrite Hfind. done. }
  destruct (decide (images = [])) as [->|Hne].
  { unfold main. rewrite Hfind. done. }
  rewrite (main_batch env images Hfind Hne).
  set (p := (loadProgress env).1). set (tr := EvBanner :: (loadProgress env).2).
  destruct (runBatch_spec env images p tr)
    as (pre & evs & post & Hact & Hstart & Htr & Hpre & Hpost & _).
  destruct (startState_spec p tr images (countSkipped p images))
    as (_ & _ & _ & Hprog & _).
  assert (filter (fun ev => isFileEvent ev = true) (tr ++ pre)%list = []) as Hnofile.
  { rewrite filter_app, Hpre, app_nil_r. apply loadProgress_prints. }
  destruct (rangeImages_savedAsMarked env (length images) (countSkipped p images) p images 0
              (startState p tr images (countSkipped p images))) as [Hsaved Hstate].
  { rewrite Hstart, Hprog. split.
    - apply savedAsMarked_no_file. by rewrite filter_app, Hnofile.
    - by apply stateAfter_no_file. }
  fold (batchLoop env images p tr) in Hsaved, Hstate.
  rewrite Htr, Hstart in Hsaved, Hstate.
  replace (tr ++ pre ++ evs ++ post)%list with (((tr ++ pre) ++ evs) ++ post)%list in Hact
    by (by rewrite <- !app_assoc).
  rewrite Hact. apply savedAsMarked_app; [exact Hsaved|].
  by apply savedAsMarked_no_file.
Qed.

(** * A first run in which every step succeeds *)

Lemma lastSaved_app (p : Progress) (tr evs : list Event) :
  lastSaved p (tr ++ evs) = lastSaved (lastSaved p tr) evs.
Proof. apply foldl_app. Qed.

Lemma findImages_scanned (env : Env) (images : list string) :
  findImages env "." = Ok images ->
  Forall (fun img => imageExts (strings_ToLower (filepath_Ext img)) = true) images.
Proof.
  unfold findImages. destruct (os_ReadDir env ".") as [entries|e]; [|done].
  rewrite (findImages_fold "." entries []). intros [= <-].
  apply Forall_forall. intros img Hin. simpl in Hin.
  apply list_elem_of_fmap in Hin as (name & -> & Hname).
  apply list_elem_of_fmap in Hname as (e & -> & He).
  apply list_elem_of_filter in He as [He _].
  change (filepath_Join "." (Name e)) with (Name e).
  unfold isImageEntry in He. by apply andb_true_iff in He as [_ He].
Qed.

Section FirstRun.
Context (env : Env) (total skipped : nat) (p0 : Progress).
Hypothesis Hextract : extractionAlwaysSucceeds env.
Hypothesis Hsaves : savesSucceed env.
Hypothesis Hnormalize : normalizationSucceeds env.
Hypothesis Hreads : readsSucceed env.

Lemma encodeImage_succeeds (path : string) :
  is_Some (mediaTypes (strings_ToLower (filepath_Ext path))) ->
  exists mediaType encoded, encodeImage env path = Ok (mediaType, encoded).
Proof.
  intros [mt Hmt]. unfold encodeImage. destruct (Hreads path) as [data ->].
  rewrite Hmt. eauto.
Qed.

(** The state the loop body leaves after reading [path] for [img], when
    the read, the extraction, the mark and the save all go through. *)
Lemma completeImage_succeeds (img path : string) (st : RunState) :
  allocated (progress st) ->
  is_Some (mediaTypes (strings_ToLower (filepath_Ext path))) ->
  lastSaved p0 (trace st) = progress st ->
  exists st',
    match encodeImage env path with
    | Err e => failImage env img (filepath_Base img) e
                 (emit st (EvFile img (ReadImage path)))
    | Ok (mediaType, encoded) =>
        match parseReadingLog env mediaType encoded with
        | Err e =>
            failImage env img (filepath_Base img) e
              (emit (emit st (EvFile img (ReadImage path)))
                 (EvFile img (CallAPI mediaType encoded)))
        | Ok log =>
            completeImage env img (filepath_Base img) log
              (emit (emit st (EvFile img (ReadImage path)))
                 (EvFile img (CallAPI mediaType encoded)))
        end
    end = Running st'
    /\ allocated (progress st')
    /\ mapHas (Completed (progress st')) (filepath_Base img) = true
    /\ lastSaved p0 (trace st') = progress st'.
Proof.
  intros [[c Hc] [e He]] Hmt Hlast.
  destruct (encodeImage_succeeds path Hmt) as (mt & enc & ->).
  destruct (Hextract mt enc) as [log ->].
  assert (markSuccess (progress st) (filepath_Base img) log
          = Some (mkProgress (Some (<[filepath_Base img := log]> c))
                    (Some (delete (filepath_Base img) e)))) as Hmark.
  { unfold markSuccess, mapAssign. by rewrite Hc, He. }
  unfold completeImage. cbn [emit progress]. rewrite Hmark.
  unfold saveProgress. rewrite Hsaves.
  eexists. split; [reflexivity|]. simpl.
  split; [split; by eexists|]. split.
  - apply bool_decide_eq_true. rewrite lookup_insert_eq. by eexists.
  - rewrite !lastSaved_app. simpl. done.
Qed.

Lemma processImage_succeeds i img st :
  allocated (progress st) ->
  imageExts (strings_ToLower (filepath_Ext img)) = true ->
  lastSaved p0 (trace st) = progress st ->
  exists st',
    processImage env total skipped i img st = Running st'
    /\ allocated (progress st')
    /\ mapHas (Completed (progress st')) (filepath_Base img) = true
    /\ lastSaved p0 (trace st') = progress st'.
Proof.
  intros Halloc Hscan Hlast. unfold processImage.
  destruct (mapHas (Completed (progress st)) (filepath_Base img)) eqn:Hhas.
  { eexists. split; [reflexivity|]. simpl. split; [done|]. split; [done|].
    by rewrite lastSaved_app. }
  destruct (isHEIC img) eqn:Hheic.
  - unfold convertHEICtoJPEG. simpl.
    destruct (proj1 Hnormalize (ncreated st)) as (jpgPath & -> & Hjpg).
    pose proof (proj2 Hnormalize img jpgPath) as Hsips.
    destruct (exec_sips env img jpgPath) as [output [e|]]; [done|]. simpl.
    match goal with |- context [encodeImage env jpgPath] =>
      match goal with |- context [emit ?s (EvFile img (ReadImage jpgPath))] =>
        destruct (completeImage_succeeds img jpgPath s) as (st' & Hrun & Hrest)
      end end.
    + done.
    + rewrite Hjpg. by eexists.
    + simpl. by rewrite !lastSaved_app.
    + exists st'. split; [exact Hrun|exact Hrest].
  - simpl.
    destruct (completeImage_succeeds img img
                (emit st (EvFile img (Attempt (i + 1) total skipped))))
      as (st' & Hrun & Hrest).
    + done.
    + apply imageExts_mediaTypes; [done|].
      unfold isHEIC in Hheic. by apply String.eqb_neq in Hheic.
    + simpl. by rewrite lastSaved_app.
    + exists st'. split; [exact Hrun|exact Hrest].
Qed.

Lemma rangeImages_succeeds images : forall i st,
  allocated (progress st) ->
  Forall (fun img => imageExts (strings_ToLower (filepath_Ext img)) = true) images ->
  lastSaved p0 (trace st) = progress st ->
  exists st',
    rangeImages env total skipped i images st = Running st'
    /\ (forall img, img ∈ images ->
          mapHas (Completed (progress st')) (filepath_Base img) = true)
    /\ lastSaved p0 (trace st') = progress st'.
Proof.
  induction images as [|img rest IH]; intros i st Halloc Hscan Hlast; cbn [rangeImages].
  - exists st. split; [done|]. split; [|done]. intros img Hin. by apply elem_of_nil in Hin.
  - apply Forall_cons in Hscan as [Himg Hrest].
    destruct (processImage_succeeds i img st Halloc Himg Hlast)
      as (st1 & -> & Halloc1 & Hdone1 & Hlast1).
    destruct (IH (S i) st1 Halloc1 Hrest Hlast1) as (st' & Hrun & Hall & Hlast').
    exists st'. split; [exact Hrun|]. split; [|exact Hlast'].
    intros f [->|Hin]%elem_of_cons; [|by apply Hall].
    pose proof (rangeImages_completed_mono env total skipped rest (S i) st1 _ Hdone1) as Hmono.
    by rewrite Hrun in Hmono.
Qed.

End FirstRun.

(** After a run in which every step succeeds, from a state with both
    maps allocated, the store holds every listed image in [completed]. *)
Lemma first_run_completes_all (env : Env) (images : list string) (p0 : Progress) :
  allocated p0 ->
  findImages env "." = Ok images ->
  extractionAlwaysSucceeds env -> savesSucceed env ->
  normalizationSucceeds env -> readsSucceed env ->
  forall img, img ∈ images ->
    mapHas (Completed (lastSaved p0 (actions (runBatch env images p0 []))))
      (filepath_Base img) = true.
Proof.
  intros Halloc Hfind Hextract Hsaves Hnormalize Hreads.
  destruct (runBatch_spec env images p0 [])
    as (pre & evs & post & Hact & Hstart & Htr & Hpre & Hpost & _).
  destruct (startState_spec p0 [] images (countSkipped p0 images))
    as (_ & _ & _ & Hprog & _).
  destruct (rangeImages_succeeds env (length images) (countSkipped p0 images) p0
              Hextract Hsaves Hnormalize Hreads images 0
              (startState p0 [] images (countSkipped p0 images)))
    as (st' & Hrun & Hall & Hlast).
  - by rewrite Hprog.
  - by apply (findImages_scanned env).
  - rewrite Hstart, Hprog. simpl. by apply lastSaved_no_file.
  - unfold batchLoop in Htr. rewrite Hrun in Htr. cbn [stateOf] in Htr.
    rewrite Hact. simpl. rewrite app_assoc, lastSaved_app.
    rewrite Hstart in Htr. simpl in Htr. rewrite <- Htr, Hlast.
    rewrite (lastSaved_no_file _ post Hpost). exact Hall.
Qed.



(** * Retrying what failed *)

Lemma mapHas_via_get {V : Type} (m : option (gmap string V)) (k : string) :
  mapHas m k = bool_decide (is_Some (mapGet m k)).
Proof. by destruct m. Qed.

Lemma attempted_mono (env : Env) (img : string) (evs evs' : list Event)
    (p p' : Progress) :
  (forall ev, ev ∈ evs -> ev ∈ evs') ->
  mapGet (Completed p') (filepath_Base img) = mapGet (Completed p) (filepath_Base img) ->
  mapGet (Errors p') (filepath_Base img) = mapGet (Errors p) (filepath_Base img) ->
  attempted env img evs p -> attempted env img evs' p'.
Proof.
  intros Hsub Hc He [(c & t & s & Hatt) Hout]. split.
  { exists c, t, s. by apply Hsub. }
  destruct Hout as [(path & mt & enc & log & Hnorm & Hread & Henc & Hcall & Hparse
                     & Hmark & Hprint & Hdone & Hclean)
                   |(msg & Hwhy & Hprint & Hmark & Herr & Hnot)].
  - left. exists path, mt, enc, log.
    rewrite mapHas_via_get, He, <- mapHas_via_get, Hc.
    split.
    { destruct Hnorm as [?|(? & ? & ?)]; [by left|].
      right. split; [done|]. split; by apply Hsub. }
    split; [by apply Hsub|]. split; [done|]. split; [by apply Hsub|].
    split; [done|]. split; [by apply Hsub|]. split; [by apply Hsub|]. done.
  - right. exists msg.
    rewrite mapHas_via_get, Hc, <- mapHas_via_get, He.
    split.
    { destruct Hwhy as [?|[(path & ? & ?)|(path & mt & enc & ? & ? & ? & ?)]].
      - by left.
      - right. left. exists path. split; [by apply Hsub|done].
      - right. right. exists path, mt, enc.
        split; [by apply Hsub|]. split; [done|]. split; [by apply Hsub|done]. }
    split; [by apply Hsub|]. split; [by apply Hsub|]. done.
Qed.

Section Retry.
Context (env : Env) (total skipped : nat).

(** A failure branch of the loop body: the error is printed and marked,
    and the state has it under the base name. *)
Lemma failImage_outcome (img msg : string) (st st' : RunState) :
  mapHas (Completed (progress st)) (filepath_Base img) = false ->
  failImage env img (filepath_Base img) msg st = Running st' ->
  exists evs,
    trace st' = (trace st ++ evs)%list
    /\ EvFile img (PrintError msg) ∈ evs
    /\ EvFile img (MarkFailure (filepath_Base img) msg) ∈ evs
    /\ mapGet (Errors (progress st')) (filepath_Base img) = Some msg
    /\ mapHas (Completed (progress st')) (filepath_Base img) = false.
Proof.
  intros Hnot. unfold failImage, markFailure, mapAssign. cbn [emit progress].
  destruct (Errors (progress st)) as [e|] eqn:He; [|done]. simpl. intros [= <-]. simpl.
  eexists. split; [by rewrite <- !app_assoc|].
  split; [left|]. split; [right; left|]. split; [apply lookup_insert_eq|done].
Qed.

Lemma completeImage_outcome (img : string) (log : ReadingLog) (st st' : RunState) :
  completeImage env img (filepath_Base img) log st = Running st' ->
  exists evs,
    trace st' = (trace st ++ evs)%list
    /\ EvFile img (MarkSuccess (filepath_Base img) log) ∈ evs
    /\ EvFile img (PrintResult log) ∈ evs
    /\ mapGet (Completed (progress st')) (filepath_Base img) = Some log
    /\ mapHas (Errors (progress st')) (filepath_Base img) = false.
Proof.
  unfold completeImage.
  destruct (markSuccess (progress st) (filepath_Base img) log) as [p|] eqn:Hmark; [|done].
  assert (mapGet (Completed p) (filepath_Base img) = Some log
          /\ mapHas (Errors p) (filepath_Base img) = false) as [Hget Hclean].
  { revert Hmark. unfold markSuccess, mapAssign.
    destruct (Completed (progress st)) as [c|]; [|done]. intros [= <-]. simpl.
    split; [apply lookup_insert_eq|].
    apply mapHas_false_iff. rewrite mapHas_delete. by intros [? _]. }
  destruct (saveProgress env p) as [[]|e]; intros [= <-]; simpl.
  - eexists. split; [by rewrite <- !app_assoc|].
    split; [left|]. split; [right; right; left|]. done.
  - eexists. split; [by rewrite <- !app_assoc|].
    split; [left|]. split; [right; right; right; left|]. done.
Qed.

(** What the loop body does from the read on, for an image that is not
    completed. *)
Lemma readImage_outcome (img path : string) (st st' : RunState) :
  mapHas (Completed (progress st)) (filepath_Base img) = false ->
  match encodeImage env path with
  | Err e => failImage env img (filepath_Base img) e
               (emit st (EvFile img (ReadImage path)))
  | Ok (mediaType, encoded) =>
      match parseReadingLog env mediaType encoded with
      | Err e =>
          failImage env img (filepath_Base img) e
            (emit (emit st (EvFile img (ReadImage path)))
               (EvFile img (CallAPI mediaType encoded)))
      | Ok log =>
          completeImage env img (filepath_Base img) log
            (emit (emit st (EvFile img (ReadImage path)))
               (EvFile img (CallAPI mediaType encoded)))
      end
  end = Running st' ->
  exists evs,
    trace st' = (trace st ++ evs)%list
    /\ EvFile img (ReadImage path) ∈ evs
    /\ ((exists mediaType encoded log,
           encodeImage env path = Ok (mediaType, encoded)
           /\ EvFile img (CallAPI mediaType encoded) ∈ evs
           /\ parseReadingLog env mediaType encoded = Ok log
           /\ EvFile img (MarkSuccess (filepath_Base img) log) ∈ evs
           /\ EvFile img (PrintResult log) ∈ evs
           /\ mapGet (Completed (progress st')) (filepath_Base img) = Some log
           /\ mapHas (Errors (progress st')) (filepath_Base img) = false)
        \/ (exists msg,
              (encodeImage env path = Err msg
               \/ exists mediaType encoded,
                    encodeImage env path = Ok (mediaType, encoded)
                    /\ EvFile img (CallAPI mediaType encoded) ∈ evs
                    /\ parseReadingLog env mediaType encoded = Err msg)
              /\ EvFile img (PrintError msg) ∈ evs
              /\ EvFile img (MarkFailure (filepath_Base img) msg) ∈ evs
              /\ mapGet (Errors (progress st')) (filepath_Base img) = Some msg
              /\ mapHas (Completed (progress st')) (filepath_Base img) = false)).
Proof.
  intros Hnot.
  destruct (encodeImage env path) as [[mt enc]|e] eqn:Henc.
  - destruct (parseReadingLog env mt enc) as [log|e] eqn:Hparse.
    + intros Hrun. apply completeImage_outcome in Hrun
        as (evs & Htr & Hmark & Hprint & Hget & Hclean).
      simpl in Htr. rewrite <- !app_assoc in Htr.
      eexists. split; [exact Htr|]. split; [left|]. left.
      exists mt, enc, log. split; [done|]. split; [right; left|]. split; [done|].
      split; [do 2 right; exact Hmark|]. split; [do 2 right; exact Hprint|]. done.
    + intros Hrun. apply failImage_outcome in Hrun
        as (evs & Htr & Hprint & Hmark & Hget & Hclean); [|done].
      simpl in Htr. rewrite <- !app_assoc in Htr.
      eexists. split; [exact Htr|]. split; [left|]. right.
      exists e. split.
      { right. exists mt, enc. split; [done|]. split; [right; left|]. done. }
      split; [do 2 right; exact Hprint|]. split; [do 2 right; exact Hmark|]. done.
  - intros Hrun. apply failImage_outcome in Hrun
      as (evs & Htr & Hprint & Hmark & Hget & Hclean); [|done].
    simpl in Htr. rewrite <- !app_assoc in Htr.
    eexists. split; [exact Htr|]. split; [left|]. right.
    exists e. split; [by left|].
    split; [right; exact Hprint|]. split; [right; exact Hmark|]. done.
Qed.

(** The loop body takes an image that is not completed through
    normalization, read and extraction, to one of the two outcomes. *)
Lemma processImage_attempted i img st st' :
  mapHas (Completed (progress st)) (filepath_Base img) = false ->
  processImage env total skipped i img st = Running st' ->
  exists evs,
    trace st' = (trace st ++ evs)%list /\ attempted env img evs (progress st').
Proof.
  intros Hnot. unfold processImage. rewrite Hnot.
  destruct (isHEIC img) eqn:Hheic.
  - destruct (convertHEICtoJPEG env img
                (emit st (EvFile img (Attempt (i + 1) total skipped))))
      as [st1 [jpgPath|e]] eqn:Hconv.
    + assert (trace st1
              = (trace st ++ [EvFile img (Attempt (i + 1) total skipped);
                              EvFile img (CreateTemp jpgPath);
                              EvFile img (RunSips jpgPath)])%list
              /\ progress st1 = progress st) as [Htr1 Hprog1].
      { revert Hconv. unfold convertHEICtoJPEG. cbn [emit ncreated].
        destruct (os_CreateTemp env (ncreated st)) as [j|e]; [|done].
        destruct (exec_sips env img j) as [output [e|]]; [done|].
        intros [= <- <-]. simpl. by rewrite <- !app_assoc. }
      intros Hrun. apply readImage_outcome in Hrun as (evs & Htr & Hread & Hout).
      2:{ simpl. by rewrite Hprog1. }
      simpl in Htr. rewrite Htr1, <- app_assoc in Htr.
      eexists. split; [exact Htr|]. split.
      { exists (i + 1)%nat, total, skipped. left. }
      destruct Hout as [(mt & enc & log & Henc & Hcall & Hparse & Hmark & Hprint
                         & Hget & Hclean)
                       |(msg & Hwhy & Hprint & Hmark & Hget & Hclean)].
      * left. exists jpgPath, mt, enc, log.
        split. { right. split; [done|]. split; [right; left|right; right; left]. }
        split; [do 3 right; exact Hread|]. split; [done|].
        split; [do 3 right; exact Hcall|]. split; [done|].
        split; [do 3 right; exact Hmark|]. split; [do 3 right; exact Hprint|]. done.
      * right. exists msg. split.
        { right. destruct Hwhy as [Herr|(mt & enc & Henc & Hcall & Hparse)].
          - left. exists jpgPath. split; [do 3 right; exact Hread|done].
          - right. exists jpgPath, mt, enc. split; [do 3 right; exact Hread|].
            split; [done|]. split; [do 3 right; exact Hcall|done]. }
        split; [do 3 right; exact Hprint|]. split; [do 3 right; exact Hmark|]. done.
    + assert (exists pre, trace st1
                = (trace st ++ EvFile img (Attempt (i + 1) total skipped) :: pre)%list
              /\ progress st1 = progress st) as (pre & Htr1 & Hprog1).
      { revert Hconv. unfold convertHEICtoJPEG. cbn [emit ncreated].
        destruct (os_CreateTemp env (ncreated st)) as [j|e'].
        - destruct (exec_sips env img j) as [output [e'|]]; [|done].
          intros [= <- <-]. simpl. eexists. split; [by rewrite <- !app_assoc|done].
        - intros [= <- <-]. simpl. by eexists. }
      intros Hrun. apply failImage_outcome in Hrun
        as (evs & Htr & Hprint & Hmark & Hget & Hclean); [|by rewrite Hprog1].
      rewrite Htr1, <- app_assoc in Htr.
      eexists. split; [exact Htr|]. split.
      { exists (i + 1)%nat, total, skipped. left. }
      right. exists e. split.
      { left. split; [done|]. eexists. by rewrite Hconv. }
      split; [rewrite <- app_comm_cons; right; apply elem_of_app; by right|].
      split; [rewrite <- app_comm_cons; right; apply elem_of_app; by right|]. done.
  - intros Hrun. apply readImage_outcome in Hrun as (evs & Htr & Hread & Hout); [|done].
    simpl in Htr. rewrite <- app_assoc in Htr.
    eexists. split; [exact Htr|]. split.
    { exists (i + 1)%nat, total, skipped. left. }
    destruct Hout as [(mt & enc & log & Henc & Hcall & Hparse & Hmark & Hprint
                       & Hget & Hclean)
                     |(msg & Hwhy & Hprint & Hmark & Hget & Hclean)].
    + left. exists img, mt, enc, log. split; [by left|].
      split; [right; exact Hread|]. split; [done|].
      split; [right; exact Hcall|]. split; [done|].
      split; [right; exact Hmark|]. split; [right; exact Hprint|]. done.
    + right. exists msg. split.
      { right. destruct Hwhy as [Herr|(mt & enc & Henc & Hcall & Hparse)].
        - left. exists img. split; [right; exact Hread|done].
        - right. exists img, mt, enc. split; [right; exact Hread|].
          split; [done|]. split; [right; exact Hcall|done]. }
      split; [right; exact Hprint|]. split; [right; exact Hmark|]. done.
Qed.

(** With distinct base names, a loop that runs to its end attempts every
    image whose base name is not completed when it starts, and the
    outcome of the attempt is what the state holds at the end. *)
Lemma rangeImages_attempted images : forall i st st',
  rangeImages env total skipped i images st = Running st' ->
  NoDup (filepath_Base <$> images) ->
  forall img, img ∈ images ->
  mapHas (Completed (progress st)) (filepath_Base img) = false ->
  attempted env img (trace st') (progress st').
Proof.
  induction images as [|f rest IH]; intros i st st' Hrun Hnd img Hin Hnot.
  - by apply elem_of_nil in Hin.
  - cbn [rangeImages] in Hrun. rewrite fmap_cons in Hnd.
    apply NoDup_cons in Hnd as [Hf Hnd].
    pose proof (processImage_completed_new env total skipped i f st (filepath_Base img))
      as Hnew.
    destruct (processImage env total skipped i f st) as [st1|st1 msg] eqn:Hone; [|done].
    cbn [stateOf] in Hnew.
    destruct (rangeImages_trace env total skipped rest (S i) st1) as (evs2 & Htr2 & _).
    rewrite Hrun in Htr2. cbn [stateOf] in Htr2.
    destruct (decide (filepath_Base img = filepath_Base f)) as [Hbase|Hbase].
    + assert (img = f) as ->.
      { apply elem_of_cons in Hin as [?|Hin]; [done|].
        exfalso. apply Hf. rewrite <- Hbase. by apply list_elem_of_fmap_2. }
      destruct (processImage_attempted i f st st1 Hnot Hone) as (evs1 & Htr1 & Hatt).
      destruct (rangeImages_frame env total skipped rest (S i) st1 (filepath_Base f))
        as [_ Hframe].
      rewrite Hrun in Hframe. cbn [stateOf] in Hframe.
      destruct (Hframe Hf) as [Hc He].
      apply (attempted_mono env f evs1 _ (progress st1)); [|done|done|done].
      intros ev Hev. rewrite Htr2, Htr1. apply elem_of_app. left. apply elem_of_app. by right.
    + apply elem_of_cons in Hin as [->|Hin]; [done|].
      apply (IH (S i) st1 st' Hrun Hnd img Hin).
      destruct (mapHas (Completed (progress st1)) (filepath_Base img)) eqn:E; [|done].
      destruct (Hnew eq_refl) as [?|?]; congruence.
Qed.

End Retry.



